(** * GameArena: match detection, selection handling and bubbling

    A shallow embedding of [src/game-arena.js].  The arena keeps its tiles as
    the children of one DOM element; every tile is one DOM node.  Here a tile
    is its identity (the [id] it was created with), the children collection
    is a list of tiles in document order, and every method of the class is a
    function over an explicit arena state.  Exceptions leave the state as it
    was when they were raised, as in JavaScript. *)

From Stdlib Require Import ZArith List Bool Lia SpecFloat.
Import ListNotations.
Local Open Scope Z_scope.

(** ** Results of running a method *)

Inductive exn : Set :=
| DeveloperError   (* [throw new Error("Developer error: ...")] *)
| TypeError.       (* a property read on [null] or [undefined] *)

Inductive result (A : Type) : Type :=
| Ok (x : A)
| Throw (e : exn)
| OutOfFuel.
Arguments Ok {A} x.
Arguments Throw {A} e.
Arguments OutOfFuel {A}.

Definition rbind {A B} (r : result A) (k : A -> result B) : result B :=
  match r with
  | Ok x => k x
  | Throw e => Throw e
  | OutOfFuel => OutOfFuel
  end.

(** ** Tiles and the children collection *)

(** A tile is a DOM node; two tiles are the same tile ([===]) when they are
    the same node.  The node is named by the [id] given to its constructor. *)
Definition GameTile := nat.

Definition sameTile (t u : GameTile) : bool := Nat.eqb t u.

(** [Array.prototype.indexOf]: the first index holding the tile, [-1] when
    there is none. *)
Fixpoint indexFrom (i : Z) (t : GameTile) (l : list GameTile) : Z :=
  match l with
  | [] => -1
  | x :: l' => if sameTile x t then i else indexFrom (i + 1) t l'
  end.

Definition indexOf (t : GameTile) (l : list GameTile) : Z := indexFrom 0 t l.

(** [HTMLCollection.item] and indexing: nothing outside the collection. *)
Definition item (i : Z) (l : list GameTile) : option GameTile :=
  if i <? 0 then None else nth_error l (Z.to_nat i).

(** Taking a tile out of a sequence: what every DOM insertion does first
    with the node it moves, and what [Set.prototype.delete] does to a set
    kept in insertion order. *)
Definition detach (t : GameTile) (l : list GameTile) : list GameTile :=
  filter (fun x => negb (sameTile x t)) l.

(** [new Set(array)]: the entries in insertion order, each once. *)
Fixpoint newSet (l : list GameTile) : list GameTile :=
  match l with
  | [] => []
  | x :: l' => x :: detach x (newSet l')
  end.

Fixpoint insertAfter (ref new : GameTile) (l : list GameTile) : list GameTile :=
  match l with
  | [] => []
  | x :: l' =>
      if sameTile x ref then x :: new :: l' else x :: insertAfter ref new l'
  end.

Fixpoint insertBefore (ref new : GameTile) (l : list GameTile) : list GameTile :=
  match l with
  | [] => []
  | x :: l' =>
      if sameTile x ref then new :: x :: l' else x :: insertBefore ref new l'
  end.

(** [ref.after(new)] and [ref.before(new)] among the children of the canvas:
    [new] leaves its place and is put next to [ref].  Nothing moves when
    [ref] is [new] itself or is not a child. *)
Definition after (ref new : GameTile) (l : list GameTile) : list GameTile :=
  if sameTile ref new then l
  else if existsb (sameTile ref) l then insertAfter ref new (detach new l)
  else l.

Definition before (ref new : GameTile) (l : list GameTile) : list GameTile :=
  if sameTile ref new then l
  else if existsb (sameTile ref) l then insertBefore ref new (detach new l)
  else l.

(** ** Board walker *)

Module BoardWalker.
Section Walker.
Variables rows cols : Z.

(** Modelled from the spec: [board-walker.js] (class [BoardWalker]) is not
    among the sources.  The left edge is the column boundary
    [index % cols == 0]. *)
Definition detectEdgeLeft (idx : Z) : bool := Z.rem idx cols =? 0.

(** Modelled from the spec: [BoardWalker.detectEdgeRight] is missing; the
    right edge is the column boundary [(index+1) % cols == 0]. *)
Definition detectEdgeRight (idx : Z) : bool := Z.rem (idx + 1) cols =? 0.

(** Modelled from the spec: [BoardWalker.detectEdgeUp] is missing; the up
    edge is a boundary check against row 0. *)
Definition detectEdgeUp (idx : Z) : bool := idx / cols =? 0.

(** Modelled from the spec: [BoardWalker.detectEdgeDown] is missing; the
    down edge is a boundary check against row [rows-1]. *)
Definition detectEdgeDown (idx : Z) : bool := idx / cols =? rows - 1.

(** Modelled from the spec: [BoardWalker.getIndexToLeft] is missing; the
    direction [left] is [-1]. *)
Definition getIndexToLeft (idx : Z) : Z := idx - 1.

(** Modelled from the spec: [BoardWalker.getIndexToRight] is missing; the
    direction [right] is [+1]. *)
Definition getIndexToRight (idx : Z) : Z := idx + 1.

(** Modelled from the spec: [BoardWalker.getIndexToUp] is missing; the
    direction [up] is [-cols]. *)
Definition getIndexToUp (idx : Z) : Z := idx - cols.

(** Modelled from the spec: [BoardWalker.getIndexToDown] is missing; the
    direction [down] is [+cols]. *)
Definition getIndexToDown (idx : Z) : Z := idx + cols.
End Walker.
End BoardWalker.

(** ** Match results *)

Fixpoint insertByIndex (tiles : list GameTile) (t : GameTile)
    (sorted : list GameTile) : list GameTile :=
  match sorted with
  | [] => [t]
  | u :: rest =>
      if indexOf t tiles <=? indexOf u tiles then t :: u :: rest
      else u :: insertByIndex tiles t rest
  end.

(** Document order: ascending index in the children collection [tiles]. *)
Definition sortByIndex (tiles l : list GameTile) : list GameTile :=
  fold_right (insertByIndex tiles) [] l.

(** Modelled from the spec: [match-info.js] (class [MatchInfo]) is not among
    the sources.  By the data model of the spec a MatchInfo has two optional
    sequences, [alongX] and [alongY], each either null (no run of length
    >= 3) or the positions of a run ordered from one extreme to the other,
    in document order. *)
Record MatchInfo : Type := mkMatchInfo {
  alongX : option (list GameTile);
  alongY : option (list GameTile)
}.

(** Modelled from the spec: an axis as a MatchInfo keeps it: null unless
    the sequence given has three tiles or more, and then listed in document
    order. *)
Definition runInDocumentOrder (tiles : list GameTile)
    (axis : option (list GameTile)) : option (list GameTile) :=
  match axis with
  | Some l => if (3 <=? length l)%nat then Some (sortByIndex tiles l) else None
  | None => None
  end.

(** Modelled from the spec: the constructor of the missing class
    [MatchInfo], given the two sequences [#detectMatchXY] has built;
    [tiles] is the children collection the document order is read from. *)
Definition newMatchInfo (tiles : list GameTile)
    (matchX matchY : option (list GameTile)) : MatchInfo :=
  mkMatchInfo (runInDocumentOrder tiles matchX)
              (runInDocumentOrder tiles matchY).

Definition axisTiles (axis : option (list GameTile)) : list GameTile :=
  match axis with
  | Some l => l
  | None => []
  end.

Definition matchInfoTiles (m : option MatchInfo) : list GameTile :=
  match m with
  | Some mi => axisTiles (alongX mi) ++ axisTiles (alongY mi)
  | None => []
  end.

(** Modelled from the spec: [combo-match-info.js] (class [ComboMatchInfo]) is
    not among the sources; a combo is the union of the positions of
    whichever of [alongX]/[alongY] are non-null in each non-null MatchInfo,
    deduplicated and sorted ascending by grid index ([domSortedTiles]). *)
Record ComboMatchInfo : Type := mkCombo { domSortedTiles : list GameTile }.

(** Modelled from the spec: the constructor of the missing class
    [ComboMatchInfo]; [tiles] is the children collection the document order
    is read from. *)
Definition newComboMatchInfo (tiles : list GameTile)
    (m1 m2 : option MatchInfo) : ComboMatchInfo :=
  mkCombo (sortByIndex tiles
             (newSet (matchInfoTiles m1 ++ matchInfoTiles m2))).

(** ** The arena *)

Record GameArena : Type := mkArena {
  elemTiles : list GameTile;            (* #elemTiles, in document order *)
  hiddenTiles : list GameTile;          (* the tiles whose [isHidden] is set *)
  elemPickedTile : option GameTile;     (* #elemPickedTile, [None] is null *)
  elemTargetTile : option GameTile;     (* #elemTargetTile *)
  badSwapTimers : nat                   (* scheduled, not yet fired timeouts *)
}.

Definition setElemTiles (l : list GameTile) (a : GameArena) : GameArena :=
  mkArena l (hiddenTiles a) (elemPickedTile a) (elemTargetTile a)
          (badSwapTimers a).

Definition setHiddenTiles (h : list GameTile) (a : GameArena) : GameArena :=
  mkArena (elemTiles a) h (elemPickedTile a) (elemTargetTile a)
          (badSwapTimers a).

Definition setSelection (p t : option GameTile) (a : GameArena) : GameArena :=
  mkArena (elemTiles a) (hiddenTiles a) p t (badSwapTimers a).

Definition setBadSwapTimers (n : nat) (a : GameArena) : GameArena :=
  mkArena (elemTiles a) (hiddenTiles a) (elemPickedTile a) (elemTargetTile a) n.

(** Methods that change the arena: the state after the call, and its
    result.  A raised exception keeps the state reached so far. *)
Definition M (A : Type) : Type := GameArena -> GameArena * result A.

Definition ret {A} (x : A) : M A := fun a => (a, Ok x).

Definition bind {A B} (m : M A) (k : A -> M B) : M B :=
  fun a =>
    match m a with
    | (a', Ok x) => k x a'
    | (a', Throw e) => (a', Throw e)
    | (a', OutOfFuel) => (a', OutOfFuel)
    end.

Definition read {A} (f : GameArena -> result A) : M A := fun a => (a, f a).

Definition modify (f : GameArena -> GameArena) : M unit :=
  fun a => (f a, Ok tt).

Declare Scope arena_scope.
Delimit Scope arena_scope with arena.
Notation "x <- m ;; k" := (bind m (fun x => k))
  (at level 61, m at next level, right associativity) : arena_scope.
Notation "m ;;; k" := (bind m (fun _ => k))
  (at level 61, right associativity) : arena_scope.
Notation "x <~ r ;; k" := (rbind r (fun x => k))
  (at level 61, r at next level, right associativity) : arena_scope.
Local Open Scope arena_scope.

Inductive direction : Set := DLeft | DUp | DRight | DDown.

Inductive event : Set :=
| Click (t : GameTile)     (* the user clicks a tile *)
| BadSwapTimeout.          (* a scheduled bad-swap timeout fires *)

Record DirectionalMatchInfo : Type := mkDirectional {
  onLeft : list GameTile;
  onUp : list GameTile;
  onRight : list GameTile;
  onDown : list GameTile
}.

Section Arena.

(** The shape of the board is fixed by the constructor; the type of a tile
    is a property of the tile that nothing in the arena changes. *)
Variables rows cols : Z.
Variable typeOf : GameTile -> Z.

(** Modelled from the spec: [game-tile.js] (class [GameTile]) is not among
    the sources; a tile has a [type] and a [hidden] flag, read as
    [isHidden] and set by [setHidden]. *)
Definition isHidden (a : GameArena) (t : GameTile) : bool :=
  existsb (sameTile t) (hiddenTiles a).

(** Modelled from the spec: [GameTile.setHidden], of the missing class
    [GameTile], sets the [hidden] flag of the tile. *)
Definition setHidden (t : GameTile) (a : GameArena) : GameArena :=
  setHiddenTiles (t :: hiddenTiles a) a.

(** [#matchSeekHelpersMap]: per direction, the edge test and the step. *)
Definition matchSeekHelpersMap (dir : direction) : (Z -> bool) * (Z -> Z) :=
  match dir with
  | DLeft => (BoardWalker.detectEdgeLeft cols, BoardWalker.getIndexToLeft)
  | DUp => (BoardWalker.detectEdgeUp cols, BoardWalker.getIndexToUp cols)
  | DRight => (BoardWalker.detectEdgeRight cols, BoardWalker.getIndexToRight)
  | DDown =>
      (BoardWalker.detectEdgeDown rows cols, BoardWalker.getIndexToDown cols)
  end.

Definition isInMatch (a : GameArena) (testTile : GameTile)
    (pickedTileType : Z) : bool :=
  negb (isHidden a testTile) && (typeOf testTile =? pickedTileType).

(** The generator [#seekInDirection], collected into the array of the tiles
    it yields.  [fuel] bounds the number of turns of its [while] loop. *)
Fixpoint seekInDirection (fuel : nat) (a : GameArena) (dir : direction)
    (pickedTileType seekIndex : Z) : result (list GameTile) :=
  match fuel with
  | O => OutOfFuel
  | S fuel' =>
      let (edgeDetectOnDirectionFn, indexToDirectionFn) :=
        matchSeekHelpersMap dir in
      if edgeDetectOnDirectionFn seekIndex then Ok []
      else
        let seekIndex' := indexToDirectionFn seekIndex in
        match item seekIndex' (elemTiles a) with
        | None => Throw TypeError
        | Some testTile =>
            if isInMatch a testTile pickedTileType then
              rest <~ seekInDirection fuel' a dir pickedTileType seekIndex' ;;
              Ok (testTile :: rest)
            else Ok []
        end
  end.

(** A walk visits every slot at most once, so this many turns are enough
    (see [seekInDirection_fuel]). *)
Definition seekFuel (a : GameArena) : nat := S (length (elemTiles a)).

Definition obtainDirectionalMatchInfo (a : GameArena)
    (tileToAnalyze : GameTile) : result DirectionalMatchInfo :=
  let pickedTileType := typeOf tileToAnalyze in
  let idxSeek := indexOf tileToAnalyze (elemTiles a) in
  l <~ seekInDirection (seekFuel a) a DLeft pickedTileType idxSeek ;;
  u <~ seekInDirection (seekFuel a) a DUp pickedTileType idxSeek ;;
  r <~ seekInDirection (seekFuel a) a DRight pickedTileType idxSeek ;;
  d <~ seekInDirection (seekFuel a) a DDown pickedTileType idxSeek ;;
  Ok (mkDirectional l u r d).

Definition lengthAtLeast (n : nat) (axis : option (list GameTile)) : bool :=
  match axis with
  | Some l => (n <=? length l)%nat
  | None => false
  end.

(** The constants [matchX] and [matchY] of [#detectMatchXY]: the sequences
    it builds from the four walks [mInfo] and hands to [MatchInfo]. *)
Definition matchX (mInfo : DirectionalMatchInfo) (tileToAnalyze : GameTile)
    : option (list GameTile) :=
  if (1 <=? length (onLeft mInfo))%nat || (1 <=? length (onRight mInfo))%nat
  then Some (onLeft mInfo ++ tileToAnalyze :: onRight mInfo)
  else None.

Definition matchY (mInfo : DirectionalMatchInfo) (tileToAnalyze : GameTile)
    : option (list GameTile) :=
  if (1 <=? length (onUp mInfo))%nat || (1 <=? length (onDown mInfo))%nat
  then Some (onUp mInfo ++ tileToAnalyze :: onDown mInfo)
  else None.

Definition detectMatchXY (a : GameArena) (tileToAnalyze : GameTile)
    : result (option MatchInfo) :=
  mInfo <~ obtainDirectionalMatchInfo a tileToAnalyze ;;
  Ok (if lengthAtLeast 3 (matchX mInfo tileToAnalyze)
         || lengthAtLeast 3 (matchY mInfo tileToAnalyze)
      then Some (newMatchInfo (elemTiles a)
                   (matchX mInfo tileToAnalyze) (matchY mInfo tileToAnalyze))
      else None).

(** [#detectMatchXY] on a field of the selection: reading [.type] of [null]
    raises. *)
Definition detectMatchOfSelected (a : GameArena) (sel : option GameTile)
    : result (option MatchInfo) :=
  match sel with
  | Some t => detectMatchXY a t
  | None => Throw TypeError
  end.

Definition calculateMatchByUserSelection (a : GameArena)
    : result (option ComboMatchInfo) :=
  matchInfo1 <~ detectMatchOfSelected a (elemPickedTile a) ;;
  matchInfo2 <~ detectMatchOfSelected a (elemTargetTile a) ;;
  Ok (match matchInfo1, matchInfo2 with
      | None, None => None
      | _, _ => Some (newComboMatchInfo (elemTiles a) matchInfo1 matchInfo2)
      end).

(** [#swapTiles]: two DOM moves.  [tile2] precedes [tile1] in the document
    when it has the smaller index (both are children of the canvas). *)
Definition swapTiles (tile1 tile2 : GameTile) : M unit :=
  fun a =>
    let idxInitialTile1 := indexOf tile1 (elemTiles a) in
    if indexOf tile2 (elemTiles a) <? idxInitialTile1 then
      let a1 := setElemTiles (after tile2 tile1 (elemTiles a)) a in
      match item idxInitialTile1 (elemTiles a1) with
      | Some r => (setElemTiles (after r tile2 (elemTiles a1)) a1, Ok tt)
      | None => (a1, Throw TypeError)
      end
    else
      let a1 := setElemTiles (before tile2 tile1 (elemTiles a)) a in
      match item idxInitialTile1 (elemTiles a1) with
      | Some r => (setElemTiles (before r tile2 (elemTiles a1)) a1, Ok tt)
      | None => (a1, Throw TypeError)
      end.

Definition resetUserSelection : M unit := modify (setSelection None None).

Definition resetUserSelectionWithNewPicked (pickedTile : GameTile) : M unit :=
  resetUserSelection ;;;
  modify (fun a => setSelection (Some pickedTile) (elemTargetTile a) a).

Definition swapUserSelectedTiles : M unit :=
  fun a =>
    match elemPickedTile a, elemTargetTile a with
    | Some p, Some t => swapTiles p t a
    | _, _ => (a, Throw DeveloperError)
    end.

Definition hideMatch (matchInfo : ComboMatchInfo) : M unit :=
  modify (fun a => fold_left (fun a' t => setHidden t a')
                             (domSortedTiles matchInfo) a).

Definition tryGetFallingTile (a : GameArena) (indexMatchedTile : Z)
    : result (option GameTile) :=
  if BoardWalker.detectEdgeUp cols indexMatchedTile then Ok None
  else
    match item (BoardWalker.getIndexToUp cols indexMatchedTile) (elemTiles a)
    with
    | None => Throw TypeError
    | Some tile => Ok (if isHidden a tile then None else Some tile)
    end.

(** The callback of [fixtureRaw.forEach] in [#bubbleMatchToTopEdge]; the
    working set [fixtureRaw] is a local of the method and is passed along. *)
Definition bubbleTile (fixtureRaw : list GameTile) (tileBubbling : GameTile)
    : M (list GameTile) :=
  idxMatchTile <- read (fun a => Ok (indexOf tileBubbling (elemTiles a))) ;;
  tileFalling <- read (fun a => tryGetFallingTile a idxMatchTile) ;;
  match tileFalling with
  | Some f => swapTiles tileBubbling f ;;; ret fixtureRaw
  | None => ret (detach tileBubbling fixtureRaw)
  end.

(** One [forEach] over the working set: the entries are visited in insertion
    order.  The callback deletes no entry but the one it is visiting, so the
    entries visited are those the set had when the pass began. *)
Fixpoint forEachBubbling (entries fixtureRaw : list GameTile)
    : M (list GameTile) :=
  match entries with
  | [] => ret fixtureRaw
  | t :: rest => fr <- bubbleTile fixtureRaw t ;; forEachBubbling rest fr
  end.

(** [while (fixtureRaw.size) { fixtureRaw.forEach(...) }]; [fuel] bounds the
    number of passes. *)
Fixpoint bubbleLoop (fuel : nat) (fixtureRaw : list GameTile) : M unit :=
  match fixtureRaw with
  | [] => ret tt
  | _ :: _ =>
      match fuel with
      | O => fun a => (a, OutOfFuel)
      | S fuel' =>
          fr <- forEachBubbling fixtureRaw fixtureRaw ;; bubbleLoop fuel' fr
      end
  end.

(** [rows] passes are enough for a combo of hidden tiles of the board (see
    [bubbleLoop_terminates]). *)
Definition bubbleMatchToTopEdge (matchFixture : ComboMatchInfo) : M unit :=
  bubbleLoop (Z.to_nat rows) (newSet (domSortedTiles matchFixture)).

Definition handleUserSuccessSelection (matchInfo : ComboMatchInfo) : M unit :=
  resetUserSelection ;;;
  hideMatch matchInfo ;;;
  bubbleMatchToTopEdge matchInfo.

(** [setTimeout] registers the callback; it runs when [BadSwapTimeout] is
    dispatched. *)
Definition handleUserBadSelection : M unit :=
  modify (fun a => setBadSwapTimers (S (badSwapTimers a)) a).

(** The arrow function given to [setTimeout]; it reads the selection fields
    when it runs. *)
Definition badSwapTimeoutCallback : M unit :=
  swapUserSelectedTiles ;;; resetUserSelection.

(** [indexOf(null)] is [-1]. *)
Definition indexOfSelected (sel : option GameTile) (l : list GameTile) : Z :=
  match sel with
  | Some t => indexOf t l
  | None => -1
  end.

Definition isSecondTileOnSide (a : GameArena) (target : GameTile)
    : option direction :=
  let x := indexOf target (elemTiles a) in
  let y := indexOfSelected (elemPickedTile a) (elemTiles a) in
  if x - y =? -1 then Some DLeft
  else if x - y =? - cols then Some DUp
  else if x - y =? cols then Some DDown
  else if x - y =? 1 then Some DRight
  else None.

Definition isSet (sel : option GameTile) : bool :=
  match sel with
  | Some _ => true
  | None => false
  end.

Definition isDir (x : option direction) : bool :=
  match x with
  | Some _ => true
  | None => false
  end.

(** [this.#elemPickedTile === clickedTile] *)
Definition pickedIs (a : GameArena) (clickedTile : GameTile) : bool :=
  match elemPickedTile a with
  | Some p => sameTile p clickedTile
  | None => false
  end.

(** [this.#elemPickedTile?.type === clickedTile?.type]; the clicked tile is
    never null, so [undefined] on the left equals nothing on the right. *)
Definition pickedHasTypeOf (a : GameArena) (clickedTile : GameTile) : bool :=
  match elemPickedTile a with
  | Some p => typeOf p =? typeOf clickedTile
  | None => false
  end.

(** The five tests of [#manageAndValidateSelection], in their order.  [x] is
    the local the third and the fifth test assign [#isSecondTileOnSide] to;
    it stays [undefined] ([None]) when [&&] or [||] cuts the test short. *)
Definition manageAndValidateSelection (clickedTile : GameTile)
    : M (option direction) :=
  fun a =>
    if pickedIs a clickedTile then
      (* click on the picked tile: deactivate the selection *)
      (resetUserSelection ;;; ret None) a
    else if pickedHasTypeOf a clickedTile then
      (* a tile of the same type: it is the new picked tile *)
      (resetUserSelectionWithNewPicked clickedTile ;;; ret None) a
    else
      let x := if isSet (elemPickedTile a) && negb (isSet (elemTargetTile a))
               then isSecondTileOnSide a clickedTile else None in
      if isSet (elemPickedTile a) && negb (isSet (elemTargetTile a))
         && isDir x then
        (* two consequent tiles: set the target, start the evaluation *)
        (modify (setSelection (elemPickedTile a) (Some clickedTile)) ;;;
         ret x) a
      else if negb (isSet (elemPickedTile a)) then
        (* the first tile is picked *)
        (modify (setSelection (Some clickedTile) (elemTargetTile a)) ;;;
         ret None) a
      else
        let x5 := if isSet (elemTargetTile a) then x
                  else isSecondTileOnSide a clickedTile in
        if isSet (elemPickedTile a)
           && (isSet (elemTargetTile a) || negb (isDir x5)) then
          (* wrong second tile, or both already set: new picked tile *)
          (resetUserSelectionWithNewPicked clickedTile ;;; ret x5) a
        else (a, Ok None).

Definition tileClickHandler (clickedTile : GameTile) : M unit :=
  intendedSwapDirection <- manageAndValidateSelection clickedTile ;;
  match intendedSwapDirection with
  | None => ret tt
  | Some _ =>
      swapUserSelectedTiles ;;;
      matchFixture <- read calculateMatchByUserSelection ;;
      match matchFixture with
      | Some combo => handleUserSuccessSelection combo
      | None => handleUserBadSelection
      end
  end.

(** The event loop hands every event to its handler; a timeout that was
    never scheduled does not fire. *)
Definition dispatch (ev : event) : M unit :=
  match ev with
  | Click t => tileClickHandler t
  | BadSwapTimeout =>
      fun a =>
        match badSwapTimers a with
        | O => (a, Ok tt)
        | S n => badSwapTimeoutCallback (setBadSwapTimers n a)
        end
  end.

(** An exception ends the handler that raised it, not the page: the next
    event is handled in the state the handler left. *)
Fixpoint runEvents (evs : list event) (a : GameArena)
    : GameArena * list (result unit) :=
  match evs with
  | [] => (a, [])
  | ev :: rest =>
      let (a', r) := dispatch ev a in
      let (a'', rs) := runEvents rest a' in
      (a'', r :: rs)
  end.

End Arena.

(** ** Vocabulary of the properties *)

Fixpoint distinct (l : list GameTile) : bool :=
  match l with
  | [] => true
  | x :: l' => negb (existsb (sameTile x) l') && distinct l'
  end.

(** A board as [#createBoard] builds it and [#swapTiles] keeps it: [rows]
    rows of [cols] tiles, every tile once. *)
Definition wellFormed (rows cols : Z) (a : GameArena) : bool :=
  (0 <? cols) && (Z.of_nat (length (elemTiles a)) =? rows * cols)
  && distinct (elemTiles a).

Definition rowOf (cols idx : Z) : Z := idx / cols.
Definition colOf (cols idx : Z) : Z := idx mod cols.

(** The index a direction adds at every step. *)
Definition delta (cols : Z) (dir : direction) : Z :=
  match dir with
  | DLeft => -1
  | DUp => - cols
  | DRight => 1
  | DDown => cols
  end.

(** The [n] indices reached from [idx] by stepping [d] at a time, nearest
    first. *)
Fixpoint walkFrom (d idx : Z) (n : nat) : list Z :=
  match n with
  | O => []
  | S n' => (idx + d) :: walkFrom d (idx + d) n'
  end.

(** Left and right keep the row, up and down keep the column. *)
Definition sameLine (cols : Z) (dir : direction) (idx j : Z) : Prop :=
  match dir with
  | DLeft => rowOf cols j = rowOf cols idx /\ j < idx
  | DRight => rowOf cols j = rowOf cols idx /\ idx < j
  | DUp => colOf cols j = colOf cols idx /\ j < idx
  | DDown => colOf cols j = colOf cols idx /\ idx < j
  end.

(** How many steps a walk from [idx] can still take before it leaves the
    board. *)
Definition stepsLeft (rows cols : Z) (dir : direction) (idx : Z) : nat :=
  match dir with
  | DLeft | DUp => Z.to_nat idx
  | DRight | DDown => Z.to_nat (rows * cols - 1 - idx)
  end.

(** [run] is what a walk from [idx] may yield: its tiles sit on the
    consecutive indices from [idx], nearest first, all in the line of [idx]
    and inside the board, and every one is visible and of type [ty]. *)
Definition walkedFrom (rows cols : Z) (typeOf : GameTile -> Z)
    (a : GameArena) (dir : direction) (ty idx : Z) (run : list GameTile)
    : Prop :=
  map (fun j => item j (elemTiles a))
      (walkFrom (delta cols dir) idx (length run)) = map Some run /\
  Forall (fun t => isInMatch typeOf a t ty = true) run /\
  Forall (fun j => sameLine cols dir idx j /\ 0 <= j < rows * cols)
         (walkFrom (delta cols dir) idx (length run)).

(** [acc[dir]] of the object [#obtainDirectionalMatchInfo] builds. *)
Definition onDirection (m : DirectionalMatchInfo) (dir : direction)
    : list GameTile :=
  match dir with
  | DLeft => onLeft m
  | DUp => onUp m
  | DRight => onRight m
  | DDown => onDown m
  end.

(** The grid positions of a sequence of tiles. *)
Definition positions (a : GameArena) (l : list GameTile) : list Z :=
  map (fun t => indexOf t (elemTiles a)) l.

Fixpoint ascending (l : list Z) : bool :=
  match l with
  | [] => true
  | i :: l' =>
      match l' with
      | [] => true
      | j :: _ => (i <? j) && ascending l'
      end
  end.

(** ** Boards used as examples *)

(** The 7x7 board of the scenario in the spec, after the swap: tile [k+1]
    sits on index [k], nothing is hidden, and row 3 (indices 21..27) reads
    [A A A A C D E]; every other tile has a type of its own. *)
Definition scenarioBoard : GameArena := mkArena (seq 1 49) [] None None 0.

Definition scenarioTypes (t : GameTile) : Z :=
  match t with
  | 22%nat | 23%nat | 24%nat | 25%nat => 1
  | _ => Z.of_nat t + 100
  end.

(** The board of the scenario with the tile on index 23 hidden: walking left
    from index 24 meets the hidden tile first, and visible tiles of type [A]
    lie beyond it on the indices 22 and 21. *)
Definition gapBoard : GameArena := mkArena (seq 1 49) [24%nat] None None 0.

(** A 3x3 board, tile [k+1] on index [k], whose left column (tiles 1, 4, 7)
    has just been hidden as a match. *)
Definition columnBoard : GameArena :=
  mkArena (seq 1 9) [1%nat; 4%nat; 7%nat] None None 0.

(** A 3x3 board whose bottom row (tiles 7, 8, 9) has just been hidden. *)
Definition rowBoard : GameArena :=
  mkArena (seq 1 9) [7%nat; 8%nat; 9%nat] None None 0.

(** The cascade as the spec words it, for the entry [t] of the working set
    [fr]: while the tile above [t] is hidden, [t] is skipped and stays in
    the working set; and [t] leaves the working set only at the top edge. *)
Definition retriedUntilTopEdge (cols : Z) (a : GameArena)
    (fr : list GameTile) (t : GameTile) : Prop :=
  (In t fr ->
   BoardWalker.detectEdgeUp cols (indexOf t (elemTiles a)) = false ->
   (exists h,
      item (BoardWalker.getIndexToUp cols (indexOf t (elemTiles a)))
           (elemTiles a) = Some h /\ isHidden a h = true) ->
   exists a' fr', bubbleTile cols fr t a = (a', Ok fr') /\ In t fr') /\
  (forall a' fr',
     bubbleTile cols fr t a = (a', Ok fr') -> In t fr -> ~ In t fr' ->
     BoardWalker.detectEdgeUp cols (indexOf t (elemTiles a)) = true).

(** Two indices of the [rows] x [cols] grid are grid-adjacent when one is
    the left, right, upper or lower neighbour of the other. *)
Definition gridAdjacent (rows cols i j : Z) : bool :=
  (0 <=? i) && (i <? rows * cols) && (0 <=? j) && (j <? rows * cols)
  && (((rowOf cols i =? rowOf cols j)
       && (Z.abs (colOf cols i - colOf cols j) =? 1))
      || ((colOf cols i =? colOf cols j)
          && (Z.abs (rowOf cols i - rowOf cols j) =? 1))).

(** The slot [i] holds a visible tile of type [ty]. *)
Definition visibleOfType (typeOf : GameTile -> Z) (a : GameArena) (ty i : Z)
    : bool :=
  match item i (elemTiles a) with
  | Some u => isInMatch typeOf a u ty
  | None => false
  end.

(** Three consecutive slots of one row, from [s] rightwards, all visible and
    of type [ty]; and three consecutive slots of one column, from [s]
    downwards. *)
Definition rowWindow (cols : Z) (typeOf : GameTile -> Z) (a : GameArena)
    (ty s : Z) : bool :=
  (0 <=? s) && (rowOf cols s =? rowOf cols (s + 2))
  && visibleOfType typeOf a ty s && visibleOfType typeOf a ty (s + 1)
  && visibleOfType typeOf a ty (s + 2).

Definition columnWindow (cols : Z) (typeOf : GameTile -> Z) (a : GameArena)
    (ty s : Z) : bool :=
  (0 <=? s)
  && visibleOfType typeOf a ty s && visibleOfType typeOf a ty (s + cols)
  && visibleOfType typeOf a ty (s + 2 * cols).

(** The tile [t] belongs to a valid run of length at least 3: a run of three
    or more visible tiles of one type along a row or a column contains
    three consecutive ones around each of its members. *)
Definition inRunOf3 (cols : Z) (typeOf : GameTile -> Z) (a : GameArena)
    (t : GameTile) : bool :=
  let i := indexOf t (elemTiles a) in
  let ty := typeOf t in
  existsb (rowWindow cols typeOf a ty) [i - 2; i - 1; i]
  || existsb (columnWindow cols typeOf a ty) [i - 2 * cols; i - cols; i].

(** Whenever both fields of the selection are set, the tiles differ in
    type. *)
Definition selectedTypesDiffer (typeOf : GameTile -> Z) (a : GameArena)
    : Prop :=
  forall p t, elemPickedTile a = Some p -> elemTargetTile a = Some t ->
    typeOf p <> typeOf t.

(** A 3x3 board, tile [k+1] on index [k], nothing hidden, nothing selected;
    with [ownType] every tile has a type of its own, so no swap makes a
    match. *)
Definition plainBoard : GameArena := mkArena (seq 1 9) [] None None 0.

Definition ownType (t : GameTile) : Z := Z.of_nat t.

(** On [plainBoard] with these types the tiles 2, 4, 6 and 8 are of type
    [A]: swapping the tiles on the indices 5 and 4 brings tile 6 to the
    centre, below tile 2, above tile 8 and right of tile 4. *)
Definition crossTypes (t : GameTile) : Z :=
  match t with
  | 2%nat | 4%nat | 6%nat | 8%nat => 1
  | _ => Z.of_nat t + 100
  end.

(** [plainBoard] after the user has picked tile 6, chosen tile 5 as target,
    and the two have been swapped. *)
Definition crossBoard : GameArena :=
  mkArena [1; 2; 3; 4; 6; 5; 7; 8; 9]%nat [] (Some 6%nat) (Some 5%nat) 0.


(** On [plainBoard] with these types the tiles 1, 3, 4, 5 and 6 are of type
    [A]. *)
Definition hiddenCentreTypes (t : GameTile) : Z :=
  match t with
  | 1%nat | 3%nat | 4%nat | 5%nat | 6%nat => 1
  | _ => Z.of_nat t + 100
  end.

(** [plainBoard] after the clicks on the tiles 5, 2, 5 and 2, at the moment
    the last click calculates the match: the first two clicks have brought
    tile 5 into the top row and hidden that row; the hidden tile 5 has then
    been picked and swapped back to the centre, between the visible tiles 4
    and 6 of its type. *)
Definition hiddenCentreBoard : GameArena :=
  mkArena (seq 1 9) [3; 5; 1]%nat (Some 5%nat) (Some 2%nat) 0.

(** The two fields of the selection. *)
Definition selection (a : GameArena) : option GameTile * option GameTile :=
  (elemPickedTile a, elemTargetTile a).

(** A method that leaves the selection as it is or resets it, whether it
    returns or raises. *)
Definition keepsOrClearsSelection {A : Type} (m : M A) : Prop :=
  forall a, selection (fst (m a)) = selection a \/
            selection (fst (m a)) = (None, None).

(** A target is only ever set next to a picked tile of another type. *)
Definition targetHasOtherType (typeOf : GameTile -> Z) (a : GameArena)
    : Prop :=
  forall t, elemTargetTile a = Some t ->
    exists p, elemPickedTile a = Some p /\ typeOf p <> typeOf t.

(** [plainBoard] with tile 1 picked. *)
Definition pickedBoard : GameArena :=
  mkArena (seq 1 9) [] (Some 1%nat) None 0.


(** ** Numbers *)

(** The numbers of [rangeGenerator] are JS numbers, IEEE 754 doubles.  The
    model has the doubles of integer value and the three values that are no
    finite number; the two zeros are not told apart.  Sums, differences and
    products of such numbers are such numbers again. *)
Inductive number : Type :=
| Num (z : Z)
| PosInf
| NegInf
| NaN.

Module Number.

(** A double has 53 significant bits: around the integer [z] the doubles
    are the multiples of [2 ^ ulpExponent z]. *)
Definition ulpExponent (z : Z) : Z := Z.max 0 (Z.log2 (Z.abs z) - 52).

(** The multiple of [2 ^ e] nearest to [z], the even one of two that are
    equally near. *)
Definition roundToEven (z e : Z) : Z :=
  let p := 2 ^ e in
  let q := z / p in
  let r := z mod p in
  if 2 * r <? p then q * p
  else if p <? 2 * r then (q + 1) * p
  else if Z.even q then q * p
  else (q + 1) * p.

(** The double nearest to the integer [z], as every arithmetic operation
    rounds its exact result; beyond the largest double the result is
    infinite. *)
Definition toDouble (z : Z) : number :=
  let r := roundToEven z (ulpExponent z) in
  let limit := 2 ^ 1024 in
  if limit <=? r then PosInf
  else if r <=? - limit then NegInf
  else Num r.

Definition neg (x : number) : number :=
  match x with
  | Num a => Num (- a)
  | PosInf => NegInf
  | NegInf => PosInf
  | NaN => NaN
  end.

(** [x + y] *)
Definition add (x y : number) : number :=
  match x, y with
  | NaN, _ | _, NaN => NaN
  | PosInf, NegInf | NegInf, PosInf => NaN
  | PosInf, _ | _, PosInf => PosInf
  | NegInf, _ | _, NegInf => NegInf
  | Num a, Num b => toDouble (a + b)
  end.

(** [x - y] *)
Definition sub (x y : number) : number := add x (neg y).

(** [x * y] *)
Definition mul (x y : number) : number :=
  match x, y with
  | NaN, _ | _, NaN => NaN
  | Num a, Num b => toDouble (a * b)
  | Num a, PosInf | PosInf, Num a =>
      if a =? 0 then NaN else if 0 <? a then PosInf else NegInf
  | Num a, NegInf | NegInf, Num a =>
      if a =? 0 then NaN else if 0 <? a then NegInf else PosInf
  | PosInf, PosInf | NegInf, NegInf => PosInf
  | PosInf, NegInf | NegInf, PosInf => NegInf
  end.

(** [x <= y]; no comparison with [NaN] holds. *)
Definition leb (x y : number) : bool :=
  match x, y with
  | NaN, _ | _, NaN => false
  | NegInf, _ | _, PosInf => true
  | PosInf, _ | _, NegInf => false
  | Num a, Num b => a <=? b
  end.

Definition eqb (x y : number) : bool :=
  match x, y with
  | Num a, Num b => a =? b
  | PosInf, PosInf | NegInf, NegInf | NaN, NaN => true
  | _, _ => false
  end.

(** The same numbers in the IEEE 754 specification of the standard
    library, with the precision and the exponent range of binary64. *)
Definition toSpecFloat (x : number) : spec_float :=
  match x with
  | Num z => binary_normalize 53 1024 z 0 false
  | PosInf => S754_infinity false
  | NegInf => S754_infinity true
  | NaN => S754_nan
  end.

Definition ofSpecFloat (f : spec_float) : number :=
  match f with
  | S754_zero _ => Num 0
  | S754_infinity false => PosInf
  | S754_infinity true => NegInf
  | S754_nan => NaN
  | S754_finite s m e =>
      let v := if 0 <=? e then Z.pos m * 2 ^ e else Z.pos m / 2 ^ (- e) in
      Num (if s then - v else v)
  end.

End Number.

(** The integers every sum and difference of which is exact as long as it
    stays among them: those of magnitude at most [2 ^ 53]. *)
Definition exactInteger (z : Z) : Prop := - 2 ^ 53 <= z <= 2 ^ 53.

(** The number [x] is not above the integer [b]. *)
Definition atMost (x : number) (b : Z) : Prop :=
  match x with
  | Num a => a <= b
  | NegInf => True
  | PosInf | NaN => False
  end.

(** Numbers around the limits of the doubles, to compare the model with the
    specification of the standard library on. *)
Definition sampleIntegers : list Z :=
  let base :=
    [0; 1; 2; 3; 7; 2 ^ 52; 2 ^ 53 - 1; 2 ^ 53; 2 ^ 53 + 1; 2 ^ 53 + 2;
     2 ^ 53 + 3; 2 ^ 53 + 4; 2 ^ 53 + 5; 2 ^ 53 + 6; 2 ^ 54 - 1; 2 ^ 54;
     2 ^ 54 + 1; 2 ^ 54 + 2; 2 ^ 54 + 3; 2 ^ 54 + 5; 2 ^ 54 + 6; 2 ^ 54 + 7;
     2 ^ 60 + 2 ^ 7; 2 ^ 60 + 2 ^ 7 + 1; 2 ^ 60 + 3 * 2 ^ 7 - 1;
     2 ^ 60 + 3 * 2 ^ 7; 2 ^ 100 + 12345678901234567890; 3 ^ 200; 7 ^ 300;
     2 ^ 1023; 2 ^ 1024 - 2 ^ 971; 2 ^ 1024 - 2 ^ 971 + 1;
     2 ^ 1024 - 2 ^ 970 - 1; 2 ^ 1024 - 2 ^ 970; 2 ^ 1024 - 2 ^ 970 + 1;
     2 ^ 1024; 2 ^ 1025; 2 ^ 2000 + 1] in
  base ++ map Z.opp base.

Definition sampleNumbers : list number :=
  [NaN; PosInf; NegInf]
  ++ map Number.toDouble
       [0; 1; -1; 2 ^ 53; 2 ^ 53 + 2; - 2 ^ 54 - 4; 2 ^ 1023;
        - 2 ^ 1024 + 2 ^ 971].

(** ** The range generator and the construction of the board *)

(** The generator [generateRange] inside [rangeGenerator], collected into
    the array of the numbers it yields; [x] is its local, [fuel] bounds the
    turns of its [while] loop. *)
Fixpoint generateRange (fuel : nat) (end_ step x : number)
    : result (list number) :=
  match fuel with
  | O => OutOfFuel
  | S fuel' =>
      if Number.leb x (Number.sub end_ step) then
        let x' := Number.add x step in
        rest <~ generateRange fuel' end_ step x' ;;
        Ok (x' :: rest)
      else Ok []
  end.

(** [rangeGenerator(end, start = 0, step = 1)], iterated to its end. *)
Definition rangeGenerator (fuel : nat) (end_ start step : number)
    : result (list number) :=
  generateRange fuel end_ step (Number.sub start step).

(** [#createTile]: the tile made with the number [id] as its id; the tiles
    are told apart by their ids, which [#createBoard] takes from the
    integers counted from 1. *)
Definition createTile (id : number) : GameTile :=
  match id with
  | Num z => Z.to_nat z
  | _ => 0%nat
  end.

(** [#createBoard]: one tile per number of [rangeGenerator(rows * cols, 1)],
    created with that number as its [id]; the type drawn for it is what
    [typeOf] says of the tile. *)
Definition createBoard (rows cols : Z) : result (list GameTile) :=
  ks <~ rangeGenerator (S (Z.to_nat (rows * cols)))
          (Number.mul (Num rows) (Num cols)) (Num 1) (Num 1) ;;
  Ok (map createTile ks).

(** The arena as the constructor leaves it: the canvas holds the tiles of
    [#createBoard], nothing is hidden, selected or scheduled. *)
Definition newGameArena (rows cols : Z) : result GameArena :=
  tiles <~ createBoard rows cols ;;
  Ok (mkArena tiles [] None None 0).

(** How many numbers [rangeGenerator(end, start, step)] yields when [step]
    is positive. *)
Definition rangeLength (end_ start step : Z) : nat :=
  if start <=? end_ then Z.to_nat ((end_ - start) / step + 1) else 0%nat.

(** The numbers [start], [start + step], ... , [n] of them. *)
Definition arithmeticRange (start step : Z) (n : nat) : list Z :=
  map (fun k => start + Z.of_nat k * step) (seq 0 n).

(** ** Vocabulary of the further properties *)

(** What bubbling leaves alone, from the arena [a] before to the arena [a']
    after: the hidden flags, the selection, the timeouts and the tiles of
    the board; every tile stays in its column, a visible tile never moves
    up and a hidden tile never moves down. *)
Definition bubblingFrame (cols : Z) (a a' : GameArena) : Prop :=
  hiddenTiles a' = hiddenTiles a /\
  selection a' = selection a /\
  badSwapTimers a' = badSwapTimers a /\
  (forall u, In u (elemTiles a') <-> In u (elemTiles a)) /\
  (forall u, In u (elemTiles a) ->
     colOf cols (indexOf u (elemTiles a'))
     = colOf cols (indexOf u (elemTiles a))) /\
  (forall u, In u (elemTiles a) -> isHidden a u = false ->
     indexOf u (elemTiles a) <= indexOf u (elemTiles a')) /\
  (forall u, In u (elemTiles a) -> isHidden a u = true ->
     indexOf u (elemTiles a') <= indexOf u (elemTiles a)).

(** The states the arena is in between two events: a well-formed board; the
    selected tiles are tiles of the board; a target is only set beside a
    picked tile, which is another tile. *)
Definition arenaInvariant (rows cols : Z) (a : GameArena) : Prop :=
  wellFormed rows cols a = true /\
  (forall p, elemPickedTile a = Some p -> In p (elemTiles a)) /\
  (forall t, elemTargetTile a = Some t ->
     In t (elemTiles a) /\
     exists p, elemPickedTile a = Some p /\ p <> t).

(** The clicks of a sequence of events are clicks on tiles of the board. *)
Definition clicksOn (tiles : list GameTile) (evs : list event) : Prop :=
  forall c, In (Click c) evs -> In c tiles.

(** How the handling of an event may end: a click handler returns; the
    callback of a timeout returns or raises the developer error. *)
Definition handled (ev : event) (r : result unit) : Prop :=
  match ev with
  | Click _ => r = Ok tt
  | BadSwapTimeout => r = Ok tt \/ r = Throw DeveloperError
  end.

(** Gravity is satisfied: above a hidden tile there is no visible tile. *)
Definition settled (cols : Z) (a : GameArena) : Prop :=
  forall i u v,
    item i (elemTiles a) = Some u ->
    item (i - cols) (elemTiles a) = Some v ->
    isHidden a u = true -> isHidden a v = true.

(** The same, leaving the tiles of [ws] out: a hidden tile that is not in
    [ws] and not on the top row has, directly above it, a hidden tile that
    is not in [ws]. *)
Definition settledApartFrom (cols : Z) (a : GameArena) (ws : list GameTile)
    : Prop :=
  forall u,
    In u (elemTiles a) -> isHidden a u = true -> ~ In u ws ->
    cols <= indexOf u (elemTiles a) ->
    exists v,
      In v (elemTiles a) /\
      indexOf v (elemTiles a) = indexOf u (elemTiles a) - cols /\
      isHidden a v = true /\ ~ In v ws.

(** Of two tiles of one column, [w] is the upper one. *)
Definition topFirst (cols : Z) (a : GameArena) (w w' : GameTile) : Prop :=
  colOf cols (indexOf w (elemTiles a)) = colOf cols (indexOf w' (elemTiles a))
  -> indexOf w (elemTiles a) < indexOf w' (elemTiles a).

(** Every entry of a sequence is related to every later one. *)
Fixpoint ordered {A : Type} (R : A -> A -> Prop) (l : list A) : Prop :=
  match l with
  | [] => True
  | x :: l' => (forall y, In y l' -> R x y) /\ ordered R l'
  end.

(** What holds in the middle of a bubbling pass, [kept] being the entries
    already visited that are still in the working set and [rest] the
    entries still to visit: the board is well-formed; the entries are
    hidden tiles of the board, each once; the hidden tiles outside the
    working set are settled; in every column the entries come top first;
    and no entry still to visit sits directly below a visited one. *)
Definition bubblingInvariant (rows cols : Z) (a : GameArena)
    (kept rest : list GameTile) : Prop :=
  wellFormed rows cols a = true /\
  NoDup (kept ++ rest) /\
  (forall t, In t (kept ++ rest) ->
     In t (elemTiles a) /\ isHidden a t = true) /\
  settledApartFrom cols a (kept ++ rest) /\
  ordered (topFirst cols a) (kept ++ rest) /\
  (forall v w, In v kept -> In w rest ->
     indexOf w (elemTiles a) <> indexOf v (elemTiles a) + cols).
(** * Properties *)

(** ** The children collection *)

Lemma sameTile_spec (t u : GameTile) : reflect (t = u) (sameTile t u).
Proof. apply Nat.eqb_spec. Qed.

Lemma sameTile_refl (t : GameTile) : sameTile t t = true.
Proof. apply Nat.eqb_refl. Qed.

Lemma sameTile_neq (t u : GameTile) : t <> u -> sameTile t u = false.
Proof. intro H. now apply Nat.eqb_neq. Qed.

Lemma existsb_sameTile (t : GameTile) (l : list GameTile) :
  existsb (sameTile t) l = true <-> In t l.
Proof.
  rewrite existsb_exists. split.
  - intros [x [Hx Heq]]. destruct (sameTile_spec t x); congruence.
  - intro H. exists t. split; [assumption | apply sameTile_refl].
Qed.

Lemma existsb_sameTile_false (t : GameTile) (l : list GameTile) :
  existsb (sameTile t) l = false <-> ~ In t l.
Proof.
  rewrite <- existsb_sameTile. destruct (existsb (sameTile t) l); intuition congruence.
Qed.

Lemma indexFrom_notIn (t : GameTile) (l : list GameTile) :
  forall i, ~ In t l -> indexFrom i t l = -1.
Proof.
  induction l as [|x l IH]; intros i Hn; simpl; [reflexivity|].
  destruct (sameTile_spec x t) as [->|Hne].
  - exfalso. apply Hn. now left.
  - apply IH. intro H. apply Hn. now right.
Qed.

Lemma indexFrom_app_mid (t : GameTile) (l1 l2 : list GameTile) :
  forall i, ~ In t l1 ->
  indexFrom i t (l1 ++ t :: l2) = i + Z.of_nat (length l1).
Proof.
  induction l1 as [|x l1 IH]; intros i Hn; simpl.
  - rewrite sameTile_refl. lia.
  - destruct (sameTile_spec x t) as [->|Hne].
    + exfalso. apply Hn. now left.
    + rewrite IH by (intro H; apply Hn; now right). lia.
Qed.

Lemma indexOf_app_mid (t : GameTile) (l1 l2 : list GameTile) :
  ~ In t l1 -> indexOf t (l1 ++ t :: l2) = Z.of_nat (length l1).
Proof. intro H. unfold indexOf. now rewrite indexFrom_app_mid. Qed.

Lemma indexFrom_In (t : GameTile) (l : list GameTile) :
  forall i, In t l -> i <= indexFrom i t l < i + Z.of_nat (length l).
Proof.
  induction l as [|x l IH]; intros i Hin; [destruct Hin|].
  simpl indexFrom. simpl length.
  destruct (sameTile_spec x t) as [->|Hne]; [lia|].
  destruct Hin as [->|Hin]; [congruence|].
  specialize (IH (i + 1) Hin). lia.
Qed.

Lemma indexOf_In (t : GameTile) (l : list GameTile) :
  In t l -> 0 <= indexOf t l < Z.of_nat (length l).
Proof. intro H. apply (indexFrom_In t l 0 H). Qed.

Lemma indexOf_notIn (t : GameTile) (l : list GameTile) :
  ~ In t l -> indexOf t l = -1.
Proof. apply indexFrom_notIn. Qed.

Lemma item_app_mid (t : GameTile) (l1 l2 : list GameTile) :
  item (Z.of_nat (length l1)) (l1 ++ t :: l2) = Some t.
Proof.
  unfold item. destruct (Z.ltb_spec (Z.of_nat (length l1)) 0); [lia|].
  rewrite Nat2Z.id. rewrite nth_error_app2 by lia.
  now rewrite Nat.sub_diag.
Qed.

Lemma item_split (i : Z) (t : GameTile) (l : list GameTile) :
  item i l = Some t ->
  exists l1 l2, l = l1 ++ t :: l2 /\ Z.of_nat (length l1) = i.
Proof.
  unfold item. destruct (Z.ltb_spec i 0); [discriminate|]. intro Hn.
  destruct (nth_error_split _ _ Hn) as [l1 [l2 [-> Hlen]]].
  exists l1, l2. split; [reflexivity | lia].
Qed.

Lemma item_In (i : Z) (t : GameTile) (l : list GameTile) :
  item i l = Some t -> In t l.
Proof.
  intro H. destruct (item_split _ _ _ H) as [l1 [l2 [-> _]]].
  apply in_or_app. right. now left.
Qed.

Lemma item_range (i : Z) (l : list GameTile) :
  0 <= i < Z.of_nat (length l) -> exists t, item i l = Some t.
Proof.
  intros [H0 H1]. unfold item. destruct (Z.ltb_spec i 0); [lia|].
  destruct (nth_error l (Z.to_nat i)) eqn:E; [eauto|].
  apply nth_error_None in E. lia.
Qed.

Lemma item_Some_range (i : Z) (t : GameTile) (l : list GameTile) :
  item i l = Some t -> 0 <= i < Z.of_nat (length l).
Proof.
  intro H. destruct (item_split _ _ _ H) as [l1 [l2 [-> Hl]]].
  rewrite length_app. simpl. lia.
Qed.

Lemma NoDup_mid (t : GameTile) (l1 l2 : list GameTile) :
  NoDup (l1 ++ t :: l2) -> ~ In t l1 /\ ~ In t l2 /\ NoDup (l1 ++ l2).
Proof.
  intro H. pose proof (NoDup_remove_1 _ _ _ H) as H1.
  pose proof (NoDup_remove_2 _ _ _ H) as H2.
  repeat split; [| |assumption]; intro Hin; apply H2; apply in_or_app; tauto.
Qed.

Lemma indexOf_item (i : Z) (t : GameTile) (l : list GameTile) :
  NoDup l -> item i l = Some t -> indexOf t l = i.
Proof.
  intros Hnd H. destruct (item_split _ _ _ H) as [l1 [l2 [-> Hl]]].
  destruct (NoDup_mid _ _ _ Hnd) as [Hn1 _].
  rewrite indexOf_app_mid by assumption. exact Hl.
Qed.

Lemma item_indexOf (t : GameTile) (l : list GameTile) :
  In t l -> item (indexOf t l) l = Some t.
Proof.
  intro Hin. unfold indexOf.
  assert (G : forall i, 0 <= i -> In t l ->
            item (indexFrom i t l - i) l = Some t).
  { clear Hin. induction l as [|x l IH]; intros i Hi Hin; [destruct Hin|].
    simpl indexFrom. destruct (sameTile_spec x t) as [->|Hne].
    - now replace (i - i) with 0 by lia.
    - destruct Hin as [->|Hin]; [congruence|].
      specialize (IH (i + 1) ltac:(lia) Hin).
      pose proof (indexFrom_In t l (i + 1) Hin) as Hr.
      unfold item in *. destruct (Z.ltb_spec (indexFrom (i + 1) t l - i) 0); [lia|].
      destruct (Z.ltb_spec (indexFrom (i + 1) t l - (i + 1)) 0); [lia|].
      replace (Z.to_nat (indexFrom (i + 1) t l - i))
        with (S (Z.to_nat (indexFrom (i + 1) t l - (i + 1)))) by lia.
      exact IH. }
  specialize (G 0 ltac:(lia) Hin). now rewrite Z.sub_0_r in G.
Qed.

Lemma indexFrom_app (t : GameTile) (l1 l2 : list GameTile) :
  forall i, indexFrom i t (l1 ++ l2) =
    if existsb (sameTile t) l1 then indexFrom i t l1
    else indexFrom (i + Z.of_nat (length l1)) t l2.
Proof.
  induction l1 as [|x l1 IH]; intro i; simpl.
  - f_equal. lia.
  - destruct (sameTile_spec x t) as [->|Hne].
    + now rewrite sameTile_refl.
    + rewrite sameTile_neq by congruence. simpl. rewrite IH.
      destruct (existsb (sameTile t) l1); [reflexivity|]. f_equal. lia.
Qed.

(** Exchanging two entries moves no other tile. *)
Lemma indexOf_exchange (u x y : GameTile) (l1 l2 l3 : list GameTile) :
  u <> x -> u <> y ->
  indexOf u (l1 ++ y :: l2 ++ x :: l3) = indexOf u (l1 ++ x :: l2 ++ y :: l3).
Proof.
  intros Hx Hy. unfold indexOf.
  rewrite !indexFrom_app. destruct (existsb (sameTile u) l1); [reflexivity|].
  simpl. rewrite (sameTile_neq y u), (sameTile_neq x u) by congruence.
  rewrite !indexFrom_app. destruct (existsb (sameTile u) l2); [reflexivity|].
  simpl. now rewrite (sameTile_neq y u), (sameTile_neq x u) by congruence.
Qed.

(** ** The DOM moves *)

Lemma detach_notIn (t : GameTile) (l : list GameTile) :
  ~ In t l -> detach t l = l.
Proof.
  induction l as [|x l IH]; intro Hn; simpl; [reflexivity|].
  destruct (sameTile_spec x t) as [->|Hne].
  - exfalso. apply Hn. now left.
  - simpl. f_equal. apply IH. intro H. apply Hn. now right.
Qed.

Lemma detach_app (t : GameTile) (l1 l2 : list GameTile) :
  detach t (l1 ++ l2) = detach t l1 ++ detach t l2.
Proof. apply filter_app. Qed.

Lemma detach_mid (t : GameTile) (l1 l2 : list GameTile) :
  ~ In t l1 -> ~ In t l2 -> detach t (l1 ++ t :: l2) = l1 ++ l2.
Proof.
  intros H1 H2. rewrite detach_app. simpl. rewrite sameTile_refl. simpl.
  now rewrite !detach_notIn.
Qed.

Lemma In_detach (x t : GameTile) (l : list GameTile) :
  In x (detach t l) <-> In x l /\ x <> t.
Proof.
  unfold detach. rewrite filter_In.
  destruct (sameTile_spec x t); simpl; intuition congruence.
Qed.

Lemma insertAfter_mid (r n : GameTile) (l1 l2 : list GameTile) :
  ~ In r l1 -> insertAfter r n (l1 ++ r :: l2) = l1 ++ r :: n :: l2.
Proof.
  induction l1 as [|x l1 IH]; intro Hn; simpl.
  - now rewrite sameTile_refl.
  - rewrite sameTile_neq by (intro; subst; apply Hn; now left).
    f_equal. apply IH. intro H. apply Hn. now right.
Qed.

Lemma insertBefore_mid (r n : GameTile) (l1 l2 : list GameTile) :
  ~ In r l1 -> insertBefore r n (l1 ++ r :: l2) = l1 ++ n :: r :: l2.
Proof.
  induction l1 as [|x l1 IH]; intro Hn; simpl.
  - now rewrite sameTile_refl.
  - rewrite sameTile_neq by (intro; subst; apply Hn; now left).
    f_equal. apply IH. intro H. apply Hn. now right.
Qed.

Ltac in_list :=
  repeat (progress (rewrite ?in_app_iff in *; simpl In in * )); intuition congruence.

Lemma NoDup_two (x y : GameTile) (l1 l2 l3 : list GameTile) :
  NoDup (l1 ++ x :: l2 ++ y :: l3) ->
  x <> y /\ ~ In x (l1 ++ l2 ++ l3) /\ ~ In y (l1 ++ l2 ++ l3) /\
  NoDup (l1 ++ l2 ++ l3).
Proof.
  intro H. destruct (NoDup_mid _ _ _ H) as [Hx1 [Hx2 Hnd]].
  replace (l1 ++ l2 ++ y :: l3) with ((l1 ++ l2) ++ y :: l3) in Hnd
    by now rewrite <- app_assoc.
  destruct (NoDup_mid _ _ _ Hnd) as [Hy1 [Hy2 Hnd']].
  rewrite <- app_assoc in Hnd'.
  repeat split; try assumption.
  - intros ->. in_list.
  - in_list.
  - in_list.
Qed.

Lemma after_two_later (x y : GameTile) (l1 l2 l3 : list GameTile) :
  NoDup (l1 ++ x :: l2 ++ y :: l3) ->
  after x y (l1 ++ x :: l2 ++ y :: l3) = l1 ++ x :: y :: l2 ++ l3.
Proof.
  intro H. destruct (NoDup_two _ _ _ _ _ H) as [Hxy [Hx [Hy _]]].
  unfold after. rewrite sameTile_neq by assumption.
  replace (existsb (sameTile x) (l1 ++ x :: l2 ++ y :: l3)) with true
    by (symmetry; apply existsb_sameTile; in_list).
  replace (l1 ++ x :: l2 ++ y :: l3) with ((l1 ++ x :: l2) ++ y :: l3)
    by now rewrite <- app_assoc.
  rewrite detach_mid by in_list.
  rewrite <- app_assoc. simpl. rewrite insertAfter_mid by in_list.
  reflexivity.
Qed.

Lemma after_two_earlier (r x : GameTile) (l1 l2 l3 : list GameTile) :
  NoDup (l1 ++ x :: l2 ++ r :: l3) ->
  after r x (l1 ++ x :: l2 ++ r :: l3) = l1 ++ l2 ++ r :: x :: l3.
Proof.
  intro H. destruct (NoDup_two _ _ _ _ _ H) as [Hxy [Hx [Hy _]]].
  unfold after. rewrite sameTile_neq by congruence.
  replace (existsb (sameTile r) (l1 ++ x :: l2 ++ r :: l3)) with true
    by (symmetry; apply existsb_sameTile; in_list).
  rewrite detach_mid by in_list.
  replace (l1 ++ l2 ++ r :: l3) with ((l1 ++ l2) ++ r :: l3)
    by now rewrite <- app_assoc.
  rewrite insertAfter_mid by in_list.
  now rewrite <- app_assoc.
Qed.

Lemma before_two_earlier (x y : GameTile) (l1 l2 l3 : list GameTile) :
  NoDup (l1 ++ x :: l2 ++ y :: l3) ->
  before y x (l1 ++ x :: l2 ++ y :: l3) = l1 ++ l2 ++ x :: y :: l3.
Proof.
  intro H. destruct (NoDup_two _ _ _ _ _ H) as [Hxy [Hx [Hy _]]].
  unfold before. rewrite sameTile_neq by congruence.
  replace (existsb (sameTile y) (l1 ++ x :: l2 ++ y :: l3)) with true
    by (symmetry; apply existsb_sameTile; in_list).
  rewrite detach_mid by in_list.
  replace (l1 ++ l2 ++ y :: l3) with ((l1 ++ l2) ++ y :: l3)
    by now rewrite <- app_assoc.
  rewrite insertBefore_mid by in_list.
  now rewrite <- app_assoc.
Qed.

Lemma before_two_later (r y : GameTile) (l1 l2 l3 : list GameTile) :
  NoDup (l1 ++ r :: l2 ++ y :: l3) ->
  before r y (l1 ++ r :: l2 ++ y :: l3) = l1 ++ y :: r :: l2 ++ l3.
Proof.
  intro H. destruct (NoDup_two _ _ _ _ _ H) as [Hxy [Hx [Hy _]]].
  unfold before. rewrite sameTile_neq by congruence.
  replace (existsb (sameTile r) (l1 ++ r :: l2 ++ y :: l3)) with true
    by (symmetry; apply existsb_sameTile; in_list).
  replace (l1 ++ r :: l2 ++ y :: l3) with ((l1 ++ r :: l2) ++ y :: l3)
    by now rewrite <- app_assoc.
  rewrite detach_mid by in_list.
  rewrite <- app_assoc. simpl. rewrite insertBefore_mid by in_list.
  reflexivity.
Qed.

Lemma NoDup_exchange (x y : GameTile) (l1 l2 l3 : list GameTile) :
  NoDup (l1 ++ x :: l2 ++ y :: l3) -> NoDup (l1 ++ y :: l2 ++ x :: l3).
Proof.
  intro H. destruct (NoDup_two _ _ _ _ _ H) as [Hxy [Hx [Hy Hnd]]].
  assert (Hnd2 : NoDup (l1 ++ l2 ++ x :: l3)).
  { replace (l1 ++ l2 ++ x :: l3) with ((l1 ++ l2) ++ x :: l3)
      by now rewrite <- app_assoc.
    apply NoDup_Add with (a := x) (l := (l1 ++ l2) ++ l3).
    - apply Add_app.
    - rewrite <- app_assoc. now split. }
  apply NoDup_Add with (a := y) (l := l1 ++ l2 ++ x :: l3).
  - apply Add_app.
  - split; [assumption|]. intro Hin. apply Hy. in_list.
Qed.

Lemma NoDup_detach (t : GameTile) (l : list GameTile) :
  NoDup l -> NoDup (detach t l).
Proof. apply NoDup_filter. Qed.

Lemma NoDup_insertAfter (r n : GameTile) (l : list GameTile) :
  NoDup l -> ~ In n l -> NoDup (insertAfter r n l).
Proof.
  induction l as [|x l IH]; intros Hnd Hn; simpl; [constructor|].
  inversion Hnd as [|? ? Hx Hl]; subst.
  destruct (sameTile_spec x r) as [->|Hne].
  - constructor; [in_list|]. constructor; [in_list | assumption].
  - constructor.
    + intro Hin. apply Hx. clear - Hin Hn. 
      induction l as [|z l IHl]; simpl in *; [tauto|].
      destruct (sameTile z r); in_list.
    + apply IH; [assumption | in_list].
Qed.

Lemma NoDup_insertBefore (r n : GameTile) (l : list GameTile) :
  NoDup l -> ~ In n l -> NoDup (insertBefore r n l).
Proof.
  induction l as [|x l IH]; intros Hnd Hn; simpl; [constructor|].
  inversion Hnd as [|? ? Hx Hl]; subst.
  destruct (sameTile_spec x r) as [->|Hne].
  - constructor; [in_list|]. constructor; [in_list | assumption].
  - constructor.
    + intro Hin. apply Hx. clear - Hin Hn.
      induction l as [|z l IHl]; simpl in *; [tauto|].
      destruct (sameTile z r); in_list.
    + apply IH; [assumption | in_list].
Qed.

Lemma NoDup_after (r n : GameTile) (l : list GameTile) :
  NoDup l -> NoDup (after r n l).
Proof.
  intro H. unfold after. destruct (sameTile r n); [assumption|].
  destruct (existsb (sameTile r) l); [|assumption].
  apply NoDup_insertAfter; [now apply NoDup_detach|].
  rewrite In_detach. tauto.
Qed.

Lemma NoDup_before (r n : GameTile) (l : list GameTile) :
  NoDup l -> NoDup (before r n l).
Proof.
  intro H. unfold before. destruct (sameTile r n); [assumption|].
  destruct (existsb (sameTile r) l); [|assumption].
  apply NoDup_insertBefore; [now apply NoDup_detach|].
  rewrite In_detach. tauto.
Qed.

(** ** [#swapTiles] exchanges the places of two tiles *)

Lemma setElemTiles_twice (l l' : list GameTile) (a : GameArena) :
  setElemTiles l (setElemTiles l' a) = setElemTiles l a.
Proof. reflexivity. Qed.

Lemma last_cases (l : list GameTile) :
  l = [] \/ exists l' z, l = l' ++ [z].
Proof.
  induction l as [|z l' _] using rev_ind; [now left | right; eauto].
Qed.

Lemma swapTiles_later_earlier (a : GameArena) (x y : GameTile)
    (l1 l2 l3 : list GameTile) :
  elemTiles a = l1 ++ x :: l2 ++ y :: l3 ->
  NoDup (elemTiles a) ->
  swapTiles y x a = (setElemTiles (l1 ++ y :: l2 ++ x :: l3) a, Ok tt).
Proof.
  intros El Hnd. unfold swapTiles. rewrite El in *.
  destruct (NoDup_two _ _ _ _ _ Hnd) as [Hxy [Hx [Hy _]]].
  assert (Ix : indexOf x (l1 ++ x :: l2 ++ y :: l3) = Z.of_nat (length l1))
    by (apply indexOf_app_mid; in_list).
  assert (Iy : indexOf y (l1 ++ x :: l2 ++ y :: l3)
               = Z.of_nat (length (l1 ++ x :: l2))).
  { replace (l1 ++ x :: l2 ++ y :: l3) with ((l1 ++ x :: l2) ++ y :: l3)
      by now rewrite <- app_assoc.
    apply indexOf_app_mid. in_list. }
  rewrite Ix, Iy.
  destruct (Z.ltb_spec (Z.of_nat (length l1)) (Z.of_nat (length (l1 ++ x :: l2))))
    as [_|Hge]; [|rewrite length_app in Hge; simpl in Hge; lia].
  cbn [elemTiles setElemTiles].
  pose proof (NoDup_after x y _ Hnd) as Hnd1.
  rewrite after_two_later in * by assumption.
  assert (Hr : exists r L2,
             l1 ++ x :: y :: l2 ++ l3 = l1 ++ x :: L2 ++ r :: l3 /\
             L2 ++ [r] = y :: l2).
  { destruct (last_cases l2) as [->|[l2' [z ->]]].
    - exists y, []. split; reflexivity.
    - exists z, (y :: l2'). split; [|reflexivity].
      simpl. now rewrite <- app_assoc. }
  destruct Hr as [r [L2 [EL Hl2]]].
  assert (Hlen : Z.of_nat (length (l1 ++ x :: l2))
                 = Z.of_nat (length (l1 ++ x :: L2))).
  { apply (f_equal (@length _)) in Hl2. rewrite length_app in Hl2.
    rewrite !length_app. simpl in *. lia. }
  rewrite Hlen, EL in *.
  replace (item (Z.of_nat (length (l1 ++ x :: L2))) (l1 ++ x :: L2 ++ r :: l3))
    with (Some r).
  2:{ replace (l1 ++ x :: L2 ++ r :: l3) with ((l1 ++ x :: L2) ++ r :: l3)
        by now rewrite <- app_assoc.
      now rewrite item_app_mid. }
  rewrite after_two_earlier by assumption.
  rewrite setElemTiles_twice. do 2 f_equal.
  replace (L2 ++ r :: x :: l3) with ((L2 ++ [r]) ++ x :: l3)
    by now rewrite <- app_assoc.
  now rewrite Hl2.
Qed.

Lemma swapTiles_earlier_later (a : GameArena) (x y : GameTile)
    (l1 l2 l3 : list GameTile) :
  elemTiles a = l1 ++ x :: l2 ++ y :: l3 ->
  NoDup (elemTiles a) ->
  swapTiles x y a = (setElemTiles (l1 ++ y :: l2 ++ x :: l3) a, Ok tt).
Proof.
  intros El Hnd. unfold swapTiles. rewrite El in *.
  destruct (NoDup_two _ _ _ _ _ Hnd) as [Hxy [Hx [Hy _]]].
  assert (Ix : indexOf x (l1 ++ x :: l2 ++ y :: l3) = Z.of_nat (length l1))
    by (apply indexOf_app_mid; in_list).
  assert (Iy : indexOf y (l1 ++ x :: l2 ++ y :: l3)
               = Z.of_nat (length (l1 ++ x :: l2))).
  { replace (l1 ++ x :: l2 ++ y :: l3) with ((l1 ++ x :: l2) ++ y :: l3)
      by now rewrite <- app_assoc.
    apply indexOf_app_mid. in_list. }
  rewrite Ix, Iy.
  destruct (Z.ltb_spec (Z.of_nat (length (l1 ++ x :: l2))) (Z.of_nat (length l1)))
    as [Hlt|_]; [rewrite length_app in Hlt; simpl in Hlt; lia|].
  cbn [elemTiles setElemTiles].
  pose proof (NoDup_before y x _ Hnd) as Hnd1.
  rewrite before_two_earlier in * by assumption.
  assert (Hr : exists r L2,
             l1 ++ l2 ++ x :: y :: l3 = l1 ++ r :: L2 ++ y :: l3 /\
             r :: L2 = l2 ++ [x]).
  { destruct l2 as [|z l2'].
    - exists x, []. split; reflexivity.
    - exists z, (l2' ++ [x]). split; [|reflexivity].
      simpl. now rewrite <- app_assoc. }
  destruct Hr as [r [L2 [EL Hl2]]].
  rewrite EL in *.
  rewrite item_app_mid.
  rewrite before_two_later by assumption.
  rewrite setElemTiles_twice. do 2 f_equal.
  replace (y :: l2 ++ x :: l3) with (y :: (l2 ++ [x]) ++ l3)
    by (now rewrite <- app_assoc).
  now rewrite <- Hl2.
Qed.

Lemma item_app_tail (j : Z) (x : GameTile) (l1 rest : list GameTile) :
  Z.of_nat (length l1) < j ->
  item j (l1 ++ x :: rest) = item (j - Z.of_nat (length l1) - 1) rest.
Proof.
  intro H. unfold item.
  destruct (Z.ltb_spec j 0); [lia|].
  destruct (Z.ltb_spec (j - Z.of_nat (length l1) - 1) 0); [lia|].
  rewrite nth_error_app2 by lia.
  replace (Z.to_nat j - length l1)%nat
    with (S (Z.to_nat (j - Z.of_nat (length l1) - 1))) by lia.
  reflexivity.
Qed.

Lemma two_split (i j : Z) (x y : GameTile) (l : list GameTile) :
  item i l = Some x -> item j l = Some y -> i < j ->
  exists l1 l2 l3, l = l1 ++ x :: l2 ++ y :: l3 /\
    Z.of_nat (length l1) = i /\ Z.of_nat (length (l1 ++ x :: l2)) = j.
Proof.
  intros Hi Hj Hlt.
  destruct (item_split _ _ _ Hi) as [l1 [rest [-> Hl1]]].
  rewrite item_app_tail in Hj by lia.
  destruct (item_split _ _ _ Hj) as [l2 [l3 [-> Hl2]]].
  exists l1, l2, l3. repeat split; [assumption|].
  rewrite length_app. simpl. lia.
Qed.

Lemma length_exchange (x y : GameTile) (l1 l2 l3 : list GameTile) :
  length (l1 ++ y :: l2 ++ x :: l3) = length (l1 ++ x :: l2 ++ y :: l3).
Proof. rewrite !length_app. simpl. rewrite !length_app. reflexivity. Qed.

Lemma In_exchange (u x y : GameTile) (l1 l2 l3 : list GameTile) :
  In u (l1 ++ y :: l2 ++ x :: l3) <-> In u (l1 ++ x :: l2 ++ y :: l3).
Proof. split; intro H; in_list. Qed.

(** What [#swapTiles] does to a board on which every tile occurs once: the
    two tiles change places and every other tile stays. *)
Lemma swapTiles_exchanges (a : GameArena) (i j : Z) (t1 t2 : GameTile) :
  NoDup (elemTiles a) ->
  item i (elemTiles a) = Some t1 -> item j (elemTiles a) = Some t2 ->
  i <> j ->
  exists l', swapTiles t1 t2 a = (setElemTiles l' a, Ok tt) /\
    NoDup l' /\ length l' = length (elemTiles a) /\
    indexOf t1 l' = j /\ indexOf t2 l' = i /\
    (forall u, u <> t1 -> u <> t2 -> indexOf u l' = indexOf u (elemTiles a)) /\
    (forall u, In u l' <-> In u (elemTiles a)).
Proof.
  intros Hnd Hi Hj Hne.
  destruct (Z.lt_total i j) as [Hlt|[Heq|Hgt]]; [|contradiction|].
  - destruct (two_split _ _ _ _ _ Hi Hj Hlt) as [l1 [l2 [l3 [El [H1 H2]]]]].
    exists (l1 ++ t2 :: l2 ++ t1 :: l3).
    rewrite (swapTiles_earlier_later a t1 t2 l1 l2 l3 El Hnd).
    rewrite El in *.
    pose proof (NoDup_exchange _ _ _ _ _ Hnd) as Hnd'.
    destruct (NoDup_two _ _ _ _ _ Hnd') as [Hxy [Hx [Hy _]]].
    repeat split.
    + assumption.
    + apply length_exchange.
    + replace (l1 ++ t2 :: l2 ++ t1 :: l3) with ((l1 ++ t2 :: l2) ++ t1 :: l3)
        by now rewrite <- app_assoc.
      rewrite indexOf_app_mid by in_list.
      rewrite <- H2. rewrite !length_app. reflexivity.
    + rewrite indexOf_app_mid by in_list. assumption.
    + intros u Hu1 Hu2. now apply indexOf_exchange.
    + apply In_exchange.
    + apply In_exchange.
  - destruct (two_split _ _ _ _ _ Hj Hi Hgt) as [l1 [l2 [l3 [El [H1 H2]]]]].
    exists (l1 ++ t1 :: l2 ++ t2 :: l3).
    rewrite (swapTiles_later_earlier a t2 t1 l1 l2 l3 El Hnd).
    rewrite El in *.
    pose proof (NoDup_exchange _ _ _ _ _ Hnd) as Hnd'.
    destruct (NoDup_two _ _ _ _ _ Hnd') as [Hxy [Hx [Hy _]]].
    repeat split.
    + assumption.
    + apply length_exchange.
    + rewrite indexOf_app_mid by in_list. assumption.
    + replace (l1 ++ t1 :: l2 ++ t2 :: l3) with ((l1 ++ t1 :: l2) ++ t2 :: l3)
        by now rewrite <- app_assoc.
      rewrite indexOf_app_mid by in_list.
      rewrite <- H2. rewrite !length_app. reflexivity.
    + intros u Hu1 Hu2. now apply indexOf_exchange.
    + apply In_exchange.
    + apply In_exchange.
Qed.

(** ** Document order *)

Lemma In_insertByIndex (tiles : list GameTile) (t x : GameTile)
    (l : list GameTile) :
  In x (insertByIndex tiles t l) <-> x = t \/ In x l.
Proof.
  induction l as [|u l IH]; simpl.
  - intuition congruence.
  - destruct (indexOf t tiles <=? indexOf u tiles); simpl.
    + intuition congruence.
    + rewrite IH. intuition congruence.
Qed.

Lemma In_sortByIndex (tiles l : list GameTile) (x : GameTile) :
  In x (sortByIndex tiles l) <-> In x l.
Proof.
  unfold sortByIndex. induction l as [|t l IH]; simpl; [tauto|].
  rewrite In_insertByIndex, IH. intuition congruence.
Qed.

Lemma Forall_sortByIndex (P : GameTile -> Prop) (tiles l : list GameTile) :
  Forall P l -> Forall P (sortByIndex tiles l).
Proof.
  rewrite !Forall_forall. intros H x Hx. apply H.
  now apply (proj1 (In_sortByIndex tiles l x)).
Qed.









(** ** Well-formed boards *)

Lemma distinct_NoDup (l : list GameTile) : distinct l = true <-> NoDup l.
Proof.
  induction l as [|x l IH]; simpl.
  - split; [constructor | reflexivity].
  - rewrite andb_true_iff, negb_true_iff, existsb_sameTile_false, IH.
    split.
    + intros [H1 H2]. now constructor.
    + intro H. inversion H; subst. now split.
Qed.

Section Walks.

Variables rows cols : Z.
Variable typeOf : GameTile -> Z.

Lemma wellFormed_elim (a : GameArena) :
  wellFormed rows cols a = true ->
  0 < cols /\ Z.of_nat (length (elemTiles a)) = rows * cols /\
  NoDup (elemTiles a).
Proof.
  unfold wellFormed. rewrite !andb_true_iff, distinct_NoDup.
  intros [[H1 H2] H3]. repeat split; [lia | lia | assumption].
Qed.

Lemma wellFormed_intro (a : GameArena) :
  0 < cols -> Z.of_nat (length (elemTiles a)) = rows * cols ->
  NoDup (elemTiles a) -> wellFormed rows cols a = true.
Proof.
  intros H1 H2 H3. unfold wellFormed.
  rewrite !andb_true_iff, distinct_NoDup. repeat split; [lia | lia | assumption].
Qed.

(** *** Index arithmetic of one step *)

Lemma step_left (idx : Z) :
  0 < cols -> 0 <= idx < rows * cols ->
  BoardWalker.detectEdgeLeft cols idx = false ->
  0 <= idx - 1 < rows * cols /\ rowOf cols (idx - 1) = rowOf cols idx.
Proof.
  intros Hc Hi He. unfold BoardWalker.detectEdgeLeft in He.
  apply Z.eqb_neq in He. rewrite Z.rem_mod_nonneg in He by lia.
  pose proof (Z.div_mod idx cols ltac:(lia)) as Hdm.
  pose proof (Z.mod_pos_bound idx cols Hc) as Hb.
  pose proof (Z.div_pos idx cols ltac:(lia) Hc) as Hq.
  split; [nia|]. unfold rowOf. symmetry.
  apply Z.div_unique with (r := idx mod cols - 1); lia.
Qed.

Lemma step_right (idx : Z) :
  0 < cols -> 0 <= idx < rows * cols ->
  BoardWalker.detectEdgeRight cols idx = false ->
  0 <= idx + 1 < rows * cols /\ rowOf cols (idx + 1) = rowOf cols idx.
Proof.
  intros Hc Hi He. unfold BoardWalker.detectEdgeRight in He.
  apply Z.eqb_neq in He. rewrite Z.rem_mod_nonneg in He by lia.
  pose proof (Z.div_mod idx cols ltac:(lia)) as Hdm.
  pose proof (Z.mod_pos_bound idx cols Hc) as Hb.
  assert (Hr : idx mod cols + 1 < cols).
  { destruct (Z.eq_dec (idx mod cols + 1) cols) as [E|]; [|lia].
    exfalso. apply He.
    replace (idx + 1) with (0 + (idx / cols + 1) * cols) by nia.
    rewrite Z.mod_add by lia. now apply Z.mod_0_l; lia. }
  split.
  - split; [lia|].
    destruct (Z.eq_dec (idx + 1) (rows * cols)) as [E|]; [|lia].
    exfalso. apply He. rewrite E. apply Z.mod_mul. lia.
  - unfold rowOf. symmetry.
    apply Z.div_unique with (r := idx mod cols + 1); lia.
Qed.

Lemma step_up (idx : Z) :
  0 < cols -> 0 <= idx < rows * cols ->
  BoardWalker.detectEdgeUp cols idx = false ->
  0 <= idx - cols < rows * cols /\ colOf cols (idx - cols) = colOf cols idx.
Proof.
  intros Hc Hi He. unfold BoardWalker.detectEdgeUp in He.
  apply Z.eqb_neq in He.
  pose proof (Z.div_mod idx cols ltac:(lia)) as Hdm.
  pose proof (Z.mod_pos_bound idx cols Hc) as Hb.
  pose proof (Z.div_pos idx cols ltac:(lia) Hc) as Hq.
  split; [nia|]. unfold colOf.
  replace (idx - cols) with (idx + (-1) * cols) by lia.
  apply Z.mod_add. lia.
Qed.

Lemma step_down (idx : Z) :
  0 < cols -> 0 <= idx < rows * cols ->
  BoardWalker.detectEdgeDown rows cols idx = false ->
  0 <= idx + cols < rows * cols /\ colOf cols (idx + cols) = colOf cols idx.
Proof.
  intros Hc Hi He. unfold BoardWalker.detectEdgeDown in He.
  apply Z.eqb_neq in He.
  pose proof (Z.div_mod idx cols ltac:(lia)) as Hdm.
  pose proof (Z.mod_pos_bound idx cols Hc) as Hb.
  assert (Hq : idx / cols < rows)
    by (apply Z.div_lt_upper_bound; lia).
  split; [nia|]. unfold colOf.
  replace (idx + cols) with (idx + 1 * cols) by lia.
  apply Z.mod_add. lia.
Qed.

Lemma step_inside (dir : direction) (idx : Z) :
  0 < cols -> 0 <= idx < rows * cols ->
  fst (matchSeekHelpersMap rows cols dir) idx = false ->
  snd (matchSeekHelpersMap rows cols dir) idx = idx + delta cols dir /\
  0 <= idx + delta cols dir < rows * cols /\
  sameLine cols dir idx (idx + delta cols dir).
Proof.
  intros Hc Hi He. destruct dir; simpl in *.
  - destruct (step_left idx Hc Hi He) as [H1 H2].
    unfold BoardWalker.getIndexToLeft.
    replace (idx + -1) with (idx - 1) by lia. repeat split; lia.
  - destruct (step_up idx Hc Hi He) as [H1 H2].
    unfold BoardWalker.getIndexToUp.
    replace (idx + - cols) with (idx - cols) by lia. repeat split; lia.
  - destruct (step_right idx Hc Hi He) as [H1 H2].
    unfold BoardWalker.getIndexToRight. repeat split; lia.
  - destruct (step_down idx Hc Hi He) as [H1 H2].
    unfold BoardWalker.getIndexToDown. repeat split; lia.
Qed.

Lemma sameLine_trans (dir : direction) (i j k : Z) :
  sameLine cols dir i j -> sameLine cols dir j k -> sameLine cols dir i k.
Proof. destruct dir; simpl; intros [H1 H2] [H3 H4]; split; lia. Qed.

(** *** The shape of a walk *)

Lemma stepsLeft_step (dir : direction) (idx : Z) :
  0 < cols -> 0 <= idx < rows * cols ->
  0 <= idx + delta cols dir < rows * cols ->
  sameLine cols dir idx (idx + delta cols dir) ->
  (stepsLeft rows cols dir (idx + delta cols dir) < stepsLeft rows cols dir idx)%nat.
Proof. destruct dir; simpl; intros; lia. Qed.

Lemma stepsLeft_bound (dir : direction) (idx : Z) :
  0 <= idx < rows * cols -> (stepsLeft rows cols dir idx < Z.to_nat (rows * cols))%nat.
Proof. destruct dir; simpl; intros; lia. Qed.

(** A walk that has fuel for the steps left to the edge ends without an
    exception; the tiles it yields sit on the consecutive indices from its
    start, all of them in the line of the start and inside the board, and
    every one passes [#isInMatch]. *)
Lemma seekInDirection_run (a : GameArena) (dir : direction) (ty : Z) :
  wellFormed rows cols a = true ->
  forall (fuel : nat) (idx : Z),
    0 <= idx < rows * cols ->
    (stepsLeft rows cols dir idx < fuel)%nat ->
    exists run,
      seekInDirection rows cols typeOf fuel a dir ty idx = Ok run /\
      walkedFrom rows cols typeOf a dir ty idx run.
Proof.
  intro Hwf. destruct (wellFormed_elim a Hwf) as [Hc [Hlen Hnd]].
  induction fuel as [|fuel IH]; intros idx Hi Hf; [lia|].
  simpl seekInDirection.
  destruct (matchSeekHelpersMap rows cols dir) as [edge step] eqn:Eh.
  destruct (edge idx) eqn:Ee.
  - exists []. unfold walkedFrom. repeat split; constructor.
  - pose proof (step_inside dir idx Hc Hi) as Hs.
    rewrite Eh in Hs. simpl in Hs. destruct (Hs Ee) as [Es [Hr Hl]].
    rewrite Es.
    destruct (item_range (idx + delta cols dir) (elemTiles a) ltac:(lia))
      as [t Ht].
    rewrite Ht. destruct (isInMatch typeOf a t ty) eqn:Em.
    + pose proof (stepsLeft_step dir idx Hc Hi Hr Hl) as Hm.
      destruct (IH (idx + delta cols dir) Hr ltac:(lia))
        as [run [Er [Hp [Hv Hline]]]].
      rewrite Er. simpl. exists (t :: run). unfold walkedFrom. repeat split.
      * simpl. now rewrite Ht, Hp.
      * now constructor.
      * simpl. constructor; [now split|].
        eapply Forall_impl; [|exact Hline].
        intros j [Hj1 Hj2]. split; [|assumption].
        eapply sameLine_trans; eassumption.
    + exists []. unfold walkedFrom. repeat split; constructor.
Qed.

(** The fuel [#seekInDirection] is given is enough. *)
Lemma seekInDirection_fuel (a : GameArena) (dir : direction) (idx : Z) :
  wellFormed rows cols a = true ->
  0 <= idx < rows * cols ->
  (stepsLeft rows cols dir idx < seekFuel a)%nat.
Proof.
  intros Hwf Hi. destruct (wellFormed_elim a Hwf) as [Hc [Hlen Hnd]].
  pose proof (stepsLeft_bound dir idx Hi). unfold seekFuel. lia.
Qed.

Lemma walkFrom_nth (d : Z) (n : nat) :
  forall (idx : Z) (k : nat), (k < n)%nat ->
  nth_error (walkFrom d idx n) k = Some (idx + Z.of_nat (S k) * d).
Proof.
  induction n as [|n IH]; intros idx k Hk; [lia|].
  destruct k as [|k]; simpl walkFrom; simpl nth_error.
  - f_equal. lia.
  - rewrite IH by lia. f_equal. lia.
Qed.

Lemma walkFrom_length (d idx : Z) (n : nat) : length (walkFrom d idx n) = n.
Proof. revert idx. induction n; intro idx; simpl; congruence. Qed.

(** The tiles of a walk, read back as indices, are the indices walked. *)
Lemma walk_indices (tiles : list GameTile) (js : list Z) :
  NoDup tiles ->
  forall run, map (fun j => item j tiles) js = map Some run ->
  map (fun t => indexOf t tiles) run = js /\ Forall (fun t => In t tiles) run.
Proof.
  intro Hnd. induction js as [|j js IH]; intros [|t run] H; simpl in H;
    try discriminate.
  - split; constructor.
  - injection H as Ht Hrest. destruct (IH run Hrest) as [H1 H2].
    split.
    + simpl. rewrite H1. f_equal. now apply indexOf_item.
    + constructor; [eapply item_In; eassumption | assumption].
Qed.

Lemma walk_nth (tiles : list GameTile) (js : list Z) (run : list GameTile)
    (k : nat) (j : Z) (h : GameTile) :
  map (fun j => item j tiles) js = map Some run ->
  nth_error js k = Some j -> item j tiles = Some h ->
  nth_error run k = Some h.
Proof.
  intros Hm Hj Hh.
  pose proof (map_nth_error (fun j => item j tiles) k js Hj) as H1.
  rewrite Hm, nth_error_map in H1.
  destruct (nth_error run k); simpl in H1; congruence.
Qed.

Lemma isInMatch_visible (a : GameArena) (t : GameTile) (ty : Z) :
  isInMatch typeOf a t ty = true -> isHidden a t = false /\ typeOf t = ty.
Proof.
  unfold isInMatch. rewrite andb_true_iff, negb_true_iff, Z.eqb_eq. tauto.
Qed.

(** A hidden tile on the way bounds every walk. *)
Lemma walkedFrom_stops_at_hidden (a : GameArena) (dir : direction)
    (ty idx : Z) (run : list GameTile) (k : nat) (h : GameTile) :
  walkedFrom rows cols typeOf a dir ty idx run ->
  item (idx + Z.of_nat (S k) * delta cols dir) (elemTiles a) = Some h ->
  isHidden a h = true ->
  (length run <= k)%nat.
Proof.
  intros [Hp [Hv _]] Hh Hhid.
  destruct (Nat.le_gt_cases (length run) k) as [|Hlt]; [assumption|exfalso].
  pose proof (walkFrom_nth (delta cols dir) (length run) idx k Hlt) as Hn.
  pose proof (walk_nth _ _ _ _ _ _ Hp Hn Hh) as Hr.
  apply nth_error_In in Hr. rewrite Forall_forall in Hv.
  destruct (isInMatch_visible _ _ _ (Hv _ Hr)). congruence.
Qed.

Lemma walkedFrom_positions (a : GameArena) (dir : direction)
    (ty idx : Z) (run : list GameTile) :
  NoDup (elemTiles a) ->
  walkedFrom rows cols typeOf a dir ty idx run ->
  map (fun t => indexOf t (elemTiles a)) run
    = walkFrom (delta cols dir) idx (length run) /\
  Forall (fun t => In t (elemTiles a) /\
                   sameLine cols dir idx (indexOf t (elemTiles a)) /\
                   0 <= indexOf t (elemTiles a) < rows * cols) run.
Proof.
  intros Hnd [Hp [Hv Hl]].
  destruct (walk_indices _ _ Hnd _ Hp) as [Hi Hin]. split; [assumption|].
  rewrite <- Hi in Hl. rewrite Forall_map in Hl.
  rewrite Forall_forall in *. intros t Ht. split; [auto|]. now apply Hl.
Qed.

(** ** Detection around a tile *)

Lemma obtainDirectionalMatchInfo_ok (a : GameArena) (t : GameTile) :
  wellFormed rows cols a = true -> In t (elemTiles a) ->
  exists m, obtainDirectionalMatchInfo rows cols typeOf a t = Ok m /\
    forall dir, walkedFrom rows cols typeOf a dir (typeOf t)
                  (indexOf t (elemTiles a)) (onDirection m dir).
Proof.
  intros Hwf Hin. destruct (wellFormed_elim a Hwf) as [Hc [Hlen Hnd]].
  assert (Hi : 0 <= indexOf t (elemTiles a) < rows * cols)
    by (rewrite <- Hlen; now apply indexOf_In).
  unfold obtainDirectionalMatchInfo.
  destruct (seekInDirection_run a DLeft (typeOf t) Hwf (seekFuel a) _ Hi
              (seekInDirection_fuel a DLeft _ Hwf Hi)) as [l [El Hl]].
  destruct (seekInDirection_run a DUp (typeOf t) Hwf (seekFuel a) _ Hi
              (seekInDirection_fuel a DUp _ Hwf Hi)) as [u [Eu Hu]].
  destruct (seekInDirection_run a DRight (typeOf t) Hwf (seekFuel a) _ Hi
              (seekInDirection_fuel a DRight _ Hwf Hi)) as [r [Er Hr]].
  destruct (seekInDirection_run a DDown (typeOf t) Hwf (seekFuel a) _ Hi
              (seekInDirection_fuel a DDown _ Hwf Hi)) as [d [Ed Hd]].
  rewrite El, Eu, Er, Ed. simpl. exists (mkDirectional l u r d).
  split; [reflexivity|]. intros []; assumption.
Qed.


Lemma runInDocumentOrder_Some (tiles : list GameTile)
    (axis : option (list GameTile)) (xs : list GameTile) :
  runInDocumentOrder tiles axis = Some xs ->
  exists l, axis = Some l /\ xs = sortByIndex tiles l /\ (3 <= length l)%nat.
Proof.
  unfold runInDocumentOrder. destruct axis as [l|]; [|discriminate].
  destruct (Nat.leb_spec 3 (length l)) as [Hl|Hl]; [|discriminate].
  intro E. injection E as <-. eauto.
Qed.

(** [#detectMatchXY] on a well-formed board returns, and the axes of its
    MatchInfo are made of the four walks: an axis holds, in document order,
    the two walks of its line and the tile between them, three tiles at
    least. *)
Lemma detectMatchXY_ok (a : GameArena) (t : GameTile) :
  wellFormed rows cols a = true -> In t (elemTiles a) ->
  exists m r,
    obtainDirectionalMatchInfo rows cols typeOf a t = Ok m /\
    detectMatchXY rows cols typeOf a t = Ok r /\
    (forall dir, walkedFrom rows cols typeOf a dir (typeOf t)
                   (indexOf t (elemTiles a)) (onDirection m dir)) /\
    forall mi, r = Some mi ->
      (forall xs, alongX mi = Some xs ->
         xs = sortByIndex (elemTiles a) (onLeft m ++ t :: onRight m) /\
         (3 <= length (onLeft m ++ t :: onRight m))%nat) /\
      (forall ys, alongY mi = Some ys ->
         ys = sortByIndex (elemTiles a) (onUp m ++ t :: onDown m) /\
         (3 <= length (onUp m ++ t :: onDown m))%nat).
Proof.
  intros Hwf Hin.
  destruct (obtainDirectionalMatchInfo_ok a t Hwf Hin) as [m [Em Hm]].
  unfold detectMatchXY. rewrite Em. simpl rbind.
  eexists m, _. split; [reflexivity|]. split; [reflexivity|].
  split; [assumption|].
  intros mi Hmi.
  destruct (lengthAtLeast 3 _ || lengthAtLeast 3 _); [|discriminate].
  injection Hmi as <-. simpl. split.
  - intros xs Hxs. apply runInDocumentOrder_Some in Hxs.
    destruct Hxs as [l [El [-> Hl]]]. unfold matchX in El.
    destruct (_ || _); [|discriminate]. injection El as <-. now split.
  - intros ys Hys. apply runInDocumentOrder_Some in Hys.
    destruct Hys as [l [El [-> Hl]]]. unfold matchY in El.
    destruct (_ || _); [|discriminate]. injection El as <-. now split.
Qed.

(** ** The claims about detection *)

(** C7: on every board and from every position, a directional walk of the
    match detection never crosses a grid edge.  The walk returns; every tile
    it yields lies in the row of the start (left, right) or in its column
    (up, down), on the side walked to; from column 0 the walk to the left
    yields nothing.  So the axes [#detectMatchXY] reports around a tile stay
    in the row and in the column of that tile.  (The edge tests are those of
    the board walker as the spec gives them.) *)
Theorem C7_walk_never_crosses_edge (a : GameArena) :
  wellFormed rows cols a = true ->
  (forall dir ty idx, 0 <= idx < rows * cols ->
     exists run,
       seekInDirection rows cols typeOf (seekFuel a) a dir ty idx = Ok run /\
       Forall (fun u => sameLine cols dir idx (indexOf u (elemTiles a)) /\
                        0 <= indexOf u (elemTiles a) < rows * cols) run /\
       (dir = DLeft -> colOf cols idx = 0 -> run = [])) /\
  (forall t, In t (elemTiles a) ->
     exists r, detectMatchXY rows cols typeOf a t = Ok r /\
       forall mi, r = Some mi ->
         Forall (fun u => rowOf cols (indexOf u (elemTiles a))
                          = rowOf cols (indexOf t (elemTiles a)))
                (axisTiles (alongX mi)) /\
         Forall (fun u => colOf cols (indexOf u (elemTiles a))
                          = colOf cols (indexOf t (elemTiles a)))
                (axisTiles (alongY mi))).
Proof.
  intro Hwf. destruct (wellFormed_elim a Hwf) as [Hc [Hlen Hnd]]. split.
  - intros dir ty idx Hi.
    destruct (seekInDirection_run a dir ty Hwf (seekFuel a) idx Hi
                (seekInDirection_fuel a dir idx Hwf Hi)) as [run [Er Hrun]].
    exists run. split; [assumption|].
    destruct (walkedFrom_positions a dir ty idx run Hnd Hrun) as [_ Hf].
    split.
    + eapply Forall_impl; [|exact Hf]. simpl. tauto.
    + intros -> Hcol. unfold seekFuel in Er. simpl in Er.
      unfold BoardWalker.detectEdgeLeft in Er.
      rewrite Z.rem_mod_nonneg in Er by lia.
      unfold colOf in Hcol. rewrite Hcol in Er. simpl in Er. congruence.
  - intros t Hin.
    destruct (detectMatchXY_ok a t Hwf Hin) as [m [r [_ [Er [Hm Hax]]]]].
    exists r. split; [assumption|]. intros mi Hmi.
    destruct (Hax mi Hmi) as [Hx Hy].
    destruct (walkedFrom_positions a DLeft _ _ _ Hnd (Hm DLeft)) as [_ Hl].
    destruct (walkedFrom_positions a DRight _ _ _ Hnd (Hm DRight)) as [_ Hr].
    destruct (walkedFrom_positions a DUp _ _ _ Hnd (Hm DUp)) as [_ Hu].
    destruct (walkedFrom_positions a DDown _ _ _ Hnd (Hm DDown)) as [_ Hd].
    simpl in Hl, Hr, Hu, Hd. split.
    + destruct (alongX mi) as [xs|]; [|constructor]. simpl.
      destruct (Hx xs eq_refl) as [-> _].
      apply Forall_sortByIndex, Forall_app. split.
      * eapply Forall_impl; [|exact Hl]. simpl. tauto.
      * constructor; [reflexivity|].
        eapply Forall_impl; [|exact Hr]. simpl. tauto.
    + destruct (alongY mi) as [ys|]; [|constructor]. simpl.
      destruct (Hy ys eq_refl) as [-> _].
      apply Forall_sortByIndex, Forall_app. split.
      * eapply Forall_impl; [|exact Hu]. simpl. tauto.
      * constructor; [reflexivity|].
        eapply Forall_impl; [|exact Hd]. simpl. tauto.
Qed.

(** C8: in every directional walk the first hidden tile ends the run and is
    not part of it, whatever lies beyond it: no tile of a run is hidden, and
    a hidden tile [k+1] steps from the start leaves the run at most [k]
    tiles. *)
Theorem C8_hidden_tile_ends_run (a : GameArena) (dir : direction)
    (ty idx : Z) :
  wellFormed rows cols a = true ->
  0 <= idx < rows * cols ->
  exists run,
    seekInDirection rows cols typeOf (seekFuel a) a dir ty idx = Ok run /\
    Forall (fun u => isHidden a u = false) run /\
    forall (k : nat) (h : GameTile),
      item (idx + Z.of_nat (S k) * delta cols dir) (elemTiles a) = Some h ->
      isHidden a h = true ->
      (length run <= k)%nat.
Proof.
  intros Hwf Hi.
  destruct (seekInDirection_run a dir ty Hwf (seekFuel a) idx Hi
              (seekInDirection_fuel a dir idx Hwf Hi)) as [run [Er Hrun]].
  exists run. split; [assumption|]. split.
  - destruct Hrun as [_ [Hv _]]. eapply Forall_impl; [|exact Hv].
    intros u Hu. now destruct (isInMatch_visible a u ty Hu).
  - intros k h Hh Hhid.
    eapply walkedFrom_stops_at_hidden; eassumption.
Qed.


End Walks.

(** C7 on the board of the scenario. *)
Lemma C7_witness :
  (forall dir ty idx, 0 <= idx < 7 * 7 ->
     exists run,
       seekInDirection 7 7 scenarioTypes (seekFuel scenarioBoard)
         scenarioBoard dir ty idx = Ok run /\
       Forall (fun u =>
                 sameLine 7 dir idx (indexOf u (elemTiles scenarioBoard)) /\
                 0 <= indexOf u (elemTiles scenarioBoard) < 7 * 7) run /\
       (dir = DLeft -> colOf 7 idx = 0 -> run = [])) /\
  (forall t, In t (elemTiles scenarioBoard) ->
     exists r, detectMatchXY 7 7 scenarioTypes scenarioBoard t = Ok r /\
       forall mi, r = Some mi ->
         Forall (fun u => rowOf 7 (indexOf u (elemTiles scenarioBoard))
                          = rowOf 7 (indexOf t (elemTiles scenarioBoard)))
                (axisTiles (alongX mi)) /\
         Forall (fun u => colOf 7 (indexOf u (elemTiles scenarioBoard))
                          = colOf 7 (indexOf t (elemTiles scenarioBoard)))
                (axisTiles (alongY mi))).
Proof.
  apply (C7_walk_never_crosses_edge 7 7 scenarioTypes scenarioBoard).
  reflexivity.
Defined.

(** C8 on [gapBoard], walking left from index 24 towards the hidden tile on
    index 23. *)
Lemma C8_witness :
  exists run,
    seekInDirection 7 7 scenarioTypes (seekFuel gapBoard) gapBoard DLeft 1 24
      = Ok run /\
    Forall (fun u => isHidden gapBoard u = false) run /\
    forall (k : nat) (h : GameTile),
      item (24 + Z.of_nat (S k) * delta 7 DLeft) (elemTiles gapBoard)
        = Some h ->
      isHidden gapBoard h = true ->
      (length run <= k)%nat.
Proof.
  apply (C8_hidden_tile_ends_run 7 7 scenarioTypes gapBoard DLeft 1 24).
  - reflexivity.
  - lia.
Defined.

(** ** Bubbling *)

Section Bubbling.

Variables rows cols : Z.

Lemma isHidden_same (a a' : GameArena) (t : GameTile) :
  hiddenTiles a' = hiddenTiles a -> isHidden a' t = isHidden a t.
Proof. unfold isHidden. now intros ->. Qed.

(** The two ways the callback of the bubbling pass can go. *)
Lemma bubbleTile_cases (a : GameArena) (fr : list GameTile) (t : GameTile) :
  wellFormed rows cols a = true -> In t (elemTiles a) ->
  (bubbleTile cols fr t a = (a, Ok (detach t fr)) /\
   (BoardWalker.detectEdgeUp cols (indexOf t (elemTiles a)) = true \/
    exists h, item (indexOf t (elemTiles a) - cols) (elemTiles a) = Some h /\
              isHidden a h = true)) \/
  (exists f l',
     BoardWalker.detectEdgeUp cols (indexOf t (elemTiles a)) = false /\
     item (indexOf t (elemTiles a) - cols) (elemTiles a) = Some f /\
     isHidden a f = false /\
     bubbleTile cols fr t a = (setElemTiles l' a, Ok fr) /\
     NoDup l' /\ length l' = length (elemTiles a) /\
     indexOf t l' = indexOf t (elemTiles a) - cols /\
     indexOf f l' = indexOf t (elemTiles a) /\
     (forall u, u <> t -> u <> f -> indexOf u l' = indexOf u (elemTiles a)) /\
     (forall u, In u l' <-> In u (elemTiles a))).
Proof.
  intros Hwf Hin. destruct (wellFormed_elim rows cols a Hwf) as [Hc [Hlen Hnd]].
  assert (Hi : 0 <= indexOf t (elemTiles a) < rows * cols)
    by (rewrite <- Hlen; now apply indexOf_In).
  unfold bubbleTile, bind, read, ret, tryGetFallingTile.
  destruct (BoardWalker.detectEdgeUp cols (indexOf t (elemTiles a))) eqn:Ee.
  - left. split; [reflexivity | now left].
  - destruct (step_up rows cols _ Hc Hi Ee) as [Hr _].
    unfold BoardWalker.getIndexToUp.
    destruct (item_range (indexOf t (elemTiles a) - cols) (elemTiles a)
                ltac:(lia)) as [f Hf].
    rewrite Hf. destruct (isHidden a f) eqn:Eh.
    + left. split; [reflexivity|]. right. eauto.
    + right.
      destruct (swapTiles_exchanges a (indexOf t (elemTiles a))
                  (indexOf t (elemTiles a) - cols) t f Hnd
                  (item_indexOf t _ Hin) Hf ltac:(lia))
        as [l' [Es [H1 [H2 [H3 [H4 [H5 H6]]]]]]].
      exists f, l'. rewrite Es. repeat split; try assumption; apply H6; assumption.
Qed.

Lemma NoDup_detach_incl (t : GameTile) (l : list GameTile) :
  incl (detach t l) l.
Proof. intros u Hu. now apply In_detach in Hu. Qed.

(** One pass over the working set.  Before the pass every entry is a hidden
    tile of the board in one of the rows [0..k]; the entries already visited
    are in the rows [0..k-1].  After the pass every entry that is left is in
    the rows [0..k-1]. *)
Lemma forEachBubbling_pass (k : Z) :
  forall (entries : list GameTile) (a : GameArena) (fr : list GameTile),
    wellFormed rows cols a = true ->
    NoDup entries -> NoDup fr -> incl entries fr ->
    (forall u, In u fr ->
       In u (elemTiles a) /\ isHidden a u = true /\
       indexOf u (elemTiles a) < (k + 1) * cols) ->
    (forall u, In u fr -> ~ In u entries ->
       indexOf u (elemTiles a) < k * cols) ->
    exists a' fr',
      forEachBubbling cols entries fr a = (a', Ok fr') /\
      wellFormed rows cols a' = true /\
      hiddenTiles a' = hiddenTiles a /\
      NoDup fr' /\ incl fr' fr /\
      (forall u, In u fr' ->
         In u (elemTiles a') /\ isHidden a' u = true /\
         indexOf u (elemTiles a') < k * cols).
Proof.
  induction entries as [|t rest IH]; intros a fr Hwf Hnde Hndf Hincl Hall Hdone.
  - exists a, fr. simpl. unfold ret. repeat split; try assumption.
    + apply incl_refl.
    + now apply Hall.
    + now apply Hall.
    + apply Hdone; [assumption | intros []].
  - inversion Hnde as [|? ? Htr Hndr]; subst.
    assert (Htf : In t fr) by (apply Hincl; now left).
    destruct (Hall t Htf) as [Htin [Hthid Htidx]].
    destruct (wellFormed_elim rows cols a Hwf) as [Hc [Hlen Hnd]].
    simpl forEachBubbling. unfold bind at 1.
    destruct (bubbleTile_cases a fr t Hwf Htin)
      as [[Eb _] | [f [l' [Ee [Hf [Hfv [Eb [Hnd' [Hlen' [Ht' [Hf' [Hoth Hin']]]]]]]]]]]];
      rewrite Eb.
    + destruct (IH a (detach t fr) Hwf Hndr (NoDup_detach t fr Hndf))
        as [a' [fr' [Ef [Hwf' [Hh' [Hnd' [Hi' Hall']]]]]]].
      * intros u Hu. apply In_detach. split; [apply Hincl; now right|].
        intros ->. contradiction.
      * intros u Hu. apply In_detach in Hu. now apply Hall.
      * intros u Hu Hnr. apply In_detach in Hu. destruct Hu as [Hu Hne].
        apply Hdone; [assumption|]. intros [->|?]; [congruence | contradiction].
      * exists a', fr'. repeat split; try assumption; try (now apply Hall').
        intros u Hu. eapply NoDup_detach_incl. now apply Hi'.
    + assert (Hwf1 : wellFormed rows cols (setElemTiles l' a) = true).
      { apply wellFormed_intro; simpl; [assumption | lia | assumption]. }
      destruct (IH (setElemTiles l' a) fr Hwf1 Hndr Hndf)
        as [a' [fr' [Ef [Hwf' [Hh' [Hnd'' [Hi' Hall']]]]]]].
      * intros u Hu. apply Hincl. now right.
      * intros u Hu. destruct (Hall u Hu) as [Hu1 [Hu2 Hu3]].
        simpl elemTiles. split; [now apply Hin'|]. split; [exact Hu2|].
        destruct (Nat.eq_dec u t) as [->|Hut]; [lia|].
        rewrite Hoth; [assumption | assumption | congruence].
      * intros u Hu Hnr. simpl elemTiles.
        destruct (Nat.eq_dec u t) as [->|Hut]; [lia|].
        destruct (Hall u Hu) as [Hu1 [Hu2 Hu3]].
        rewrite Hoth; [|assumption|congruence].
        apply Hdone; [assumption|]. intros [?|?]; [congruence | contradiction].
      * exists a', fr'. repeat split; try assumption; try (now apply Hall').
Qed.

Lemma bubbleLoop_pass (k : nat) (t : GameTile) (fr : list GameTile)
    (a : GameArena) :
  bubbleLoop cols (S k) (t :: fr) a
  = bind (forEachBubbling cols (t :: fr) (t :: fr)) (bubbleLoop cols k) a.
Proof. reflexivity. Qed.

(** [k] passes empty a working set of hidden tiles that are all in the rows
    [0..k-1]. *)
Lemma bubbleLoop_terminates :
  forall (k : nat) (a : GameArena) (fr : list GameTile),
    wellFormed rows cols a = true -> NoDup fr ->
    (forall u, In u fr ->
       In u (elemTiles a) /\ isHidden a u = true /\
       indexOf u (elemTiles a) < Z.of_nat k * cols) ->
    exists a', bubbleLoop cols k fr a = (a', Ok tt) /\
               wellFormed rows cols a' = true /\
               hiddenTiles a' = hiddenTiles a.
Proof.
  induction k as [|k IH]; intros a fr Hwf Hnd Hall.
  - destruct fr as [|t fr].
    + exists a. repeat split; assumption.
    + exfalso. destruct (Hall t (or_introl eq_refl)) as [Hin [_ Hlt]].
      pose proof (indexOf_In t _ Hin). lia.
  - destruct fr as [|t fr]; [exists a; repeat split; assumption|].
    rewrite bubbleLoop_pass. unfold bind.
    destruct (forEachBubbling_pass (Z.of_nat k) (t :: fr) a (t :: fr) Hwf Hnd Hnd
                (incl_refl _))
      as [a1 [fr1 [Ef [Hwf1 [Hh1 [Hnd1 [_ Hall1]]]]]]].
    + intros u Hu. destruct (Hall u Hu) as [H1 [H2 H3]].
      repeat split; try assumption. lia.
    + intros u Hu Hn. contradiction.
    + rewrite Ef. destruct (IH a1 fr1 Hwf1 Hnd1 Hall1) as [a' [El [Hwf' Hh']]].
      exists a'. repeat split; [assumption | assumption | congruence].
Qed.

Lemma In_newSet (t : GameTile) (l : list GameTile) :
  In t (newSet l) <-> In t l.
Proof.
  induction l as [|x l IH]; simpl; [tauto|].
  rewrite In_detach, IH. destruct (Nat.eq_dec t x); intuition congruence.
Qed.

Lemma NoDup_newSet (l : list GameTile) : NoDup (newSet l).
Proof.
  induction l as [|x l IH]; simpl; constructor.
  - rewrite In_detach. tauto.
  - now apply NoDup_detach.
Qed.

(** ** The claims about bubbling *)

(** C1, as the code has it: the callback of the bubbling pass takes an entry
    out of the working set as soon as nothing can fall into it, that is when
    it is at the top edge or the tile directly above it is hidden; the board
    is left as it is.  Otherwise the tile above is visible: the entry stays
    in the working set and changes places with that tile, one row up. *)
Theorem C1_entry_removed_when_nothing_falls (a : GameArena)
    (fr : list GameTile) (t : GameTile) :
  wellFormed rows cols a = true -> In t (elemTiles a) ->
  exists a' fr',
    bubbleTile cols fr t a = (a', Ok fr') /\
    ((BoardWalker.detectEdgeUp cols (indexOf t (elemTiles a)) = true \/
      exists h,
        item (BoardWalker.getIndexToUp cols (indexOf t (elemTiles a)))
             (elemTiles a) = Some h /\ isHidden a h = true) ->
     a' = a /\ fr' = detach t fr /\ ~ In t fr') /\
    (BoardWalker.detectEdgeUp cols (indexOf t (elemTiles a)) = false ->
     forall f,
       item (BoardWalker.getIndexToUp cols (indexOf t (elemTiles a)))
            (elemTiles a) = Some f ->
       isHidden a f = false ->
       fr' = fr /\
       indexOf t (elemTiles a') = indexOf t (elemTiles a) - cols /\
       indexOf f (elemTiles a') = indexOf t (elemTiles a)).
Proof.
  intros Hwf Hin. unfold BoardWalker.getIndexToUp.
  destruct (bubbleTile_cases a fr t Hwf Hin)
    as [[Eb Hc] | [f [l' [Ee [Hf [Hfv [Eb [_ [_ [Ht' [Hf' _]]]]]]]]]]].
  - exists a, (detach t fr). split; [assumption|]. split.
    + intros _. repeat split. rewrite In_detach. tauto.
    + intros Ee f Hf Hv. destruct Hc as [Hc | [h [Hh Hhid]]]; congruence.
  - exists (setElemTiles l' a), fr. split; [assumption|]. split.
    + intros [Hc | [h [Hh Hhid]]]; congruence.
    + intros _ f0 Hf0 _. assert (f0 = f) by congruence. subst f0.
      repeat split; assumption.
Qed.

(** C6: bubbling terminates.  Every call of the callback either takes its
    entry out of the working set, the board unchanged, or keeps the working
    set and moves the entry exactly one row up in its column; and for every
    well-formed board and every combo of hidden tiles of the board,
    [#bubbleMatchToTopEdge] returns within [rows] passes of its loop. *)
Theorem C6_bubbling_terminates (a : GameArena) (matchFixture : ComboMatchInfo) :
  wellFormed rows cols a = true ->
  (forall t, In t (domSortedTiles matchFixture) ->
     In t (elemTiles a) /\ isHidden a t = true) ->
  (forall b fr t,
     wellFormed rows cols b = true -> In t (elemTiles b) ->
     exists b' fr',
       bubbleTile cols fr t b = (b', Ok fr') /\
       ((b' = b /\ fr' = detach t fr) \/
        (fr' = fr /\
         rowOf cols (indexOf t (elemTiles b'))
           = rowOf cols (indexOf t (elemTiles b)) - 1 /\
         colOf cols (indexOf t (elemTiles b'))
           = colOf cols (indexOf t (elemTiles b))))) /\
  exists a',
    bubbleMatchToTopEdge rows cols matchFixture a = (a', Ok tt) /\
    wellFormed rows cols a' = true /\
    hiddenTiles a' = hiddenTiles a.
Proof.
  intros Hwf Hall. split.
  - intros b fr t Hwfb Hin.
    destruct (wellFormed_elim rows cols b Hwfb) as [Hc _].
    destruct (bubbleTile_cases b fr t Hwfb Hin)
      as [[Eb _] | [f [l' [Ee [Hf [Hfv [Eb [_ [_ [Ht' _]]]]]]]]]].
    + exists b, (detach t fr). split; [assumption | now left].
    + exists (setElemTiles l' b), fr. split; [assumption|]. right.
      simpl elemTiles. rewrite Ht'. unfold rowOf, colOf.
      replace (indexOf t (elemTiles b) - cols)
        with (indexOf t (elemTiles b) + (-1) * cols) by lia.
      rewrite Z.div_add, Z.mod_add by lia. repeat split; lia.
  - destruct (wellFormed_elim rows cols a Hwf) as [Hc [Hlen Hnd]].
    unfold bubbleMatchToTopEdge.
    apply bubbleLoop_terminates; [assumption | apply NoDup_newSet |].
    intros u Hu. apply (proj1 (In_newSet u _)) in Hu.
    destruct (Hall u Hu) as [H1 H2].
    repeat split; try assumption.
    pose proof (indexOf_In u _ H1) as Hr.
    assert (0 <= rows) by nia. rewrite Z2Nat.id by assumption. lia.
Qed.

End Bubbling.

(** C1, as the spec words it, fails on [columnBoard]: tile 4 sits on index
    3, below the hidden tile 1, and the callback takes it out of the working
    set. *)
Lemma C1_counterexample :
  ~ retriedUntilTopEdge 3 columnBoard [1%nat; 4%nat; 7%nat] 4%nat.
Proof.
  intros [Hstay _].
  destruct Hstay as [a' [fr' [Eb Hin]]].
  - simpl. tauto.
  - reflexivity.
  - exists 1%nat. split; reflexivity.
  - vm_compute in Eb. injection Eb as _ <-. simpl in Hin. intuition discriminate.
Qed.

(** The first pass over the hidden column of [columnBoard] empties the
    working set and moves nothing. *)
Example columnBoard_first_pass :
  forEachBubbling 3 [1%nat; 4%nat; 7%nat] [1%nat; 4%nat; 7%nat] columnBoard
  = (columnBoard, Ok []).
Proof. reflexivity. Qed.

(** C1 on [columnBoard], for tile 4. *)
Lemma C1_witness :
  exists a' fr',
    bubbleTile 3 [1%nat; 4%nat; 7%nat] 4%nat columnBoard = (a', Ok fr') /\
    ((BoardWalker.detectEdgeUp 3 (indexOf 4%nat (elemTiles columnBoard)) = true
      \/ exists h,
        item (BoardWalker.getIndexToUp 3
                (indexOf 4%nat (elemTiles columnBoard)))
             (elemTiles columnBoard) = Some h /\
        isHidden columnBoard h = true) ->
     a' = columnBoard /\ fr' = detach 4%nat [1%nat; 4%nat; 7%nat] /\
     ~ In 4%nat fr') /\
    (BoardWalker.detectEdgeUp 3 (indexOf 4%nat (elemTiles columnBoard)) = false
     -> forall f,
       item (BoardWalker.getIndexToUp 3
               (indexOf 4%nat (elemTiles columnBoard)))
            (elemTiles columnBoard) = Some f ->
       isHidden columnBoard f = false ->
       fr' = [1%nat; 4%nat; 7%nat] /\
       indexOf 4%nat (elemTiles a')
         = indexOf 4%nat (elemTiles columnBoard) - 3 /\
       indexOf f (elemTiles a') = indexOf 4%nat (elemTiles columnBoard)).
Proof.
  apply (C1_entry_removed_when_nothing_falls 3 3 columnBoard
           [1%nat; 4%nat; 7%nat] 4%nat).
  - reflexivity.
  - simpl. tauto.
Defined.

(** The cascade scenario of the spec on [rowBoard]: the hidden tiles end on
    the top row and every column keeps its visible tiles in order. *)
Example rowBoard_bubbled :
  bubbleMatchToTopEdge 3 3 (mkCombo [7%nat; 8%nat; 9%nat]) rowBoard
  = (setElemTiles [7; 8; 9; 1; 2; 3; 4; 5; 6]%nat rowBoard, Ok tt).
Proof. reflexivity. Qed.

(** C6 on [rowBoard]. *)
Lemma C6_witness :
  (forall b fr t,
     wellFormed 3 3 b = true -> In t (elemTiles b) ->
     exists b' fr',
       bubbleTile 3 fr t b = (b', Ok fr') /\
       ((b' = b /\ fr' = detach t fr) \/
        (fr' = fr /\
         rowOf 3 (indexOf t (elemTiles b'))
           = rowOf 3 (indexOf t (elemTiles b)) - 1 /\
         colOf 3 (indexOf t (elemTiles b'))
           = colOf 3 (indexOf t (elemTiles b))))) /\
  exists a',
    bubbleMatchToTopEdge 3 3 (mkCombo [7%nat; 8%nat; 9%nat]) rowBoard
      = (a', Ok tt) /\
    wellFormed 3 3 a' = true /\
    hiddenTiles a' = hiddenTiles rowBoard.
Proof.
  apply (C6_bubbling_terminates 3 3 rowBoard (mkCombo [7%nat; 8%nat; 9%nat])).
  - reflexivity.
  - simpl. intros t [<-|[<-|[<-|[]]]]; split; auto 10.
Defined.

(** ** Detection on the boards of the examples *)

(** The scenario of the spec: around index 24 (tile 25) the walk to the
    left yields the tiles of the indices 23, 22 and 21, and the sequence
    [#detectMatchXY] builds holds them in this order, before the tile
    itself; the MatchInfo lists the axis on the indices 21, 22, 23, 24. *)
Example scenario_alongX :
  seekInDirection 7 7 scenarioTypes (seekFuel scenarioBoard) scenarioBoard
    DLeft 1 24 = Ok [24; 23; 22]%nat /\
  matchX (mkDirectional [24; 23; 22]%nat [] [] []) 25%nat
  = Some [24; 23; 22; 25]%nat /\
  detectMatchXY 7 7 scenarioTypes scenarioBoard 25%nat
  = Ok (Some (mkMatchInfo (Some [22; 23; 24; 25]%nat) None)) /\
  positions scenarioBoard [22; 23; 24; 25]%nat = [21; 22; 23; 24].
Proof. repeat split; reflexivity. Qed.


(** On [gapBoard] the walk to the left from index 24 yields nothing: the
    hidden tile on index 23 ends it, although the tiles on 22 and 21 are
    visible and of the type looked for. *)
Example gapBoard_walk_left :
  seekInDirection 7 7 scenarioTypes (seekFuel gapBoard) gapBoard DLeft 1 24
  = Ok [] /\
  visibleOfType scenarioTypes gapBoard 1 22 = true /\
  visibleOfType scenarioTypes gapBoard 1 21 = true.
Proof. repeat split; reflexivity. Qed.

(** ** Selection on the boards of the examples *)

(** C4 fails on [plainBoard]: tile 3 ends the first row (index 2), tile 4
    begins the second (index 3).  Clicking 3 and then 4 is taken as a swap
    to the right: both fields of the selection are set, the tiles are
    swapped, and their positions are not grid-adjacent, neither before nor
    after the swap. *)
Theorem C4_row_wrap_accepted :
  snd (manageAndValidateSelection 3 ownType 4%nat
         (fst (manageAndValidateSelection 3 ownType 3%nat plainBoard)))
  = Ok (Some DRight) /\
  gridAdjacent 3 3 (indexOf 3%nat (elemTiles plainBoard))
                   (indexOf 4%nat (elemTiles plainBoard)) = false /\
  let a' := fst (runEvents 3 3 ownType [Click 3%nat; Click 4%nat] plainBoard)
  in
  elemPickedTile a' = Some 3%nat /\ elemTargetTile a' = Some 4%nat /\
  elemTiles a' = [1; 2; 4; 3; 5; 6; 7; 8; 9]%nat /\
  gridAdjacent 3 3 (indexOf 3%nat (elemTiles a'))
                   (indexOf 4%nat (elemTiles a')) = false.
Proof. repeat split; reflexivity. Qed.

(** C5 fails on [plainBoard]: the swap of the tiles 1 and 2 makes no match
    and its revert is scheduled.  Left alone, the revert restores the board.
    After one more click, on tile 9 or on the picked tile 1, the revert
    raises the developer error and the board stays swapped.  After two more
    clicks that make a second bad swap, the first timeout undoes the second
    swap, the second raises, and the first swap is never undone. *)
Theorem C5_revert_reads_current_selection :
  runEvents 3 3 ownType [Click 1%nat; Click 2%nat; BadSwapTimeout] plainBoard
  = (plainBoard, [Ok tt; Ok tt; Ok tt]) /\
  runEvents 3 3 ownType
    [Click 1%nat; Click 2%nat; Click 9%nat; BadSwapTimeout] plainBoard
  = (mkArena [2; 1; 3; 4; 5; 6; 7; 8; 9]%nat [] (Some 9%nat) None 0,
     [Ok tt; Ok tt; Ok tt; Throw DeveloperError]) /\
  runEvents 3 3 ownType
    [Click 1%nat; Click 2%nat; Click 1%nat; BadSwapTimeout] plainBoard
  = (mkArena [2; 1; 3; 4; 5; 6; 7; 8; 9]%nat [] None None 0,
     [Ok tt; Ok tt; Ok tt; Throw DeveloperError]) /\
  runEvents 3 3 ownType
    [Click 1%nat; Click 2%nat; Click 9%nat; Click 8%nat;
     BadSwapTimeout; BadSwapTimeout] plainBoard
  = (mkArena [2; 1; 3; 4; 5; 6; 7; 8; 9]%nat [] None None 0,
     [Ok tt; Ok tt; Ok tt; Ok tt; Ok tt; Throw DeveloperError]).
Proof. repeat split; reflexivity. Qed.

(** ** The selection through the methods *)

Section Selection.

Variables rows cols : Z.
Variable typeOf : GameTile -> Z.

Lemma keeps_ret {A : Type} (x : A) : keepsOrClearsSelection (ret x).
Proof. intro a. now left. Qed.

Lemma keeps_read {A : Type} (f : GameArena -> result A) :
  keepsOrClearsSelection (read f).
Proof. intro a. now left. Qed.

Lemma keeps_bind {A B : Type} (m : M A) (k : A -> M B) :
  keepsOrClearsSelection m -> (forall x, keepsOrClearsSelection (k x)) ->
  keepsOrClearsSelection (bind m k).
Proof.
  intros Hm Hk a. unfold bind. specialize (Hm a).
  destruct (m a) as [a1 [x|e|]]; simpl in *; try assumption.
  destruct (Hk x a1) as [H|H]; [|now right].
  destruct Hm as [Hm|Hm]; [left | right]; congruence.
Qed.

Lemma keeps_swapTiles (x y : GameTile) : keepsOrClearsSelection (swapTiles x y).
Proof.
  intro a. left. unfold swapTiles.
  destruct (_ <? _); destruct (item _ _); reflexivity.
Qed.

Lemma keeps_swapUserSelectedTiles : keepsOrClearsSelection swapUserSelectedTiles.
Proof.
  intro a. unfold swapUserSelectedTiles.
  destruct (elemPickedTile a) as [p|] eqn:Ep;
    destruct (elemTargetTile a) as [t|] eqn:Et; try (now left).
  apply keeps_swapTiles.
Qed.

Lemma keeps_resetUserSelection : keepsOrClearsSelection resetUserSelection.
Proof. intro a. now right. Qed.

Lemma keeps_hideMatch (matchInfo : ComboMatchInfo) :
  keepsOrClearsSelection (hideMatch matchInfo).
Proof.
  intro a. left. unfold hideMatch, modify. simpl.
  generalize (domSortedTiles matchInfo). intro l. revert a.
  induction l as [|t l IH]; intro a; simpl; [reflexivity|].
  now rewrite IH.
Qed.

Lemma keeps_bubbleTile (fr : list GameTile) (t : GameTile) :
  keepsOrClearsSelection (bubbleTile cols fr t).
Proof.
  unfold bubbleTile. apply keeps_bind; [apply keeps_read|]. intro idx.
  apply keeps_bind; [apply keeps_read|]. intros [f|].
  - apply keeps_bind; [apply keeps_swapTiles | intro; apply keeps_ret].
  - apply keeps_ret.
Qed.

Lemma keeps_forEachBubbling (entries fr : list GameTile) :
  keepsOrClearsSelection (forEachBubbling cols entries fr).
Proof.
  revert fr. induction entries as [|t rest IH]; intro fr; simpl.
  - apply keeps_ret.
  - apply keeps_bind; [apply keeps_bubbleTile | intro; apply IH].
Qed.

Lemma keeps_bubbleLoop (fuel : nat) (fr : list GameTile) :
  keepsOrClearsSelection (bubbleLoop cols fuel fr).
Proof.
  revert fr. induction fuel as [|fuel IH]; intros [|t fr].
  - apply (keeps_ret tt).
  - intro a. now left.
  - apply (keeps_ret tt).
  - intro a. rewrite bubbleLoop_pass.
    apply (keeps_bind _ _ (keeps_forEachBubbling _ _) (fun x => IH x)).
Qed.

Lemma keeps_handleUserSuccessSelection (matchInfo : ComboMatchInfo) :
  keepsOrClearsSelection (handleUserSuccessSelection rows cols matchInfo).
Proof.
  unfold handleUserSuccessSelection.
  apply keeps_bind; [apply keeps_resetUserSelection | intros _].
  apply keeps_bind; [apply keeps_hideMatch | intros _].
  apply keeps_bubbleLoop.
Qed.

Lemma keeps_handleUserBadSelection :
  keepsOrClearsSelection handleUserBadSelection.
Proof. intro a. now left. Qed.

Lemma keeps_badSwapTimeoutCallback :
  keepsOrClearsSelection badSwapTimeoutCallback.
Proof.
  apply keeps_bind; [apply keeps_swapUserSelectedTiles | intros _].
  apply keeps_resetUserSelection.
Qed.

Lemma targetHasOtherType_kept (a a' : GameArena) :
  targetHasOtherType typeOf a ->
  selection a' = selection a \/ selection a' = (None, None) ->
  targetHasOtherType typeOf a'.
Proof.
  unfold targetHasOtherType, selection. intros H [E|E] t Ht;
    injection E as E1 E2.
  - rewrite E1. apply H. congruence.
  - congruence.
Qed.

(** What the selection is after [#manageAndValidateSelection]. *)
Lemma manageAndValidateSelection_cases (c : GameTile) (a : GameArena) :
  exists a' x,
    manageAndValidateSelection cols typeOf c a = (a', Ok x) /\
    elemTiles a' = elemTiles a /\ hiddenTiles a' = hiddenTiles a /\
    badSwapTimers a' = badSwapTimers a /\
    ((x = None /\ elemTargetTile a' = None /\
      (elemPickedTile a' = Some c \/
       (elemPickedTile a' = None /\ elemPickedTile a = Some c))) \/
     (exists p d,
        x = Some d /\ elemPickedTile a = Some p /\ elemTargetTile a = None /\
        p <> c /\ typeOf p <> typeOf c /\
        isSecondTileOnSide cols a c = Some d /\
        a' = setSelection (Some p) (Some c) a) \/
     (x = None /\ elemPickedTile a = None /\ elemPickedTile a' = Some c /\
      elemTargetTile a' = elemTargetTile a)).
Proof.
  unfold manageAndValidateSelection, pickedIs, pickedHasTypeOf.
  destruct (elemPickedTile a) as [p|] eqn:Ep.
  - destruct (sameTile_spec p c) as [->|Hpc].
    { eexists _, _. split; [reflexivity|]. repeat split. left.
      repeat split. right. split; reflexivity. }
    destruct (Z.eqb_spec (typeOf p) (typeOf c)) as [Ety|Hty].
    { eexists _, _. split; [reflexivity|]. repeat split. left.
      repeat split. now left. }
    destruct (elemTargetTile a) as [t|] eqn:Et; simpl.
    { eexists _, _. split; [reflexivity|]. repeat split. left.
      repeat split. now left. }
    destruct (isSecondTileOnSide cols a c) as [d|] eqn:Ed; simpl.
    { eexists _, _. split; [reflexivity|]. repeat split. right. left.
      exists p, d. repeat split; assumption. }
    eexists _, _. split; [reflexivity|]. repeat split. left.
    repeat split. now left.
  - simpl. eexists _, _. split; [reflexivity|]. repeat split. right. right.
    repeat split.
Qed.

Lemma manageAndValidateSelection_invariant (c : GameTile) (a : GameArena) :
  targetHasOtherType typeOf a ->
  targetHasOtherType typeOf (fst (manageAndValidateSelection cols typeOf c a)).
Proof.
  intro H.
  destruct (manageAndValidateSelection_cases c a)
    as [a' [x [E [_ [_ [_ Hc]]]]]].
  rewrite E. simpl. intros t Ht.
  destruct Hc as [[_ [Hn _]] | [[p [d [_ [Ep [_ [_ [Hty [_ ->]]]]]]]] | [_ [Ep [_ Et]]]]].
  - congruence.
  - simpl in Ht. injection Ht as <-. exists p. now split.
  - rewrite Et in Ht. destruct (H t Ht) as [p [Hp _]]. congruence.
Qed.

Lemma keeps_afterSelection (c : GameTile) (x : option direction) :
  keepsOrClearsSelection
    (match x with
     | None => ret tt
     | Some _ =>
         bind swapUserSelectedTiles (fun _ =>
         bind (read (calculateMatchByUserSelection rows cols typeOf))
           (fun matchFixture =>
              match matchFixture with
              | Some combo => handleUserSuccessSelection rows cols combo
              | None => handleUserBadSelection
              end))
     end).
Proof.
  destruct x as [d|]; [|apply keeps_ret].
  apply keeps_bind; [apply keeps_swapUserSelectedTiles | intros _].
  apply keeps_bind; [apply keeps_read | intros [combo|]].
  - apply keeps_handleUserSuccessSelection.
  - apply keeps_handleUserBadSelection.
Qed.

Lemma dispatch_invariant (ev : event) (a : GameArena) :
  targetHasOtherType typeOf a ->
  targetHasOtherType typeOf (fst (dispatch rows cols typeOf ev a)).
Proof.
  intro H. destruct ev as [c|]; simpl.
  - unfold tileClickHandler, bind.
    pose proof (manageAndValidateSelection_invariant c a H) as H1.
    destruct (manageAndValidateSelection_cases c a) as [a' [x [E _]]].
    rewrite E in *. simpl in H1.
    eapply targetHasOtherType_kept; [exact H1|].
    apply (keeps_afterSelection c x a').
  - destruct (badSwapTimers a) as [|n] eqn:En; [assumption|].
    eapply targetHasOtherType_kept.
    2: apply (keeps_badSwapTimeoutCallback (setBadSwapTimers n a)).
    exact H.
Qed.

Lemma runEvents_invariant (evs : list event) :
  forall a, targetHasOtherType typeOf a ->
  targetHasOtherType typeOf (fst (runEvents rows cols typeOf evs a)).
Proof.
  induction evs as [|ev evs IH]; intros a H; simpl; [assumption|].
  pose proof (dispatch_invariant ev a H) as H1.
  destruct (dispatch rows cols typeOf ev a) as [a1 r]. simpl in H1.
  specialize (IH a1 H1).
  destruct (runEvents rows cols typeOf evs a1) as [a2 rs]. assumption.
Qed.

(** Any click while both fields of the selection are set leaves the board
    as it is and the target unset, so that a revert scheduled before it
    raises the developer error when it fires. *)
Lemma click_before_revert (a : GameArena) (p t c : GameTile) :
  elemPickedTile a = Some p -> elemTargetTile a = Some t ->
  exists a',
    tileClickHandler rows cols typeOf c a = (a', Ok tt) /\
    elemTiles a' = elemTiles a /\ elemTargetTile a' = None /\
    badSwapTimeoutCallback a' = (a', Throw DeveloperError).
Proof.
  intros Hp Ht.
  unfold tileClickHandler, bind, manageAndValidateSelection, pickedIs,
    pickedHasTypeOf.
  rewrite Hp, Ht.
  destruct (sameTile p c); [|destruct (typeOf p =? typeOf c)]; simpl;
    eexists; (split; [reflexivity|]); repeat split.
Qed.

(** ** The claims about the selection *)

(** C10: over every sequence of clicks and timeouts, started with no target
    set, whenever both [picked] and [target] are set their types differ.  A
    click on a tile of the type of the picked tile never makes it the
    target: the handler returns without a swap, the board as it was, the
    target unset, and the clicked tile is the new picked tile (a click on
    the picked tile itself unselects it). *)
Theorem C10_selected_types_differ (a : GameArena) (evs : list event) :
  elemTargetTile a = None ->
  selectedTypesDiffer typeOf (fst (runEvents rows cols typeOf evs a)) /\
  forall b clickedTile p,
    elemPickedTile b = Some p -> typeOf clickedTile = typeOf p ->
    exists b',
      tileClickHandler rows cols typeOf clickedTile b = (b', Ok tt) /\
      elemTargetTile b' = None /\
      (clickedTile <> p -> elemPickedTile b' = Some clickedTile) /\
      (clickedTile = p -> elemPickedTile b' = None) /\
      elemTiles b' = elemTiles b.
Proof.
  intro Ht. split.
  - assert (H0 : targetHasOtherType typeOf a)
      by (intros t Hs; congruence).
    pose proof (runEvents_invariant evs a H0) as H.
    intros p t Hp Hta. destruct (H t Hta) as [p' [Hp' Hne]]. congruence.
  - intros b c p Hp Hty.
    unfold tileClickHandler, bind, manageAndValidateSelection, pickedIs,
      pickedHasTypeOf.
    rewrite Hp. destruct (sameTile_spec p c) as [->|Hpc].
    + eexists. split; [reflexivity|]. simpl. repeat split; congruence.
    + rewrite Hty, Z.eqb_refl. eexists. split; [reflexivity|]. simpl.
      repeat split; congruence.
Qed.

Lemma wellFormed_setSelection (p t : option GameTile) (a : GameArena) :
  wellFormed rows cols (setSelection p t a) = wellFormed rows cols a.
Proof. reflexivity. Qed.

(** C9: [#swapUserSelectedTiles] raises the developer error, and changes
    nothing, whenever [picked] or [target] is unset.  A second click that
    [#manageAndValidateSelection] accepts on a well-formed board raises
    nothing: the swap is done, the match calculation returns, and when it
    returns no combo the click handler returns normally with the revert
    scheduled. *)
Theorem C9_unset_raises_no_combo_does_not (a0 : GameArena)
    (clickedTile : GameTile) :
  wellFormed rows cols a0 = true ->
  In clickedTile (elemTiles a0) ->
  (forall p, elemPickedTile a0 = Some p -> In p (elemTiles a0)) ->
  (forall b, elemPickedTile b = None \/ elemTargetTile b = None ->
     swapUserSelectedTiles b = (b, Throw DeveloperError)) /\
  (forall a d,
     manageAndValidateSelection cols typeOf clickedTile a0 = (a, Ok (Some d)) ->
     exists a1 r,
       swapUserSelectedTiles a = (a1, Ok tt) /\
       calculateMatchByUserSelection rows cols typeOf a1 = Ok r /\
       (r = None ->
        tileClickHandler rows cols typeOf clickedTile a0
        = (setBadSwapTimers (S (badSwapTimers a1)) a1, Ok tt))).
Proof.
  intros Hwf Hc Hp. split.
  - intros b [H|H]; unfold swapUserSelectedTiles; rewrite H;
      [reflexivity | now destruct (elemPickedTile b)].
  - intros a d Hm.
    destruct (manageAndValidateSelection_cases clickedTile a0)
      as [a' [x [E [_ [_ [_ Hcase]]]]]].
    rewrite E in Hm. injection Hm as <- ->.
    destruct Hcase as [[Hx _] | [[p [d' [Hx [Ep [Et [Hpc [Hty [Hside ->]]]]]]]] | [Hx _]]];
      try discriminate.
    destruct (wellFormed_elim rows cols a0 Hwf) as [Hcols [Hlen Hnd]].
    pose proof (Hp p Ep) as Hpin.
    set (a := setSelection (Some p) (Some clickedTile) a0) in *.
    assert (Hidx : indexOf p (elemTiles a) <> indexOf clickedTile (elemTiles a)).
    { intro Heq. pose proof (item_indexOf p _ Hpin) as H1.
      pose proof (item_indexOf clickedTile _ Hc) as H2.
      simpl in Heq. rewrite Heq in H1. congruence. }
    destruct (swapTiles_exchanges a _ _ p clickedTile Hnd
                (item_indexOf p _ Hpin) (item_indexOf clickedTile _ Hc) Hidx)
      as [l' [Es [Hnd' [Hlen' [_ [_ [_ Hin']]]]]]].
    assert (Hwf1 : wellFormed rows cols (setElemTiles l' a) = true).
    { apply wellFormed_intro; simpl; [assumption | | assumption].
      rewrite Hlen'. exact Hlen. }
    destruct (detectMatchXY_ok rows cols typeOf (setElemTiles l' a) p Hwf1
                (proj2 (Hin' p) Hpin)) as [_ [r1 [_ [E1 _]]]].
    destruct (detectMatchXY_ok rows cols typeOf (setElemTiles l' a)
                clickedTile Hwf1 (proj2 (Hin' clickedTile) Hc))
      as [_ [r2 [_ [E2 _]]]].
    assert (Ecalc : exists r,
               calculateMatchByUserSelection rows cols typeOf
                 (setElemTiles l' a) = Ok r).
    { unfold calculateMatchByUserSelection. simpl. rewrite E1, E2. simpl.
      eauto. }
    destruct Ecalc as [r Er].
    exists (setElemTiles l' a), r.
    assert (Esw : swapUserSelectedTiles a = (setElemTiles l' a, Ok tt))
      by exact Es.
    split; [assumption|]. split; [assumption|]. intros ->.
    unfold tileClickHandler, bind. rewrite E. fold a. rewrite Esw.
    unfold read. rewrite Er. reflexivity.
Qed.

End Selection.

(** C10 on [plainBoard], for the clicks on the tiles 3 and 4. *)
Lemma C10_witness :
  selectedTypesDiffer ownType
    (fst (runEvents 3 3 ownType [Click 3%nat; Click 4%nat] plainBoard)) /\
  forall b clickedTile p,
    elemPickedTile b = Some p -> ownType clickedTile = ownType p ->
    exists b',
      tileClickHandler 3 3 ownType clickedTile b = (b', Ok tt) /\
      elemTargetTile b' = None /\
      (clickedTile <> p -> elemPickedTile b' = Some clickedTile) /\
      (clickedTile = p -> elemPickedTile b' = None) /\
      elemTiles b' = elemTiles b.
Proof.
  apply (C10_selected_types_differ 3 3 ownType plainBoard
           [Click 3%nat; Click 4%nat]).
  reflexivity.
Defined.

(** C9 on [pickedBoard], for the click on tile 2. *)
Lemma C9_witness :
  (forall b, elemPickedTile b = None \/ elemTargetTile b = None ->
     swapUserSelectedTiles b = (b, Throw DeveloperError)) /\
  (forall a d,
     manageAndValidateSelection 3 ownType 2%nat pickedBoard
       = (a, Ok (Some d)) ->
     exists a1 r,
       swapUserSelectedTiles a = (a1, Ok tt) /\
       calculateMatchByUserSelection 3 3 ownType a1 = Ok r /\
       (r = None ->
        tileClickHandler 3 3 ownType 2%nat pickedBoard
        = (setBadSwapTimers (S (badSwapTimers a1)) a1, Ok tt))).
Proof.
  apply (C9_unset_raises_no_combo_does_not 3 3 ownType pickedBoard 2%nat).
  - reflexivity.
  - simpl. tauto.
  - intros p Hp. injection Hp as <-. simpl. tauto.
Defined.

(** The click on tile 2 of [pickedBoard] is accepted, makes no match, and
    only schedules the revert. *)
Example pickedBoard_bad_swap :
  tileClickHandler 3 3 ownType 2%nat pickedBoard
  = (mkArena [2; 1; 3; 4; 5; 6; 7; 8; 9]%nat [] (Some 1%nat) (Some 2%nat) 1,
     Ok tt).
Proof. reflexivity. Qed.

(** * Further properties *)

(** ** Numbers *)

(** The model of the doubles agrees with the IEEE 754 specification of the
    standard library on the samples: rounding an integer, and the sum, the
    difference, the product and the comparison of two numbers. *)
Example number_model_agrees_with_SpecFloat :
  forallb (fun z =>
             Number.eqb (Number.toDouble z)
               (Number.ofSpecFloat (binary_normalize 53 1024 z 0 false)))
    sampleIntegers = true /\
  forallb (fun x =>
     forallb (fun y =>
        Number.eqb (Number.add x y)
          (Number.ofSpecFloat
             (SFadd 53 1024 (Number.toSpecFloat x) (Number.toSpecFloat y)))
        && Number.eqb (Number.sub x y)
             (Number.ofSpecFloat
                (SFsub 53 1024 (Number.toSpecFloat x)
                   (Number.toSpecFloat y)))
        && Number.eqb (Number.mul x y)
             (Number.ofSpecFloat
                (SFmul 53 1024 (Number.toSpecFloat x)
                   (Number.toSpecFloat y)))
        && Bool.eqb (Number.leb x y)
             (SFleb (Number.toSpecFloat x) (Number.toSpecFloat y)))
       sampleNumbers)
    sampleNumbers = true.
Proof. split; vm_compute; reflexivity. Qed.

Lemma pow2_53_1024 : 2 ^ 53 < 2 ^ 1024.
Proof. apply Z.pow_lt_mono_r; lia. Qed.

Lemma roundToEven_0 (z : Z) : Number.roundToEven z 0 = z.
Proof.
  unfold Number.roundToEven. cbv zeta.
  rewrite Z.pow_0_r, Z.div_1_r, Z.mod_1_r. simpl. apply Z.mul_1_r.
Qed.

(** Up to [2 ^ 53] every integer is a double. *)
Lemma toDouble_exact (z : Z) : exactInteger z -> Number.toDouble z = Num z.
Proof.
  intros [Hlo Hhi]. unfold Number.toDouble. cbv zeta.
  assert (Hr : Number.roundToEven z (Number.ulpExponent z) = z).
  { destruct (Z.eq_dec (Z.abs z) (2 ^ 53)) as [E|E].
    - assert (Hz : z = 2 ^ 53 \/ z = - 2 ^ 53) by lia.
      destruct Hz as [-> | ->]; vm_compute; reflexivity.
    - assert (Hu : Number.ulpExponent z = 0).
      { unfold Number.ulpExponent.
        destruct (Z.eq_dec z 0) as [->|Hz]; [reflexivity|].
        assert (Z.log2 (Z.abs z) < 53) by (apply Z.log2_lt_pow2; lia).
        lia. }
      rewrite Hu. apply roundToEven_0. }
  rewrite Hr. pose proof pow2_53_1024.
  destruct (Z.leb_spec (2 ^ 1024) z); [lia|].
  destruct (Z.leb_spec z (- 2 ^ 1024)); [lia|]. reflexivity.
Qed.

Lemma add_exact (a b : Z) :
  exactInteger (a + b) -> Number.add (Num a) (Num b) = Num (a + b).
Proof. apply toDouble_exact. Qed.

Lemma sub_exact (a b : Z) :
  exactInteger (a - b) -> Number.sub (Num a) (Num b) = Num (a - b).
Proof.
  intro H. unfold Number.sub, Number.neg, Number.add.
  replace (a + - b) with (a - b) by lia. now apply toDouble_exact.
Qed.

Lemma mul_exact (a b : Z) :
  exactInteger (a * b) -> Number.mul (Num a) (Num b) = Num (a * b).
Proof. apply toDouble_exact. Qed.

(** Rounding never passes a multiple of the unit in the last place. *)
Lemma roundToEven_le_multiple (y e j : Z) :
  0 <= e -> y <= j * 2 ^ e -> Number.roundToEven y e <= j * 2 ^ e.
Proof.
  intros He Hy. unfold Number.roundToEven. cbv zeta.
  assert (HP : 0 < 2 ^ e) by (apply Z.pow_pos_nonneg; lia).
  set (P := 2 ^ e) in *.
  pose proof (Z.div_mod y P ltac:(lia)) as Hdm.
  pose proof (Z.mod_pos_bound y P HP) as Hb.
  set (q := y / P) in *. set (r := y mod P) in *.
  assert (Hup : 0 < r -> (q + 1) * P <= j * P).
  { intro Hr. assert (q < j) by nia. nia. }
  destruct (Z.ltb_spec (2 * r) P); [nia|].
  destruct (Z.ltb_spec P (2 * r)); [apply Hup; lia|].
  destruct (Z.even q); [nia | apply Hup; lia].
Qed.

(** Rounding an integer below an exactInteger one gives a number not above it. *)
Lemma toDouble_atMost (y b : Z) :
  y <= b -> exactInteger b -> atMost (Number.toDouble y) b.
Proof.
  intros Hy [Hlo Hhi].
  destruct (Z_le_gt_dec (- 2 ^ 53) y) as [Hge|Hlt].
  - rewrite toDouble_exact by (split; lia). exact Hy.
  - assert (Hr : Number.roundToEven y (Number.ulpExponent y) <= - 2 ^ 53).
    { unfold Number.ulpExponent.
      assert (Ha : 2 ^ 53 <= Z.abs y) by lia.
      assert (Hk : 53 <= Z.log2 (Z.abs y))
        by (apply Z.log2_le_pow2; lia).
      destruct (Z.log2_spec (Z.abs y) ltac:(lia)) as [Hspec _].
      set (k := Z.log2 (Z.abs y)) in *.
      replace (Z.max 0 (k - 52)) with (k - 52) by lia.
      assert (Hsplit : 2 ^ k = 2 ^ 52 * 2 ^ (k - 52)).
      { rewrite <- Z.pow_add_r by lia. f_equal. lia. }
      assert (Hmono : 2 ^ 53 <= 2 ^ k) by (apply Z.pow_le_mono_r; lia).
      pose proof (roundToEven_le_multiple y (k - 52) (- 2 ^ 52)
                    ltac:(lia) ltac:(lia)) as Hle.
      lia. }
    unfold Number.toDouble. cbv zeta.
    set (r := Number.roundToEven y (Number.ulpExponent y)) in *.
    destruct (Z.leb_spec (2 ^ 1024) r).
    + pose proof pow2_53_1024. lia.
    + destruct (Z.leb_spec r (- 2 ^ 1024)); simpl; [exact I | lia].
Qed.

(** ** The range generator *)

Lemma generateRange_run (end_ step : Z) :
  0 < step -> exactInteger (end_ - step) -> exactInteger end_ ->
  forall (n : nat) (fuel : nat) (x : Z),
    (n < fuel)%nat -> exactInteger x ->
    end_ - step < x + Z.of_nat n * step ->
    x + (Z.of_nat n - 1) * step <= end_ - step \/ n = 0%nat ->
    generateRange fuel (Num end_) (Num step) (Num x)
    = Ok (map Num (walkFrom step x n)).
Proof.
  intros Hs He1 He. induction n as [|n IH]; intros fuel x Hf Hx Hhi Hlo.
  - destruct fuel as [|fuel]; [lia|]. cbn [generateRange].
    rewrite sub_exact by assumption. cbn [Number.leb].
    destruct (Z.leb_spec x (end_ - step)); [lia | reflexivity].
  - destruct fuel as [|fuel]; [lia|]. cbn [generateRange walkFrom map].
    rewrite sub_exact by assumption. cbn [Number.leb].
    destruct Hlo as [Hlo|]; [|lia].
    destruct (Z.leb_spec x (end_ - step)); [|nia].
    assert (Hx' : exactInteger (x + step))
      by (destruct Hx, He; split; lia).
    rewrite add_exact by assumption.
    rewrite (IH fuel (x + step)); [reflexivity | lia | assumption | lia |].
    destruct n; [now right | left; lia].
Qed.

(** How many numbers a range with a positive step holds. *)
Lemma range_count (end_ start step : Z) :
  0 < step -> start <= end_ ->
  let n := Z.to_nat ((end_ - start) / step + 1) in
  end_ - step < start - step + Z.of_nat n * step /\
  start - step + (Z.of_nat n - 1) * step <= end_ - step.
Proof.
  intros Hs Hle n.
  pose proof (Z.div_mod (end_ - start) step ltac:(lia)) as Hdm.
  pose proof (Z.mod_pos_bound (end_ - start) step Hs) as Hb.
  pose proof (Z.div_pos (end_ - start) step ltac:(lia) Hs) as Hq.
  subst n. rewrite Z2Nat.id by lia. split; nia.
Qed.

Lemma walkFrom_arithmetic (d : Z) (n : nat) :
  forall x, walkFrom d x n = arithmeticRange (x + d) d n.
Proof.
  unfold arithmeticRange.
  induction n as [|n IH]; intro x; [reflexivity|].
  simpl walkFrom. rewrite IH. cbn [seq map]. f_equal; [lia|].
  rewrite <- seq_shift, map_map. apply map_ext. intro k. lia.
Qed.

Lemma arithmeticRange_bounds (start step : Z) (n : nat) (v : Z) :
  0 < step -> In v (arithmeticRange start step n) ->
  start <= v <= start + (Z.of_nat n - 1) * step.
Proof.
  intros Hs Hin. unfold arithmeticRange in Hin. apply in_map_iff in Hin.
  destruct Hin as [k [<- Hk]]. apply in_seq in Hk. nia.
Qed.

(** The range of a positive step, for integers in the exactInteger range. *)
Lemma rangeGenerator_run (end_ start step : Z) (fuel : nat) :
  0 < step ->
  exactInteger end_ -> exactInteger (start - step) -> exactInteger (end_ - step) ->
  (rangeLength end_ start step < fuel)%nat ->
  rangeGenerator fuel (Num end_) (Num start) (Num step)
  = Ok (map Num (arithmeticRange start step (rangeLength end_ start step))).
Proof.
  intros Hs He Hs1 He1 Hf. unfold rangeLength in *.
  unfold rangeGenerator. rewrite sub_exact by assumption.
  destruct (Z.leb_spec start end_) as [Hle|Hgt].
  - destruct (range_count end_ start step Hs Hle) as [Hhi Hlo].
    cbv zeta in Hhi, Hlo.
    set (n := Z.to_nat ((end_ - start) / step + 1)) in *.
    rewrite (generateRange_run end_ step Hs He1 He n fuel (start - step)
               Hf Hs1 Hhi (or_introl Hlo)).
    rewrite walkFrom_arithmetic.
    now replace (start - step + step) with start by lia.
  - rewrite (generateRange_run end_ step Hs He1 He 0 fuel (start - step)
               Hf Hs1); [reflexivity | simpl; lia | now right].
Qed.

(** X1: with a positive step, for integer arguments in the range in which
    the doubles are exactInteger ([start], [end], [step], [start - step] and
    [end - step] of magnitude at most [2 ^ 53]), the range generator ends
    and yields [start], [start + step], ... : every number between [start]
    and [end] that is a whole number of steps from [start], in ascending
    order, and nothing when [start] is beyond [end]. *)
Theorem rangeGenerator_positive_step (end_ start step : Z) (fuel : nat) :
  0 < step ->
  exactInteger start -> exactInteger end_ -> exactInteger step ->
  exactInteger (start - step) -> exactInteger (end_ - step) ->
  (rangeLength end_ start step < fuel)%nat ->
  let n := rangeLength end_ start step in
  rangeGenerator fuel (Num end_) (Num start) (Num step)
  = Ok (map Num (arithmeticRange start step n)) /\
  Forall (fun v => start <= v <= end_) (arithmeticRange start step n) /\
  end_ < start + Z.of_nat n * step /\
  (end_ < start -> n = 0%nat).
Proof.
  intros Hs _ He _ Hs1 He1 Hf n.
  split; [now apply rangeGenerator_run|].
  subst n. unfold rangeLength in *.
  destruct (Z.leb_spec start end_) as [Hle|Hgt].
  - destruct (range_count end_ start step Hs Hle) as [Hhi Hlo].
    cbv zeta in Hhi, Hlo.
    set (n := Z.to_nat ((end_ - start) / step + 1)) in *.
    repeat split; try lia.
    apply Forall_forall. intros v Hv.
    pose proof (arithmeticRange_bounds start step n v Hs Hv). lia.
  - repeat split; try constructor; simpl; lia.
Qed.

(** X1 for the numbers from 3 to 10 in steps of 3. *)
Lemma rangeGenerator_positive_step_witness :
  rangeGenerator 5 (Num 10) (Num 3) (Num 3)
    = Ok (map Num (arithmeticRange 3 3 (rangeLength 10 3 3))) /\
  Forall (fun v => 3 <= v <= 10) (arithmeticRange 3 3 (rangeLength 10 3 3)) /\
  10 < 3 + Z.of_nat (rangeLength 10 3 3) * 3 /\
  (10 < 3 -> rangeLength 10 3 3 = 0%nat).
Proof.
  apply (rangeGenerator_positive_step 10 3 3 5);
    try (unfold exactInteger; lia).
  vm_compute. lia.
Defined.

Lemma generateRange_never_ends (end_ step : Z) :
  step <= 0 -> exactInteger (end_ - step) ->
  forall (fuel : nat) (x : number),
    atMost x (end_ - step) ->
    generateRange fuel (Num end_) (Num step) x = OutOfFuel.
Proof.
  intros Hs He. induction fuel as [|fuel IH]; intros x Hx; [reflexivity|].
  cbn [generateRange]. rewrite sub_exact by assumption.
  assert (Hle : Number.leb x (Num (end_ - step)) = true).
  { destruct x; simpl in Hx; try contradiction; simpl; [|reflexivity].
    now apply Z.leb_le. }
  rewrite Hle. rewrite IH; [reflexivity|].
  destruct x as [a| | |]; simpl in Hx; try contradiction.
  - apply toDouble_atMost; [lia | assumption].
  - exact I.
Qed.

(** X2: with a step that is zero or negative, for integer arguments in the
    range in which the doubles are exactInteger, the range generator yields
    nothing when [start] is beyond [end], and otherwise never ends: no
    number of turns of its loop is enough, also when the numbers it yields
    leave the exactInteger range. *)
Theorem rangeGenerator_nonpositive_step (end_ start step : Z) :
  step <= 0 ->
  exactInteger start -> exactInteger end_ -> exactInteger step ->
  exactInteger (start - step) -> exactInteger (end_ - step) ->
  (end_ < start ->
   forall fuel, (0 < fuel)%nat ->
     rangeGenerator fuel (Num end_) (Num start) (Num step) = Ok []) /\
  (start <= end_ ->
   forall fuel,
     rangeGenerator fuel (Num end_) (Num start) (Num step) = OutOfFuel).
Proof.
  intros Hs _ _ _ Hs1 He1. split.
  - intros Hgt [|fuel] Hf; [lia|]. unfold rangeGenerator.
    cbn [generateRange]. rewrite !sub_exact by assumption. cbn [Number.leb].
    destruct (Z.leb_spec (start - step) (end_ - step)); [lia | reflexivity].
  - intros Hle fuel. unfold rangeGenerator. rewrite sub_exact by assumption.
    apply generateRange_never_ends; try assumption. simpl. lia.
Qed.

(** X2 for a step of zero from 1 to 5, and for a step of -1 from 5 to 1. *)
Lemma rangeGenerator_nonpositive_step_witness :
  (forall fuel, rangeGenerator fuel (Num 5) (Num 1) (Num 0) = OutOfFuel) /\
  rangeGenerator 1 (Num 1) (Num 5) (Num (-1)) = Ok [].
Proof.
  split.
  - apply (rangeGenerator_nonpositive_step 5 1 0);
      try (unfold exactInteger; lia).
  - apply (rangeGenerator_nonpositive_step 1 5 (-1));
      try (unfold exactInteger; lia).
Defined.

(** Beyond [2 ^ 53] the doubles are no longer exactInteger.  Counting from
    [2 ^ 53] to [2 ^ 53 + 2] in steps of 1 never ends: [2 ^ 53 + 1] is no
    double and the sum is rounded back to [2 ^ 53].  And with the step
    [- 2 ^ 53] the range from 1 to 0 is not empty: [1 + 2 ^ 53] is rounded
    to [2 ^ 53], which is [0 + 2 ^ 53]. *)
Example rangeGenerator_beyond_exact_range :
  (forall fuel,
     rangeGenerator fuel (Num (2 ^ 53 + 2)) (Num (2 ^ 53)) (Num 1)
     = OutOfFuel) /\
  Number.sub (Num 1) (Num (- 2 ^ 53)) = Num (2 ^ 53) /\
  Number.leb (Number.sub (Num 1) (Num (- 2 ^ 53)))
             (Number.sub (Num 0) (Num (- 2 ^ 53))) = true /\
  rangeGenerator 1 (Num 0) (Num 1) (Num (- 2 ^ 53)) = OutOfFuel.
Proof.
  split; [|repeat split; vm_compute; reflexivity].
  assert (G : forall fuel,
             generateRange fuel (Num (2 ^ 53 + 2)) (Num 1) (Num (2 ^ 53))
             = OutOfFuel).
  { induction fuel as [|fuel IH]; [reflexivity|].
    cbn [generateRange].
    replace (Number.sub (Num (2 ^ 53 + 2)) (Num 1)) with (Num (2 ^ 53))
      by (vm_compute; reflexivity).
    replace (Number.add (Num (2 ^ 53)) (Num 1)) with (Num (2 ^ 53))
      by (vm_compute; reflexivity).
    replace (Number.leb (Num (2 ^ 53)) (Num (2 ^ 53))) with true
      by (vm_compute; reflexivity).
    now rewrite IH. }
  intros [|fuel]; [reflexivity|].
  unfold rangeGenerator. cbn [generateRange].
  replace (Number.sub (Num (2 ^ 53)) (Num 1)) with (Num (2 ^ 53 - 1))
    by (vm_compute; reflexivity).
  replace (Number.sub (Num (2 ^ 53 + 2)) (Num 1)) with (Num (2 ^ 53))
    by (vm_compute; reflexivity).
  replace (Number.leb (Num (2 ^ 53 - 1)) (Num (2 ^ 53))) with true
    by (vm_compute; reflexivity).
  replace (Number.add (Num (2 ^ 53 - 1)) (Num 1)) with (Num (2 ^ 53))
    by (vm_compute; reflexivity).
  now rewrite G.
Qed.

(** ** The construction of the board *)

Lemma walkFrom_ids (n : nat) :
  map createTile (map Num (walkFrom 1 0 n)) = seq 1 n.
Proof.
  rewrite walkFrom_arithmetic, map_map. unfold arithmeticRange.
  rewrite map_map, <- seq_shift.
  apply map_ext. intro k. unfold createTile. lia.
Qed.

(** X3: for a grid of [rows] rows and [cols] columns, [cols] positive,
    [rows] not negative and no more than [2 ^ 53] slots, [#createBoard]
    ends and makes the tiles with the ids 1 to [rows * cols] in this order,
    and the arena the constructor leaves is well-formed: [rows * cols]
    tiles, each once, nothing hidden and nothing selected. *)
Theorem createBoard_wellFormed (rows cols : Z) :
  0 < cols -> 0 <= rows -> rows * cols <= 2 ^ 53 ->
  createBoard rows cols = Ok (seq 1 (Z.to_nat (rows * cols))) /\
  exists a,
    newGameArena rows cols = Ok a /\
    wellFormed rows cols a = true /\
    hiddenTiles a = [] /\ selection a = (None, None).
Proof.
  intros Hc Hr Hmax.
  assert (Hn : 0 <= rows * cols) by nia.
  assert (Eb : createBoard rows cols = Ok (seq 1 (Z.to_nat (rows * cols)))).
  { unfold createBoard, rangeGenerator.
    rewrite mul_exact by (split; lia).
    rewrite sub_exact by (split; lia).
    rewrite (generateRange_run (rows * cols) 1 ltac:(lia)
               ltac:(split; lia) ltac:(split; lia)
               (Z.to_nat (rows * cols)) _ (1 - 1));
      [| lia | split; lia | lia |].
    - cbn [rbind]. now rewrite walkFrom_ids.
    - destruct (Z.to_nat (rows * cols)) eqn:E; [now right | left; lia]. }
  split; [assumption|].
  unfold newGameArena. rewrite Eb. simpl. eexists. split; [reflexivity|].
  repeat split. apply wellFormed_intro; simpl.
  - assumption.
  - rewrite length_seq. lia.
  - apply seq_NoDup.
Qed.

(** X3 for the 7x7 board of the default constructor arguments. *)
Lemma createBoard_wellFormed_witness :
  createBoard 7 7 = Ok (seq 1 (Z.to_nat (7 * 7))) /\
  exists a,
    newGameArena 7 7 = Ok a /\
    wellFormed 7 7 a = true /\
    hiddenTiles a = [] /\ selection a = (None, None).
Proof. apply (createBoard_wellFormed 7 7); lia. Defined.

(** ** Swapping two tiles *)

Lemma item_nth_error (n : nat) (l : list GameTile) :
  nth_error l n = item (Z.of_nat n) l.
Proof.
  unfold item. destruct (Z.ltb_spec (Z.of_nat n) 0); [lia|].
  now rewrite Nat2Z.id.
Qed.

Lemma items_ext (l l' : list GameTile) :
  (forall k, item k l = item k l') -> l = l'.
Proof.
  intro H. apply nth_error_ext. intro n. rewrite !item_nth_error. apply H.
Qed.

(** [#swapTiles], slot by slot. *)
Lemma swapTiles_items (a : GameArena) (i j : Z) (t1 t2 : GameTile) :
  NoDup (elemTiles a) ->
  item i (elemTiles a) = Some t1 -> item j (elemTiles a) = Some t2 ->
  i <> j ->
  exists l',
    swapTiles t1 t2 a = (setElemTiles l' a, Ok tt) /\
    item j l' = Some t1 /\ item i l' = Some t2 /\
    (forall k, k <> i -> k <> j -> item k l' = item k (elemTiles a)) /\
    NoDup l' /\ length l' = length (elemTiles a) /\
    (forall u, In u l' <-> In u (elemTiles a)).
Proof.
  intros Hnd Hi Hj Hne.
  destruct (swapTiles_exchanges a i j t1 t2 Hnd Hi Hj Hne)
    as [l' [E [Hnd' [Hlen [H1 [H2 [Hoth Hin]]]]]]].
  assert (Ht1 : In t1 l') by (apply Hin; eapply item_In; eassumption).
  assert (Ht2 : In t2 l') by (apply Hin; eapply item_In; eassumption).
  exists l'. split; [assumption|].
  split; [rewrite <- H1; now apply item_indexOf|].
  split; [rewrite <- H2; now apply item_indexOf|].
  split; [|repeat split; try assumption; apply Hin; assumption].
  intros k Hki Hkj.
  destruct (item k (elemTiles a)) as [u|] eqn:Eu.
  - assert (Hu1 : u <> t1).
    { intros ->. apply Hki. rewrite <- (indexOf_item _ _ _ Hnd Eu).
      now apply indexOf_item. }
    assert (Hu2 : u <> t2).
    { intros ->. apply Hkj. rewrite <- (indexOf_item _ _ _ Hnd Eu).
      now apply indexOf_item. }
    rewrite <- (indexOf_item _ _ _ Hnd Eu) at 1.
    rewrite <- (Hoth u Hu1 Hu2). apply item_indexOf. apply Hin.
    eapply item_In; eassumption.
  - destruct (item k l') as [u|] eqn:Eu'; [|reflexivity].
    pose proof (item_Some_range _ _ _ Eu') as Hr. rewrite Hlen in Hr.
    destruct (item_range k (elemTiles a) Hr) as [v Hv]. congruence.
Qed.

(** Two boards that two swaps of the same slots made are the same board. *)
Lemma swapped_unique (l l1 l2 : list GameTile) (i j : Z) (x y : GameTile) :
  item j l1 = Some x -> item i l1 = Some y ->
  (forall k, k <> i -> k <> j -> item k l1 = item k l) ->
  item j l2 = Some x -> item i l2 = Some y ->
  (forall k, k <> i -> k <> j -> item k l2 = item k l) ->
  l1 = l2.
Proof.
  intros A1 A2 A3 B1 B2 B3. apply items_ext. intro k.
  destruct (Z.eq_dec k i) as [->|Hi]; [congruence|].
  destruct (Z.eq_dec k j) as [->|Hj]; [congruence|].
  now rewrite A3, B3.
Qed.

(** X4: on a board that holds every tile once, [#swapTiles] of the tiles on
    two different indices returns normally: the two tiles change places,
    whichever of them is given first, every other slot keeps its tile, and
    the board still holds the same tiles, every one once; only the order of
    the children changes. *)
Theorem swapTiles_exchanges_places (a : GameArena) (i j : Z)
    (t1 t2 : GameTile) :
  NoDup (elemTiles a) ->
  item i (elemTiles a) = Some t1 -> item j (elemTiles a) = Some t2 ->
  i <> j ->
  exists l',
    swapTiles t1 t2 a = (setElemTiles l' a, Ok tt) /\
    swapTiles t2 t1 a = (setElemTiles l' a, Ok tt) /\
    item j l' = Some t1 /\ item i l' = Some t2 /\
    (forall k, k <> i -> k <> j -> item k l' = item k (elemTiles a)) /\
    NoDup l' /\ length l' = length (elemTiles a) /\
    (forall u, In u l' <-> In u (elemTiles a)).
Proof.
  intros Hnd Hi Hj Hne.
  destruct (swapTiles_items a i j t1 t2 Hnd Hi Hj Hne)
    as [l' [E [I1 [I2 [Hoth [Hnd' [Hlen Hin]]]]]]].
  destruct (swapTiles_items a j i t2 t1 Hnd Hj Hi ltac:(congruence))
    as [l2 [E2 [J1 [J2 [Hoth2 _]]]]].
  assert (El : l2 = l').
  { apply (swapped_unique (elemTiles a) l2 l' i j t1 t2); try assumption.
    intros k Hki Hkj. now apply Hoth2. }
  exists l'. rewrite E, E2, El. repeat split; try assumption; apply Hin; assumption.
Qed.

(** X4 on [plainBoard], for the tiles 2 and 6 on the indices 1 and 5. *)
Lemma swapTiles_exchanges_places_witness :
  exists l',
    swapTiles 2%nat 6%nat plainBoard = (setElemTiles l' plainBoard, Ok tt) /\
    swapTiles 6%nat 2%nat plainBoard = (setElemTiles l' plainBoard, Ok tt) /\
    item 5 l' = Some 2%nat /\ item 1 l' = Some 6%nat /\
    (forall k, k <> 1 -> k <> 5 ->
       item k l' = item k (elemTiles plainBoard)) /\
    NoDup l' /\ length l' = length (elemTiles plainBoard) /\
    (forall u, In u l' <-> In u (elemTiles plainBoard)).
Proof.
  apply (swapTiles_exchanges_places plainBoard 1 5 2%nat 6%nat).
  - apply distinct_NoDup. reflexivity.
  - reflexivity.
  - reflexivity.
  - lia.
Defined.

Lemma setElemTiles_own (a : GameArena) : setElemTiles (elemTiles a) a = a.
Proof. now destruct a. Qed.

Lemma swapTiles_undo (a : GameArena) (i j : Z)
    (t1 t2 : GameTile) :
  NoDup (elemTiles a) ->
  item i (elemTiles a) = Some t1 -> item j (elemTiles a) = Some t2 ->
  i <> j ->
  exists a1,
    swapTiles t1 t2 a = (a1, Ok tt) /\
    swapTiles t1 t2 a1 = (a, Ok tt) /\
    swapTiles t2 t1 a1 = (a, Ok tt).
Proof.
  intros Hnd Hi Hj Hne.
  destruct (swapTiles_items a i j t1 t2 Hnd Hi Hj Hne)
    as [l' [E [I1 [I2 [Hoth [Hnd' [Hlen Hin]]]]]]].
  exists (setElemTiles l' a). split; [assumption|].
  assert (G : forall x y p q,
            item p l' = Some x -> item q l' = Some y -> p <> q ->
            item q (elemTiles a) = Some x -> item p (elemTiles a) = Some y ->
            (forall k, k <> p -> k <> q -> item k l' = item k (elemTiles a)) ->
            swapTiles x y (setElemTiles l' a) = (a, Ok tt)).
  { intros x y p q Hp Hq Hpq Hq0 Hp0 Hrest.
    destruct (swapTiles_items (setElemTiles l' a) p q x y Hnd' Hp Hq Hpq)
      as [l2 [E2 [K1 [K2 [Hoth2 _]]]]].
    rewrite E2, setElemTiles_twice.
    replace l2 with (elemTiles a); [now rewrite setElemTiles_own|].
    apply items_ext. intro k. simpl in Hoth2.
    destruct (Z.eq_dec k p) as [->|Hkp]; [congruence|].
    destruct (Z.eq_dec k q) as [->|Hkq]; [congruence|].
    rewrite Hoth2 by assumption. symmetry. now apply Hrest. }
  split.
  - apply (G t1 t2 j i I1 I2 ltac:(congruence) Hi Hj).
    intros k H1 H2. now apply Hoth.
  - apply (G t2 t1 i j I2 I1 Hne Hj Hi). assumption.
Qed.

(** X5: swapping the same two tiles a second time undoes the swap: the arena
    is exactly what it was.  This is what the revert of a bad swap relies
    on. *)
Theorem swapTiles_twice_restores (a : GameArena) (i j : Z)
    (t1 t2 : GameTile) :
  NoDup (elemTiles a) ->
  item i (elemTiles a) = Some t1 -> item j (elemTiles a) = Some t2 ->
  i <> j ->
  exists a1,
    swapTiles t1 t2 a = (a1, Ok tt) /\
    swapTiles t1 t2 a1 = (a, Ok tt) /\
    swapTiles t2 t1 a1 = (a, Ok tt).
Proof. apply swapTiles_undo. Qed.

(** X5 on [plainBoard], for the tiles 2 and 6. *)
Lemma swapTiles_twice_restores_witness :
  exists a1,
    swapTiles 2%nat 6%nat plainBoard = (a1, Ok tt) /\
    swapTiles 2%nat 6%nat a1 = (plainBoard, Ok tt) /\
    swapTiles 6%nat 2%nat a1 = (plainBoard, Ok tt).
Proof.
  apply (swapTiles_twice_restores plainBoard 1 5 2%nat 6%nat).
  - apply distinct_NoDup. reflexivity.
  - reflexivity.
  - reflexivity.
  - lia.
Defined.

(** ** Hiding a match *)

Lemma fold_setHidden (l : list GameTile) :
  forall a,
    fold_left (fun a' t => setHidden t a') l a
    = setHiddenTiles (rev l ++ hiddenTiles a) a.
Proof.
  induction l as [|t l IH]; intro a; simpl.
  - now destruct a.
  - rewrite IH. unfold setHidden, setHiddenTiles. simpl.
    now rewrite <- app_assoc.
Qed.

(** X6: [#hideMatch] returns normally and hides exactly the tiles of the
    combo: afterwards a tile is hidden when it was hidden before or belongs
    to the combo.  The order of the board, the selection and the scheduled
    timeouts are untouched, and no hidden tile becomes visible again. *)
Theorem hideMatch_hides_the_combo (matchInfo : ComboMatchInfo)
    (a : GameArena) :
  exists a',
    hideMatch matchInfo a = (a', Ok tt) /\
    elemTiles a' = elemTiles a /\ selection a' = selection a /\
    badSwapTimers a' = badSwapTimers a /\
    forall t, isHidden a' t
              = isHidden a t || existsb (sameTile t) (domSortedTiles matchInfo).
Proof.
  unfold hideMatch, modify. rewrite fold_setHidden.
  eexists. split; [reflexivity|]. repeat split.
  intro t. unfold isHidden. simpl. rewrite existsb_app.
  rewrite orb_comm. f_equal.
  destruct (existsb (sameTile t) (domSortedTiles matchInfo)) eqn:E.
  - apply existsb_sameTile. apply in_rev. rewrite rev_involutive.
    now apply existsb_sameTile.
  - apply existsb_sameTile_false. intro H. apply in_rev in H.
    apply existsb_sameTile_false in E. contradiction.
Qed.

(** ** What bubbling leaves alone *)

Section BubblingFrame.

Variables rows cols : Z.

Lemma bubblingFrame_refl (a : GameArena) : bubblingFrame cols a a.
Proof. unfold bubblingFrame. repeat split; auto; lia. Qed.

Lemma bubblingFrame_trans (a b c : GameArena) :
  bubblingFrame cols a b -> bubblingFrame cols b c -> bubblingFrame cols a c.
Proof.
  intros [H1 [H2 [H3 [H4 [H5 [H6 H7]]]]]] [G1 [G2 [G3 [G4 [G5 [G6 G7]]]]]].
  unfold bubblingFrame. repeat split; try congruence.
  - intro H. apply H4. now apply G4.
  - intro H. apply G4. now apply H4.
  - intros u Hu. rewrite G5 by (now apply H4). now apply H5.
  - intros u Hu Hv. specialize (H6 u Hu Hv).
    assert (isHidden b u = false) by (rewrite (isHidden_same a b u H1); exact Hv).
    specialize (G6 u (proj2 (H4 u) Hu) H). lia.
  - intros u Hu Hv. specialize (H7 u Hu Hv).
    assert (isHidden b u = true) by (rewrite (isHidden_same a b u H1); exact Hv).
    specialize (G7 u (proj2 (H4 u) Hu) H). lia.
Qed.

(** One call of the callback, on a hidden entry. *)
Lemma bubbleTile_frame (a : GameArena) (fr : list GameTile) (t : GameTile) :
  wellFormed rows cols a = true -> In t (elemTiles a) ->
  isHidden a t = true ->
  exists a' fr',
    bubbleTile cols fr t a = (a', Ok fr') /\
    wellFormed rows cols a' = true /\ bubblingFrame cols a a' /\
    incl fr' fr.
Proof.
  intros Hwf Hin Hhid.
  destruct (wellFormed_elim rows cols a Hwf) as [Hc [Hlen Hnd]].
  destruct (bubbleTile_cases rows cols a fr t Hwf Hin)
    as [[Eb _] | [f [l' [Ee [Hf [Hfv [Eb [Hnd' [Hlen' [Ht' [Hf' [Hoth Hin']]]]]]]]]]]].
  - exists a, (detach t fr).
    split; [assumption|]. split; [assumption|].
    split; [apply bubblingFrame_refl | apply NoDup_detach_incl].
  - exists (setElemTiles l' a), fr. split; [assumption|].
    split; [apply wellFormed_intro; simpl; [assumption | lia | assumption]|].
    split; [|apply incl_refl].
    assert (Hft : f <> t) by (intros ->; congruence).
    unfold bubblingFrame. simpl elemTiles. repeat split.
    + apply Hin'.
    + apply Hin'.
    + intros u Hu. unfold colOf.
      destruct (Nat.eq_dec u t) as [->|Hut].
      * rewrite Ht'.
        replace (indexOf t (elemTiles a) - cols)
          with (indexOf t (elemTiles a) + (-1) * cols) by lia.
        apply Z.mod_add. lia.
      * destruct (Nat.eq_dec u f) as [->|Huf].
        -- rewrite Hf'. rewrite (indexOf_item _ _ _ Hnd Hf).
           replace (indexOf t (elemTiles a))
             with (indexOf t (elemTiles a) - cols + 1 * cols) at 1 by lia.
           apply Z.mod_add. lia.
        -- now rewrite Hoth.
    + intros u Hu Hv.
      destruct (Nat.eq_dec u t) as [->|Hut]; [congruence|].
      destruct (Nat.eq_dec u f) as [->|Huf].
      * rewrite Hf', (indexOf_item _ _ _ Hnd Hf). lia.
      * rewrite Hoth by assumption. lia.
    + intros u Hu Hv.
      destruct (Nat.eq_dec u t) as [->|Hut]; [rewrite Ht'; lia|].
      destruct (Nat.eq_dec u f) as [->|Huf]; [congruence|].
      rewrite Hoth by assumption. lia.
Qed.

Lemma forEachBubbling_frame :
  forall (entries : list GameTile) (a : GameArena) (fr : list GameTile),
    wellFormed rows cols a = true ->
    (forall t, In t entries -> In t (elemTiles a) /\ isHidden a t = true) ->
    exists a' fr',
      forEachBubbling cols entries fr a = (a', Ok fr') /\
      wellFormed rows cols a' = true /\ bubblingFrame cols a a' /\
      incl fr' fr.
Proof.
  induction entries as [|t rest IH]; intros a fr Hwf Hall.
  - exists a, fr. split; [reflexivity|]. split; [assumption|].
    split; [apply bubblingFrame_refl | apply incl_refl].
  - destruct (Hall t (or_introl eq_refl)) as [Hin Hhid].
    destruct (bubbleTile_frame a fr t Hwf Hin Hhid)
      as [a1 [fr1 [E1 [Hwf1 [Hfr1 Hi1]]]]].
    destruct (IH a1 fr1 Hwf1) as [a2 [fr2 [E2 [Hwf2 [Hfr2 Hi2]]]]].
    { intros u Hu. destruct (Hall u (or_intror Hu)) as [H1 H2].
      destruct Hfr1 as [G1 [_ [_ [G4 _]]]]. split; [now apply G4|].
      now rewrite (isHidden_same a a1 u G1). }
    exists a2, fr2. simpl forEachBubbling. unfold bind. rewrite E1, E2.
    split; [reflexivity|]. split; [assumption|]. split.
    + eapply bubblingFrame_trans; eassumption.
    + intros u Hu. apply Hi1. now apply Hi2.
Qed.

(** Whatever the number of passes allowed, the loop leaves alone what
    bubbling leaves alone. *)
Lemma bubbleLoop_frame :
  forall (fuel : nat) (a : GameArena) (fr : list GameTile),
    wellFormed rows cols a = true ->
    (forall t, In t fr -> In t (elemTiles a) /\ isHidden a t = true) ->
    wellFormed rows cols (fst (bubbleLoop cols fuel fr a)) = true /\
    bubblingFrame cols a (fst (bubbleLoop cols fuel fr a)).
Proof.
  induction fuel as [|fuel IH]; intros a [|t fr] Hwf Hall;
    try (split; [assumption | apply bubblingFrame_refl]).
  rewrite bubbleLoop_pass. unfold bind.
  destruct (forEachBubbling_frame (t :: fr) a (t :: fr) Hwf Hall)
    as [a1 [fr1 [E1 [Hwf1 [Hfr1 Hi1]]]]].
  rewrite E1.
  destruct (IH a1 fr1 Hwf1) as [H1 H2].
  { intros u Hu. destruct (Hall u (Hi1 u Hu)) as [G1 G2].
    destruct Hfr1 as [F1 [_ [_ [F4 _]]]]. split; [now apply F4|].
    now rewrite (isHidden_same a a1 u F1). }
  split; [assumption|]. eapply bubblingFrame_trans; eassumption.
Qed.

End BubblingFrame.

Lemma bubbleMatchToTopEdge_ok (rows cols : Z)
    (a : GameArena) (matchFixture : ComboMatchInfo) :
  wellFormed rows cols a = true ->
  (forall t, In t (domSortedTiles matchFixture) ->
     In t (elemTiles a) /\ isHidden a t = true) ->
  exists a',
    bubbleMatchToTopEdge rows cols matchFixture a = (a', Ok tt) /\
    wellFormed rows cols a' = true /\
    bubblingFrame cols a a'.
Proof.
  intros Hwf Hall.
  destruct (wellFormed_elim rows cols a Hwf) as [Hc [Hlen Hnd]].
  assert (Hall' : forall t, In t (newSet (domSortedTiles matchFixture)) ->
                    In t (elemTiles a) /\ isHidden a t = true).
  { intros t Ht. apply Hall. now apply (proj1 (In_newSet t _)). }
  unfold bubbleMatchToTopEdge.
  destruct (bubbleLoop_terminates rows cols (Z.to_nat rows) a
              (newSet (domSortedTiles matchFixture)) Hwf (NoDup_newSet _))
    as [a' [E _]].
  { intros u Hu. destruct (Hall' u Hu) as [H1 H2].
    repeat split; try assumption.
    pose proof (indexOf_In u _ H1) as Hr.
    assert (0 <= rows) by nia. rewrite Z2Nat.id by assumption. lia. }
  destruct (bubbleLoop_frame rows cols (Z.to_nat rows) a _ Hwf Hall')
    as [H1 H2].
  rewrite E in *. simpl in H1, H2. exists a'.
  split; [reflexivity | split; assumption].
Qed.

(** X7: for a well-formed board and a combo of hidden tiles of the board,
    [#bubbleMatchToTopEdge] returns and only reorders the board inside its
    columns: the board holds the same tiles and stays well-formed, every
    tile keeps its column, no visible tile moves up and no hidden tile moves
    down; the hidden flags, the selection and the timeouts are untouched. *)
Theorem bubbleMatchToTopEdge_stays_in_columns (rows cols : Z)
    (a : GameArena) (matchFixture : ComboMatchInfo) :
  wellFormed rows cols a = true ->
  (forall t, In t (domSortedTiles matchFixture) ->
     In t (elemTiles a) /\ isHidden a t = true) ->
  exists a',
    bubbleMatchToTopEdge rows cols matchFixture a = (a', Ok tt) /\
    wellFormed rows cols a' = true /\
    bubblingFrame cols a a'.
Proof. apply bubbleMatchToTopEdge_ok. Qed.

(** X7 on [rowBoard]. *)
Lemma bubbleMatchToTopEdge_stays_in_columns_witness :
  exists a',
    bubbleMatchToTopEdge 3 3 (mkCombo [7%nat; 8%nat; 9%nat]) rowBoard
      = (a', Ok tt) /\
    wellFormed 3 3 a' = true /\
    bubblingFrame 3 rowBoard a'.
Proof.
  apply (bubbleMatchToTopEdge_stays_in_columns 3 3 rowBoard
           (mkCombo [7%nat; 8%nat; 9%nat])).
  - reflexivity.
  - simpl. intros t [<-|[<-|[<-|[]]]]; split; auto 10.
Defined.

(** ** The arena between two events *)

Lemma In_newComboMatchInfo (tiles : list GameTile)
    (m1 m2 : option MatchInfo) (x : GameTile) :
  In x (domSortedTiles (newComboMatchInfo tiles m1 m2))
  <-> In x (matchInfoTiles m1) \/ In x (matchInfoTiles m2).
Proof.
  unfold newComboMatchInfo. simpl.
  rewrite In_sortByIndex, In_newSet, in_app_iff. tauto.
Qed.

Lemma wellFormed_same_tiles (rows cols : Z) (a a' : GameArena) :
  elemTiles a' = elemTiles a ->
  wellFormed rows cols a' = wellFormed rows cols a.
Proof. unfold wellFormed. now intros ->. Qed.

Section Events.

Variables rows cols : Z.
Variable typeOf : GameTile -> Z.

(** The tiles of a match around a tile of the board are tiles of the
    board. *)
Lemma detectMatchXY_on_board (a : GameArena) (t : GameTile) :
  wellFormed rows cols a = true -> In t (elemTiles a) ->
  exists r, detectMatchXY rows cols typeOf a t = Ok r /\
    forall u, In u (matchInfoTiles r) -> In u (elemTiles a).
Proof.
  intros Hwf Hin. destruct (wellFormed_elim rows cols a Hwf) as [Hc [Hlen Hnd]].
  destruct (detectMatchXY_ok rows cols typeOf a t Hwf Hin)
    as [m [r [_ [Er [Hm Hax]]]]].
  exists r. split; [assumption|].
  assert (Hrun : forall dir u, In u (onDirection m dir) -> In u (elemTiles a)).
  { intros dir u Hu.
    destruct (walkedFrom_positions rows cols typeOf a dir _ _ _ Hnd (Hm dir))
      as [_ Hf].
    rewrite Forall_forall in Hf. now destruct (Hf u Hu). }
  destruct r as [mi|]; [|intros u []].
  destruct (Hax mi eq_refl) as [Hx Hy]. intros u Hu. simpl in Hu.
  apply in_app_iff in Hu. destruct Hu as [Hu|Hu].
  - destruct (alongX mi) as [xs|]; [|destruct Hu].
    destruct (Hx xs eq_refl) as [-> _].
    apply (proj1 (In_sortByIndex _ _ _)) in Hu. apply in_app_iff in Hu.
    destruct Hu as [Hu|[<-|Hu]];
      [apply (Hrun DLeft) | | apply (Hrun DRight)]; assumption.
  - destruct (alongY mi) as [ys|]; [|destruct Hu].
    destruct (Hy ys eq_refl) as [-> _].
    apply (proj1 (In_sortByIndex _ _ _)) in Hu. apply in_app_iff in Hu.
    destruct Hu as [Hu|[<-|Hu]];
      [apply (Hrun DUp) | | apply (Hrun DDown)]; assumption.
Qed.

(** With both fields of the selection set to tiles of a well-formed board,
    the match calculation returns, and a combo holds tiles of the board. *)
Lemma calculateMatchByUserSelection_on_board (a : GameArena)
    (p t : GameTile) :
  wellFormed rows cols a = true ->
  elemPickedTile a = Some p -> elemTargetTile a = Some t ->
  In p (elemTiles a) -> In t (elemTiles a) ->
  exists r, calculateMatchByUserSelection rows cols typeOf a = Ok r /\
    forall combo, r = Some combo ->
      forall u, In u (domSortedTiles combo) -> In u (elemTiles a).
Proof.
  intros Hwf Ep Et Hp Ht.
  destruct (detectMatchXY_on_board a p Hwf Hp) as [r1 [E1 H1]].
  destruct (detectMatchXY_on_board a t Hwf Ht) as [r2 [E2 H2]].
  unfold calculateMatchByUserSelection. rewrite Ep, Et. simpl.
  rewrite E1, E2. simpl. eexists. split; [reflexivity|].
  intros combo Hc u Hu.
  assert (Hu' : In u (domSortedTiles (newComboMatchInfo (elemTiles a) r1 r2))).
  { destruct r1, r2; try discriminate; injection Hc as <-; exact Hu. }
  apply In_newComboMatchInfo in Hu'. destruct Hu'; auto.
Qed.

Lemma isHidden_hideMatch_state (l : list GameTile) (a : GameArena)
    (u : GameTile) :
  isHidden (setHiddenTiles (rev l ++ hiddenTiles a) a) u
  = isHidden a u || existsb (sameTile u) l.
Proof.
  unfold isHidden. simpl. rewrite existsb_app.
  rewrite orb_comm. f_equal.
  destruct (existsb (sameTile u) l) eqn:E.
  - apply existsb_sameTile. apply in_rev. rewrite rev_involutive.
    now apply existsb_sameTile.
  - apply existsb_sameTile_false. intro H. apply in_rev in H.
    apply existsb_sameTile_false in E. contradiction.
Qed.

(** What [#handleUserSuccessSelection] leaves. *)
Lemma handleUserSuccessSelection_ok (a : GameArena)
    (matchInfo : ComboMatchInfo) :
  wellFormed rows cols a = true ->
  (forall u, In u (domSortedTiles matchInfo) -> In u (elemTiles a)) ->
  exists a',
    handleUserSuccessSelection rows cols matchInfo a = (a', Ok tt) /\
    wellFormed rows cols a' = true /\
    selection a' = (None, None) /\
    badSwapTimers a' = badSwapTimers a /\
    (forall u, In u (elemTiles a') <-> In u (elemTiles a)) /\
    (forall u, isHidden a' u
               = isHidden a u
                 || existsb (sameTile u) (domSortedTiles matchInfo)) /\
    (forall u, In u (elemTiles a) ->
       colOf cols (indexOf u (elemTiles a'))
       = colOf cols (indexOf u (elemTiles a))).
Proof.
  intros Hwf Hon.
  unfold handleUserSuccessSelection, bind, resetUserSelection, hideMatch,
    modify.
  rewrite fold_setHidden.
  set (a4 := setHiddenTiles _ _).
  assert (Hwf4 : wellFormed rows cols a4 = true) by exact Hwf.
  destruct (bubbleMatchToTopEdge_ok rows cols a4 matchInfo Hwf4)
    as [a' [E [Hwf' [F1 [F2 [F3 [F4 [F5 _]]]]]]]].
  { intros t Ht. split; [exact (Hon t Ht)|].
    unfold a4. rewrite isHidden_hideMatch_state.
    apply orb_true_iff. right. now apply existsb_sameTile. }
  rewrite E. exists a'. split; [reflexivity|]. split; [assumption|].
  split; [exact F2|]. split; [exact F3|]. split; [exact F4|].
  split; [|exact F5].
  intro u. rewrite (isHidden_same a4 a' u F1). unfold a4.
  now rewrite isHidden_hideMatch_state.
Qed.

Lemma arenaInvariant_same_board (a a' : GameArena) :
  arenaInvariant rows cols a ->
  wellFormed rows cols a' = true ->
  (forall u, In u (elemTiles a') <-> In u (elemTiles a)) ->
  selection a' = selection a \/ selection a' = (None, None) ->
  arenaInvariant rows cols a'.
Proof.
  intros [_ [Hp Ht]] Hwf Hin Hsel. split; [assumption|].
  unfold selection in Hsel.
  destruct Hsel as [E|E]; injection E as E1 E2; rewrite E1, E2.
  - split.
    + intros p Ep. apply Hin. now apply Hp.
    + intros t Et. destruct (Ht t Et) as [H1 H2]. split; [now apply Hin|].
      exact H2.
  - split; intros ? ?; discriminate.
Qed.

(** A click on a tile of the board, in a state between two events: the
    handler returns, and leaves such a state with the same tiles. *)
Lemma tileClickHandler_safe (a : GameArena) (c : GameTile) :
  arenaInvariant rows cols a -> In c (elemTiles a) ->
  exists a',
    tileClickHandler rows cols typeOf c a = (a', Ok tt) /\
    arenaInvariant rows cols a' /\
    (forall u, In u (elemTiles a') <-> In u (elemTiles a)) /\
    (forall u, isHidden a u = true -> isHidden a' u = true).
Proof.
  intros [Hwf [Hp Ht]] Hc.
  destruct (wellFormed_elim rows cols a Hwf) as [Hcols [Hlen Hnd]].
  unfold tileClickHandler, bind.
  destruct (manageAndValidateSelection_cases cols typeOf c a)
    as [a1 [x [E [Etiles [Ehid [_ Hcase]]]]]].
  rewrite E.
  assert (Hwf1 : wellFormed rows cols a1 = true)
    by (now rewrite (wellFormed_same_tiles rows cols a a1 Etiles)).
  assert (Hsame : forall u, In u (elemTiles a1) <-> In u (elemTiles a))
    by (intro u; now rewrite Etiles).
  assert (Hhid1 : forall u, isHidden a u = true -> isHidden a1 u = true)
    by (intros u Hu; now rewrite (isHidden_same a a1 u Ehid)).
  destruct Hcase as [[-> [Et1 Hp1]] | [[p [d [-> [Ep [Eta [Hpc [Hty [Hside ->]]]]]]]] | [-> [Ep [Ep1 Et1]]]]].
  - exists a1. repeat split; try assumption; try (now apply Hsame).
    + intros q Eq. rewrite Etiles.
      destruct Hp1 as [H|[H _]]; congruence.
    + congruence.
    + congruence.
  - pose proof (Hp p Ep) as Hpin.
    set (a1 := setSelection (Some p) (Some c) a) in *.
    assert (Hidx : indexOf p (elemTiles a1) <> indexOf c (elemTiles a1)).
    { intro Heq. pose proof (item_indexOf p _ Hpin) as H1.
      pose proof (item_indexOf c _ Hc) as H2.
      simpl in Heq. rewrite Heq in H1. congruence. }
    destruct (swapTiles_exchanges a1 _ _ p c Hnd
                (item_indexOf p _ Hpin) (item_indexOf c _ Hc) Hidx)
      as [l' [Es [Hnd' [Hlen' [_ [_ [_ Hin']]]]]]].
    assert (Esw : swapUserSelectedTiles a1 = (setElemTiles l' a1, Ok tt))
      by exact Es.
    rewrite Esw. unfold read.
    set (a2 := setElemTiles l' a1) in *.
    assert (Hwf2 : wellFormed rows cols a2 = true).
    { apply wellFormed_intro; simpl; [assumption | | assumption].
      rewrite Hlen'. exact Hlen. }
    destruct (calculateMatchByUserSelection_on_board a2 p c Hwf2
                eq_refl eq_refl (proj2 (Hin' p) Hpin) (proj2 (Hin' c) Hc))
      as [r [Er Hon]].
    rewrite Er. destruct r as [combo|].
    + destruct (handleUserSuccessSelection_ok a2 combo Hwf2 (Hon combo eq_refl))
        as [a' [Eh [Hwf' [Hsel [_ [Hin2 [Hhid _]]]]]]].
      rewrite Eh. exists a'. split; [reflexivity|].
      assert (Hall : forall u, In u (elemTiles a') <-> In u (elemTiles a)).
      { intro u. rewrite Hin2. apply Hin'. }
      split; [|split; [exact Hall|]].
      * split; [assumption|]. unfold selection in Hsel.
        injection Hsel as E1 E2. rewrite E1, E2.
        split; intros ? ?; discriminate.
      * intros u Hu. rewrite Hhid. apply orb_true_iff. left. exact Hu.
    + exists (setBadSwapTimers (S (badSwapTimers a2)) a2).
      split; [reflexivity|]. split; [|split].
      * split; [exact Hwf2|]. simpl. split.
        -- intros q Eq. injection Eq as <-. now apply Hin'.
        -- intros q Eq. injection Eq as <-. split; [now apply Hin'|].
           exists p. now split.
      * intro u. simpl. apply Hin'.
      * intros u Hu. exact Hu.
  - exists a1. repeat split; try assumption; try (now apply Hsame).
    + intros q Eq. rewrite Etiles. congruence.
    + rewrite Et1 in H. destruct (Ht t H) as [_ [q [Eq _]]]. congruence.
    + rewrite Et1 in H. destruct (Ht t H) as [_ [q [Eq _]]]. congruence.
Qed.

(** [#swapTiles] reads and writes the order of the children only. *)
Lemma swapTiles_tiles_only (x y : GameTile) (a b : GameArena) :
  elemTiles b = elemTiles a ->
  swapTiles x y b
  = (setElemTiles (elemTiles (fst (swapTiles x y a))) b,
     snd (swapTiles x y a)).
Proof.
  intro E. unfold swapTiles. rewrite E.
  destruct (_ <? _); simpl; destruct (item _ _); reflexivity.
Qed.

(** A timeout, in a state between two events. *)
Lemma badSwapTimeout_safe (a : GameArena) :
  arenaInvariant rows cols a ->
  exists a' r,
    dispatch rows cols typeOf BadSwapTimeout a = (a', r) /\
    handled BadSwapTimeout r /\
    arenaInvariant rows cols a' /\
    (forall u, In u (elemTiles a') <-> In u (elemTiles a)) /\
    hiddenTiles a' = hiddenTiles a.
Proof.
  intros Hinv. simpl dispatch.
  destruct (badSwapTimers a) as [|n] eqn:En.
  - exists a, (Ok tt). split; [reflexivity|]. split; [now left|].
    split; [exact Hinv|]. split; [tauto | reflexivity].
  - set (b := setBadSwapTimers n a).
    assert (Hb : arenaInvariant rows cols b) by exact Hinv.
    destruct Hb as [Hwf [Hp Ht]].
    destruct (wellFormed_elim rows cols b Hwf) as [Hcols [Hlen Hnd]].
    unfold badSwapTimeoutCallback, bind, swapUserSelectedTiles.
    destruct (elemPickedTile b) as [p|] eqn:Ep.
    + destruct (elemTargetTile b) as [t|] eqn:Et.
      * destruct (Ht t eq_refl) as [Htin [q [Eq Hqt]]].
        injection Eq as <-. pose proof (Hp p eq_refl) as Hpin.
        assert (Hidx : indexOf p (elemTiles b) <> indexOf t (elemTiles b)).
        { intro Heq. pose proof (item_indexOf p _ Hpin) as H1.
          pose proof (item_indexOf t _ Htin) as H2.
          rewrite Heq in H1. congruence. }
        destruct (swapTiles_exchanges b _ _ p t Hnd
                    (item_indexOf p _ Hpin) (item_indexOf t _ Htin) Hidx)
          as [l' [Es [Hnd' [Hlen' [_ [_ [_ Hin']]]]]]].
        rewrite Es. eexists _, _. split; [reflexivity|].
        split; [now left|]. split; [|split; [exact Hin' | reflexivity]].
        split; [|split; intros ? H; discriminate H].
        apply wellFormed_intro; simpl; [assumption | | assumption].
        rewrite Hlen'. exact Hlen.
      * exists b, (Throw DeveloperError). split; [reflexivity|].
        split; [now right|]. split; [exact Hinv|]. split; [tauto | reflexivity].
    + exists b, (Throw DeveloperError).
      split; [now destruct (elemTargetTile b)|].
      split; [now right|]. split; [exact Hinv|]. split; [tauto | reflexivity].
Qed.

Lemma runEvents_safe (evs : list event) :
  forall a,
    arenaInvariant rows cols a -> clicksOn (elemTiles a) evs ->
    arenaInvariant rows cols (fst (runEvents rows cols typeOf evs a)) /\
    Forall2 handled evs (snd (runEvents rows cols typeOf evs a)) /\
    (forall u, In u (elemTiles (fst (runEvents rows cols typeOf evs a)))
               <-> In u (elemTiles a)) /\
    (forall u, isHidden a u = true ->
       isHidden (fst (runEvents rows cols typeOf evs a)) u = true).
Proof.
  induction evs as [|ev evs IH]; intros a Hinv Hcl.
  - simpl. split; [exact Hinv|]. split; [constructor|]. split; tauto.
  - assert (Hstep : exists a1 r,
              dispatch rows cols typeOf ev a = (a1, r) /\ handled ev r /\
              arenaInvariant rows cols a1 /\
              (forall u, In u (elemTiles a1) <-> In u (elemTiles a)) /\
              (forall u, isHidden a u = true -> isHidden a1 u = true)).
    { destruct ev as [c|].
      - destruct (tileClickHandler_safe a c Hinv (Hcl c (or_introl eq_refl)))
          as [a1 [E [H1 [H2 H3]]]].
        exists a1, (Ok tt). split; [assumption|]. split; [reflexivity|].
        split; [assumption|]. split; assumption.
      - destruct (badSwapTimeout_safe a Hinv) as [a1 [r [E [H1 [H2 [H3 H4]]]]]].
        exists a1, r. split; [assumption|]. split; [assumption|].
        split; [assumption|]. split; [assumption|].
        intros u Hu. now rewrite (isHidden_same a a1 u H4). }
    destruct Hstep as [a1 [r [E [Hr [Hinv1 [Hin1 Hhid1]]]]]].
    destruct (IH a1 Hinv1) as [G1 [G2 [G3 G4]]].
    { intros c Hc. apply Hin1. apply Hcl. now right. }
    simpl runEvents. rewrite E.
    destruct (runEvents rows cols typeOf evs a1) as [a2 rs]. simpl in *.
    split; [assumption|]. split; [now constructor|]. split.
    + intro u. rewrite G3. apply Hin1.
    + intros u Hu. apply G4. now apply Hhid1.
Qed.

End Events.

(** X8: in every sequence of clicks on tiles of the board and of timeouts,
    started in a well-formed state, every click handler returns normally and
    a timeout callback returns or raises the developer error: no property is
    ever read on [null] and no index leaves the board.  After every event
    the board is well-formed and holds the same tiles, the selected tiles
    are tiles of the board, and a hidden tile stays hidden. *)
Theorem runEvents_safe_on_board (rows cols : Z) (typeOf : GameTile -> Z)
    (evs : list event) (a : GameArena) :
  arenaInvariant rows cols a -> clicksOn (elemTiles a) evs ->
  arenaInvariant rows cols (fst (runEvents rows cols typeOf evs a)) /\
  Forall2 handled evs (snd (runEvents rows cols typeOf evs a)) /\
  (forall u, In u (elemTiles (fst (runEvents rows cols typeOf evs a)))
             <-> In u (elemTiles a)) /\
  (forall u, isHidden a u = true ->
     isHidden (fst (runEvents rows cols typeOf evs a)) u = true).
Proof. apply runEvents_safe. Qed.

(** X8 on [plainBoard], for a swap that makes a match, a click and a late
    timeout. *)
Lemma runEvents_safe_on_board_witness :
  let evs := [Click 6%nat; Click 5%nat; Click 1%nat; BadSwapTimeout] in
  arenaInvariant 3 3 (fst (runEvents 3 3 crossTypes evs plainBoard)) /\
  Forall2 handled evs (snd (runEvents 3 3 crossTypes evs plainBoard)) /\
  (forall u, In u (elemTiles (fst (runEvents 3 3 crossTypes evs plainBoard)))
             <-> In u (elemTiles plainBoard)) /\
  (forall u, isHidden plainBoard u = true ->
     isHidden (fst (runEvents 3 3 crossTypes evs plainBoard)) u = true).
Proof.
  apply (runEvents_safe_on_board 3 3 crossTypes
           [Click 6%nat; Click 5%nat; Click 1%nat; BadSwapTimeout] plainBoard).
  - split; [reflexivity|]. split; intros ? H; discriminate H.
  - intros c Hc. simpl in Hc.
    destruct Hc as [H|[H|[H|[H|[]]]]]; try discriminate H;
      injection H as <-; simpl; auto 10.
Defined.

(** ** The revert of a bad swap *)

Section Revert.

Variables rows cols : Z.
Variable typeOf : GameTile -> Z.

Lemma bad_swap_reverted (a : GameArena) (c : GameTile) (a2 : GameArena) :
  arenaInvariant rows cols a -> In c (elemTiles a) ->
  tileClickHandler rows cols typeOf c a = (a2, Ok tt) ->
  badSwapTimers a2 = S (badSwapTimers a) ->
  (exists p,
     elemPickedTile a = Some p /\ selection a2 = (Some p, Some c) /\
     indexOf p (elemTiles a2) = indexOf c (elemTiles a) /\
     indexOf c (elemTiles a2) = indexOf p (elemTiles a) /\
     hiddenTiles a2 = hiddenTiles a) /\
  dispatch rows cols typeOf BadSwapTimeout a2
  = (setSelection None None a, Ok tt).
Proof.
  intros [Hwf [Hp Ht]] Hc Eh Htm.
  destruct (wellFormed_elim rows cols a Hwf) as [Hcols [Hlen Hnd]].
  unfold tileClickHandler, bind in Eh.
  destruct (manageAndValidateSelection_cases cols typeOf c a)
    as [a1 [x [E [Etiles [Ehid [Etm Hcase]]]]]].
  rewrite E in Eh.
  destruct Hcase as [[-> _] | [[p [d [-> [Ep [Eta [Hpc [Hty [Hside ->]]]]]]]] | [-> _]]].
  - injection Eh as <-. lia.
  - pose proof (Hp p Ep) as Hpin.
    set (a1 := setSelection (Some p) (Some c) a) in *.
    assert (Hidx : indexOf p (elemTiles a1) <> indexOf c (elemTiles a1)).
    { intro Heq. pose proof (item_indexOf p _ Hpin) as H1.
      pose proof (item_indexOf c _ Hc) as H2.
      simpl in Heq. rewrite Heq in H1. congruence. }
    destruct (swapTiles_exchanges a1 _ _ p c Hnd
                (item_indexOf p _ Hpin) (item_indexOf c _ Hc) Hidx)
      as [l' [Es [Hnd' [Hlen' [I1 [I2 [_ Hin']]]]]]].
    destruct (swapTiles_undo a1 _ _ p c Hnd
                (item_indexOf p _ Hpin) (item_indexOf c _ Hc) Hidx)
      as [a1' [Es1 [Es2 _]]].
    assert (Ea1' : a1' = setElemTiles l' a1) by congruence. subst a1'.
    assert (Esw : swapUserSelectedTiles a1 = (setElemTiles l' a1, Ok tt))
      by exact Es.
    rewrite Esw in Eh. unfold read in Eh.
    set (b := setElemTiles l' a1) in *.
    assert (Hwfb : wellFormed rows cols b = true).
    { apply wellFormed_intro; simpl; [assumption | | assumption].
      rewrite Hlen'. exact Hlen. }
    destruct (calculateMatchByUserSelection_on_board rows cols typeOf b p c
                Hwfb eq_refl eq_refl (proj2 (Hin' p) Hpin)
                (proj2 (Hin' c) Hc)) as [r [Er Hon]].
    rewrite Er in Eh. destruct r as [combo|].
    + destruct (handleUserSuccessSelection_ok rows cols b combo Hwfb
                  (Hon combo eq_refl)) as [a' [Eh' [_ [_ [Htm' _]]]]].
      rewrite Eh' in Eh. injection Eh as <-. simpl in Htm'. lia.
    + unfold handleUserBadSelection, modify in Eh. injection Eh as <-.
      split.
      * exists p. repeat split; assumption.
      * assert (G : forall b2,
                  elemTiles b2 = elemTiles b ->
                  elemPickedTile b2 = Some p -> elemTargetTile b2 = Some c ->
                  badSwapTimeoutCallback b2
                  = (setSelection None None (setElemTiles (elemTiles a1) b2),
                     Ok tt)).
        { intros b2 H1 H2 H3.
          unfold badSwapTimeoutCallback, bind, swapUserSelectedTiles.
          rewrite H2, H3, (swapTiles_tiles_only p c b b2 H1), Es2.
          reflexivity. }
        change (dispatch rows cols typeOf BadSwapTimeout
                  (setBadSwapTimers (S (badSwapTimers a)) b))
          with (badSwapTimeoutCallback
                  (setBadSwapTimers (badSwapTimers a)
                     (setBadSwapTimers (S (badSwapTimers a)) b))).
        rewrite G by reflexivity. destruct a. reflexivity.
  - injection Eh as <-. lia.
Qed.

End Revert.

(** X9: when the handler of a click on a tile of the board ends with a
    revert scheduled (the swap made no match), the two tiles of the
    selection have changed places, and the timeout that fires next, with no
    click in between, returns normally and leaves the arena exactly as it
    was before the click, with nothing selected. *)
Theorem bad_swap_then_timeout_restores (rows cols : Z)
    (typeOf : GameTile -> Z) (a : GameArena) (c : GameTile)
    (a2 : GameArena) :
  arenaInvariant rows cols a -> In c (elemTiles a) ->
  tileClickHandler rows cols typeOf c a = (a2, Ok tt) ->
  badSwapTimers a2 = S (badSwapTimers a) ->
  (exists p,
     elemPickedTile a = Some p /\ selection a2 = (Some p, Some c) /\
     indexOf p (elemTiles a2) = indexOf c (elemTiles a) /\
     indexOf c (elemTiles a2) = indexOf p (elemTiles a) /\
     hiddenTiles a2 = hiddenTiles a) /\
  dispatch rows cols typeOf BadSwapTimeout a2
  = (setSelection None None a, Ok tt).
Proof. apply bad_swap_reverted. Qed.

(** X9 on [pickedBoard], for the click on tile 2. *)
Lemma bad_swap_then_timeout_restores_witness :
  (exists p,
     elemPickedTile pickedBoard = Some p /\
     selection (fst (tileClickHandler 3 3 ownType 2%nat pickedBoard))
       = (Some p, Some 2%nat) /\
     indexOf p (elemTiles (fst (tileClickHandler 3 3 ownType 2%nat pickedBoard)))
       = indexOf 2%nat (elemTiles pickedBoard) /\
     indexOf 2%nat
       (elemTiles (fst (tileClickHandler 3 3 ownType 2%nat pickedBoard)))
       = indexOf p (elemTiles pickedBoard) /\
     hiddenTiles (fst (tileClickHandler 3 3 ownType 2%nat pickedBoard))
       = hiddenTiles pickedBoard) /\
  dispatch 3 3 ownType BadSwapTimeout
    (fst (tileClickHandler 3 3 ownType 2%nat pickedBoard))
  = (setSelection None None pickedBoard, Ok tt).
Proof.
  apply (bad_swap_then_timeout_restores 3 3 ownType pickedBoard 2%nat).
  - split; [reflexivity|]. split.
    + intros p H. injection H as <-. simpl. tauto.
    + intros t H. discriminate H.
  - simpl. tauto.
  - reflexivity.
  - reflexivity.
Defined.

(** ** How far a walk goes *)

Section WalkLength.

Variables rows cols : Z.
Variable typeOf : GameTile -> Z.

Lemma walk_start (idx d : Z) : idx + Z.of_nat 0 * d = idx.
Proof. lia. Qed.

Lemma walk_next (idx d : Z) (k : nat) :
  idx + Z.of_nat (S k) * d = idx + d + Z.of_nat k * d.
Proof. lia. Qed.

(** A walk yields a tile for every step up to the first one that starts on
    an edge or lands on a tile that is hidden or of another type. *)
Lemma seekInDirection_exact (a : GameArena) (dir : direction) (ty : Z) :
  wellFormed rows cols a = true ->
  forall (fuel : nat) (idx : Z),
    0 <= idx < rows * cols ->
    (stepsLeft rows cols dir idx < fuel)%nat ->
    exists run,
      seekInDirection rows cols typeOf fuel a dir ty idx = Ok run /\
      (forall k : nat, (k < length run)%nat ->
         fst (matchSeekHelpersMap rows cols dir)
             (idx + Z.of_nat k * delta cols dir) = false /\
         visibleOfType typeOf a ty
             (idx + Z.of_nat (S k) * delta cols dir) = true) /\
      (fst (matchSeekHelpersMap rows cols dir)
           (idx + Z.of_nat (length run) * delta cols dir) = true \/
       visibleOfType typeOf a ty
           (idx + Z.of_nat (S (length run)) * delta cols dir) = false).
Proof.
  intro Hwf. destruct (wellFormed_elim rows cols a Hwf) as [Hc [Hlen Hnd]].
  induction fuel as [|fuel IH]; intros idx Hi Hf; [lia|].
  cbn [seekInDirection].
  pose proof (step_inside rows cols dir idx Hc Hi) as Hs.
  destruct (matchSeekHelpersMap rows cols dir) as [edge step] eqn:Eh.
  cbn [fst snd] in *.
  destruct (edge idx) eqn:Ee.
  - exists []. split; [reflexivity|]. split.
    + intros k Hk. cbn [length] in Hk. lia.
    + left. cbn [length]. now rewrite walk_start.
  - destruct (Hs eq_refl) as [Es [Hr Hl]].
    rewrite Es.
    destruct (item_range (idx + delta cols dir) (elemTiles a) ltac:(lia))
      as [t Ht].
    rewrite Ht. destruct (isInMatch typeOf a t ty) eqn:Em.
    + pose proof (stepsLeft_step rows cols dir idx Hc Hi Hr Hl) as Hm.
      destruct (IH (idx + delta cols dir) Hr ltac:(lia))
        as [run [Er [Hyes Hstop]]].
      rewrite Er. cbn [rbind]. exists (t :: run). split; [reflexivity|].
      split.
      * intros [|k] Hk.
        -- rewrite walk_start, walk_next, walk_start. split; [assumption|].
           unfold visibleOfType. now rewrite Ht.
        -- cbn [length] in Hk. destruct (Hyes k ltac:(lia)) as [H1 H2].
           rewrite (walk_next idx _ k), (walk_next idx _ (S k)). now split.
      * cbn [length].
        rewrite (walk_next idx _ (length run)),
          (walk_next idx _ (S (length run))).
        exact Hstop.
    + exists []. split; [reflexivity|]. split.
      * intros k Hk. cbn [length] in Hk. lia.
      * right. cbn [length]. rewrite walk_next, walk_start.
        unfold visibleOfType. now rewrite Ht.
Qed.

(** The length of the run of a walk, read off the board. *)
Lemma seekInDirection_length (a : GameArena) (dir : direction) (ty idx : Z) :
  wellFormed rows cols a = true ->
  0 <= idx < rows * cols ->
  exists run,
    seekInDirection rows cols typeOf (seekFuel a) a dir ty idx = Ok run /\
    forall k : nat,
      (k <= length run)%nat <->
      (forall j : nat, (j < k)%nat ->
         fst (matchSeekHelpersMap rows cols dir)
             (idx + Z.of_nat j * delta cols dir) = false /\
         visibleOfType typeOf a ty
             (idx + Z.of_nat (S j) * delta cols dir) = true).
Proof.
  intros Hwf Hi.
  destruct (seekInDirection_exact a dir ty Hwf (seekFuel a) idx Hi
              (seekInDirection_fuel rows cols a dir idx Hwf Hi))
    as [run [Er [Hyes Hstop]]].
  exists run. split; [assumption|]. intro k. split.
  - intros Hk j Hj. apply Hyes. lia.
  - intro Hall. destruct (Nat.le_gt_cases k (length run)) as [|Hlt];
      [assumption|exfalso].
    destruct (Hall (length run) Hlt) as [H1 H2].
    destruct Hstop; congruence.
Qed.

Lemma seekInDirection_length_1_2 (a : GameArena) (dir : direction)
    (ty idx : Z) :
  wellFormed rows cols a = true ->
  0 <= idx < rows * cols ->
  exists run,
    seekInDirection rows cols typeOf (seekFuel a) a dir ty idx = Ok run /\
    ((1 <= length run)%nat <->
     fst (matchSeekHelpersMap rows cols dir) idx = false /\
     visibleOfType typeOf a ty (idx + delta cols dir) = true) /\
    ((2 <= length run)%nat <->
     fst (matchSeekHelpersMap rows cols dir) idx = false /\
     visibleOfType typeOf a ty (idx + delta cols dir) = true /\
     fst (matchSeekHelpersMap rows cols dir) (idx + delta cols dir) = false /\
     visibleOfType typeOf a ty (idx + delta cols dir + delta cols dir) = true).
Proof.
  intros Hwf Hi.
  destruct (seekInDirection_length a dir ty idx Hwf Hi) as [run [Er Hk]].
  exists run. split; [assumption|].
  set (d := delta cols dir) in *.
  assert (E0 : idx + Z.of_nat 0 * d = idx) by lia.
  assert (E1 : idx + Z.of_nat 1 * d = idx + d) by lia.
  assert (E2 : idx + Z.of_nat 2 * d = idx + d + d) by lia.
  split.
  - rewrite (Hk 1%nat). split.
    + intro H. specialize (H 0%nat ltac:(lia)). now rewrite E0, E1 in H.
    + intros H j Hj. assert (j = 0%nat) by lia. subst j. now rewrite E0, E1.
  - rewrite (Hk 2%nat). split.
    + intro H. pose proof (H 0%nat ltac:(lia)) as H0.
      pose proof (H 1%nat ltac:(lia)) as H1.
      rewrite E0, E1 in H0. rewrite E1, E2 in H1. tauto.
    + intros H j Hj.
      assert (Hj' : j = 0%nat \/ j = 1%nat) by lia.
      destruct Hj' as [-> | ->]; [rewrite E0, E1 | rewrite E1, E2]; tauto.
Qed.

End WalkLength.

(** X10: on a well-formed board a directional walk never stops early: its
    run has at least [k] tiles exactly when none of the first [k] steps
    starts on the edge of its direction and each of them lands on a visible
    tile of the type looked for.  So the run is the whole stretch of
    matching tiles next to the start, up to the first edge, hidden tile or
    tile of another type. *)
Theorem seekInDirection_never_stops_early (rows cols : Z)
    (typeOf : GameTile -> Z) (a : GameArena) (dir : direction) (ty idx : Z) :
  wellFormed rows cols a = true ->
  0 <= idx < rows * cols ->
  exists run,
    seekInDirection rows cols typeOf (seekFuel a) a dir ty idx = Ok run /\
    forall k : nat,
      (k <= length run)%nat <->
      (forall j : nat, (j < k)%nat ->
         fst (matchSeekHelpersMap rows cols dir)
             (idx + Z.of_nat j * delta cols dir) = false /\
         visibleOfType typeOf a ty
             (idx + Z.of_nat (S j) * delta cols dir) = true).
Proof. apply seekInDirection_length. Qed.

(** X10 on the board of the scenario, walking left from index 24. *)
Lemma seekInDirection_never_stops_early_witness :
  exists run,
    seekInDirection 7 7 scenarioTypes (seekFuel scenarioBoard) scenarioBoard
      DLeft 1 24 = Ok run /\
    forall k : nat,
      (k <= length run)%nat <->
      (forall j : nat, (j < k)%nat ->
         fst (matchSeekHelpersMap 7 7 DLeft)
             (24 + Z.of_nat j * delta 7 DLeft) = false /\
         visibleOfType scenarioTypes scenarioBoard 1
             (24 + Z.of_nat (S j) * delta 7 DLeft) = true).
Proof.
  apply (seekInDirection_never_stops_early 7 7 scenarioTypes scenarioBoard
           DLeft 1 24).
  - reflexivity.
  - lia.
Defined.

(** ** Detection finds the runs of three *)

Section RunsOfThree.

Variables rows cols : Z.
Variable typeOf : GameTile -> Z.
Hypothesis cols_pos : 0 < cols.

Lemma rowOf_mono (s s' : Z) : s <= s' -> rowOf cols s <= rowOf cols s'.
Proof. intro H. unfold rowOf. now apply Z.div_le_mono. Qed.

Lemma edgeLeft_false (s : Z) :
  0 <= s ->
  BoardWalker.detectEdgeLeft cols s = false <->
  1 <= s /\ rowOf cols (s - 1) = rowOf cols s.
Proof.
  intro Hs. unfold BoardWalker.detectEdgeLeft, rowOf.
  rewrite Z.eqb_neq, Z.rem_mod_nonneg by lia.
  pose proof (Z.div_mod s cols ltac:(lia)) as Hdm.
  pose proof (Z.mod_pos_bound s cols cols_pos) as Hb.
  pose proof (Z.div_pos s cols Hs cols_pos) as Hq.
  split.
  - intro Hne. split; [nia|]. symmetry.
    apply Z.div_unique with (r := s mod cols - 1); lia.
  - intros [H1 Hrow] Hz.
    pose proof (Z.div_mod (s - 1) cols ltac:(lia)) as Hdm'.
    pose proof (Z.mod_pos_bound (s - 1) cols cols_pos) as Hb'.
    rewrite Hrow in Hdm'. nia.
Qed.

Lemma edgeRight_false (s : Z) :
  0 <= s ->
  BoardWalker.detectEdgeRight cols s = false <->
  rowOf cols (s + 1) = rowOf cols s.
Proof.
  intro Hs. unfold BoardWalker.detectEdgeRight, rowOf.
  rewrite Z.eqb_neq, Z.rem_mod_nonneg by lia.
  pose proof (Z.div_mod s cols ltac:(lia)) as Hdm.
  pose proof (Z.mod_pos_bound s cols cols_pos) as Hb.
  pose proof (Z.div_mod (s + 1) cols ltac:(lia)) as Hdm'.
  pose proof (Z.mod_pos_bound (s + 1) cols cols_pos) as Hb'.
  pose proof (Z.div_pos s cols Hs cols_pos) as Hq.
  pose proof (rowOf_mono s (s + 1) ltac:(lia)) as Hm. unfold rowOf in Hm.
  split.
  - intro Hne.
    destruct (Z.eq_dec (s mod cols + 1) cols) as [E|Hlt].
    + exfalso. apply Hne.
      replace (s + 1) with (0 + (s / cols + 1) * cols) by nia.
      rewrite Z.mod_add by lia. apply Z.mod_0_l. lia.
    + symmetry. apply Z.div_unique with (r := s mod cols + 1); lia.
  - intros Hrow Hz. rewrite Hrow in Hdm'. nia.
Qed.

Lemma edgeUp_false (s : Z) :
  0 <= s -> BoardWalker.detectEdgeUp cols s = false <-> cols <= s.
Proof.
  intro Hs. unfold BoardWalker.detectEdgeUp. rewrite Z.eqb_neq.
  pose proof (Z.div_mod s cols ltac:(lia)) as Hdm.
  pose proof (Z.mod_pos_bound s cols cols_pos) as Hb.
  pose proof (Z.div_pos s cols Hs cols_pos) as Hq.
  split; intro H; nia.
Qed.

Lemma edgeDown_false (s : Z) :
  0 <= s < rows * cols ->
  BoardWalker.detectEdgeDown rows cols s = false <-> s + cols < rows * cols.
Proof.
  intro Hs. unfold BoardWalker.detectEdgeDown. rewrite Z.eqb_neq.
  pose proof (Z.div_mod s cols ltac:(lia)) as Hdm.
  pose proof (Z.mod_pos_bound s cols cols_pos) as Hb.
  assert (Hq : s / cols < rows) by (apply Z.div_lt_upper_bound; lia).
  split; intro H; nia.
Qed.

Lemma visible_range (a : GameArena) (ty s : Z) :
  wellFormed rows cols a = true ->
  visibleOfType typeOf a ty s = true -> 0 <= s < rows * cols.
Proof.
  intros Hwf H. destruct (wellFormed_elim rows cols a Hwf) as [_ [Hlen _]].
  unfold visibleOfType in H.
  destruct (item s (elemTiles a)) as [u|] eqn:E; [|discriminate].
  rewrite <- Hlen. eapply item_Some_range; eassumption.
Qed.

Lemma visible_self (a : GameArena) (t : GameTile) :
  In t (elemTiles a) -> isHidden a t = false ->
  visibleOfType typeOf a (typeOf t) (indexOf t (elemTiles a)) = true.
Proof.
  intros Hin Hv. unfold visibleOfType. rewrite (item_indexOf t _ Hin).
  unfold isInMatch. now rewrite Hv, Z.eqb_refl.
Qed.

Lemma rowWindow_spec (a : GameArena) (ty s : Z) :
  rowWindow cols typeOf a ty s = true <->
  0 <= s /\ rowOf cols s = rowOf cols (s + 2) /\
  visibleOfType typeOf a ty s = true /\
  visibleOfType typeOf a ty (s + 1) = true /\
  visibleOfType typeOf a ty (s + 2) = true.
Proof.
  unfold rowWindow. rewrite !andb_true_iff, Z.leb_le, Z.eqb_eq. tauto.
Qed.

Lemma columnWindow_spec (a : GameArena) (ty s : Z) :
  columnWindow cols typeOf a ty s = true <->
  0 <= s /\
  visibleOfType typeOf a ty s = true /\
  visibleOfType typeOf a ty (s + cols) = true /\
  visibleOfType typeOf a ty (s + 2 * cols) = true.
Proof.
  unfold columnWindow. rewrite !andb_true_iff, Z.leb_le. tauto.
Qed.

Lemma existsb_three (f : Z -> bool) (x y z : Z) :
  existsb f [x; y; z] = true <-> f x = true \/ f y = true \/ f z = true.
Proof.
  simpl. rewrite !orb_true_iff. intuition discriminate.
Qed.

(** Along the row: the two walks make three tiles with the centre exactly
    when one of the three windows around the centre is full. *)
Lemma row_of_three (a : GameArena) (ty i : Z) (L R : nat) :
  wellFormed rows cols a = true ->
  visibleOfType typeOf a ty i = true ->
  ((1 <= L)%nat <->
   BoardWalker.detectEdgeLeft cols i = false /\
   visibleOfType typeOf a ty (i + -1) = true) ->
  ((2 <= L)%nat <->
   BoardWalker.detectEdgeLeft cols i = false /\
   visibleOfType typeOf a ty (i + -1) = true /\
   BoardWalker.detectEdgeLeft cols (i + -1) = false /\
   visibleOfType typeOf a ty (i + -1 + -1) = true) ->
  ((1 <= R)%nat <->
   BoardWalker.detectEdgeRight cols i = false /\
   visibleOfType typeOf a ty (i + 1) = true) ->
  ((2 <= R)%nat <->
   BoardWalker.detectEdgeRight cols i = false /\
   visibleOfType typeOf a ty (i + 1) = true /\
   BoardWalker.detectEdgeRight cols (i + 1) = false /\
   visibleOfType typeOf a ty (i + 1 + 1) = true) ->
  ((3 <= L + 1 + R)%nat <->
   existsb (rowWindow cols typeOf a ty) [i - 2; i - 1; i] = true).
Proof.
  intros Hwf Hvi L1 L2 R1 R2.
  pose proof (visible_range a ty i Hwf Hvi) as Hi.
  replace (i + -1 + -1) with (i - 2) in * by lia.
  replace (i + -1) with (i - 1) in * by lia.
  replace (i + 1 + 1) with (i + 2) in * by lia.
  rewrite existsb_three, !rowWindow_spec.
  replace (i - 2 + 1) with (i - 1) by lia.
  replace (i - 2 + 2) with i by lia.
  replace (i - 1 + 1) with i by lia.
  replace (i - 1 + 2) with (i + 1) by lia.
  assert (Hcases : (3 <= L + 1 + R)%nat <->
                   (2 <= L)%nat \/ ((1 <= L)%nat /\ (1 <= R)%nat)
                   \/ (2 <= R)%nat) by lia.
  rewrite Hcases, L1, L2, R1, R2. clear Hcases L1 L2 R1 R2.
  split.
  - intros [[E1 [V1 [E2 V2]]] | [[[E1 V1] [E2 V2]] | [E1 [V1 [E2 V2]]]]].
    + left.
      pose proof (visible_range a ty _ Hwf V1) as H1.
      pose proof (visible_range a ty _ Hwf V2) as H2.
      apply edgeLeft_false in E1; [|lia]. apply edgeLeft_false in E2; [|lia].
      replace (i - 1 - 1) with (i - 2) in E2 by lia.
      destruct E1, E2. repeat split; try assumption; try lia.
    + right. left.
      pose proof (visible_range a ty _ Hwf V1) as H1.
      apply edgeLeft_false in E1; [|lia]. apply edgeRight_false in E2; [|lia].
      destruct E1. repeat split; try assumption; try lia.
    + right. right.
      pose proof (visible_range a ty _ Hwf V1) as H1.
      apply edgeRight_false in E1; [|lia]. apply edgeRight_false in E2; [|lia].
      replace (i + 1 + 1) with (i + 2) in E2 by lia.
      repeat split; try assumption; try lia.
  - intros [[H0 [Hr [V0 [V1 _]]]] | [[H0 [Hr [V0 [_ V2]]]] | [H0 [Hr [_ [V1 V2]]]]]].
    + left.
      pose proof (rowOf_mono (i - 2) (i - 1) ltac:(lia)).
      pose proof (rowOf_mono (i - 1) i ltac:(lia)).
      repeat split; try assumption.
      * apply edgeLeft_false; [lia|]. split; [lia|]. lia.
      * apply edgeLeft_false; [lia|]. split; [lia|].
        replace (i - 1 - 1) with (i - 2) by lia. lia.
    + right. left.
      pose proof (rowOf_mono (i - 1) i ltac:(lia)).
      pose proof (rowOf_mono i (i + 1) ltac:(lia)).
      repeat split; try assumption.
      * apply edgeLeft_false; [lia|]. split; [lia|]. lia.
      * apply edgeRight_false; [lia|]. lia.
    + right. right.
      pose proof (rowOf_mono i (i + 1) ltac:(lia)).
      pose proof (rowOf_mono (i + 1) (i + 2) ltac:(lia)).
      repeat split; try assumption.
      * apply edgeRight_false; [lia|]. lia.
      * apply edgeRight_false; [lia|].
        replace (i + 1 + 1) with (i + 2) by lia. lia.
Qed.

(** Along the column. *)
Lemma column_of_three (a : GameArena) (ty i : Z) (U D : nat) :
  wellFormed rows cols a = true ->
  visibleOfType typeOf a ty i = true ->
  ((1 <= U)%nat <->
   BoardWalker.detectEdgeUp cols i = false /\
   visibleOfType typeOf a ty (i + - cols) = true) ->
  ((2 <= U)%nat <->
   BoardWalker.detectEdgeUp cols i = false /\
   visibleOfType typeOf a ty (i + - cols) = true /\
   BoardWalker.detectEdgeUp cols (i + - cols) = false /\
   visibleOfType typeOf a ty (i + - cols + - cols) = true) ->
  ((1 <= D)%nat <->
   BoardWalker.detectEdgeDown rows cols i = false /\
   visibleOfType typeOf a ty (i + cols) = true) ->
  ((2 <= D)%nat <->
   BoardWalker.detectEdgeDown rows cols i = false /\
   visibleOfType typeOf a ty (i + cols) = true /\
   BoardWalker.detectEdgeDown rows cols (i + cols) = false /\
   visibleOfType typeOf a ty (i + cols + cols) = true) ->
  ((3 <= U + 1 + D)%nat <->
   existsb (columnWindow cols typeOf a ty) [i - 2 * cols; i - cols; i]
   = true).
Proof.
  intros Hwf Hvi U1 U2 D1 D2.
  pose proof (visible_range a ty i Hwf Hvi) as Hi.
  replace (i + - cols + - cols) with (i - 2 * cols) in * by lia.
  replace (i + - cols) with (i - cols) in * by lia.
  replace (i + cols + cols) with (i + 2 * cols) in * by lia.
  rewrite existsb_three, !columnWindow_spec.
  replace (i - 2 * cols + cols) with (i - cols) by lia.
  replace (i - 2 * cols + 2 * cols) with i by lia.
  replace (i - cols + cols) with i by lia.
  replace (i - cols + 2 * cols) with (i + cols) by lia.
  assert (Hcases : (3 <= U + 1 + D)%nat <->
                   (2 <= U)%nat \/ ((1 <= U)%nat /\ (1 <= D)%nat)
                   \/ (2 <= D)%nat) by lia.
  rewrite Hcases, U1, U2, D1, D2. clear Hcases U1 U2 D1 D2.
  split.
  - intros [[E1 [V1 [E2 V2]]] | [[[E1 V1] [E2 V2]] | [E1 [V1 [E2 V2]]]]].
    + left. pose proof (visible_range a ty _ Hwf V2) as H2.
      repeat split; try assumption; lia.
    + right. left. pose proof (visible_range a ty _ Hwf V1) as H1.
      repeat split; try assumption; lia.
    + right. right. repeat split; try assumption; lia.
  - intros [[H0 [V0 [V1 _]]] | [[H0 [V0 [_ V2]]] | [H0 [_ [V1 V2]]]]].
    + left. repeat split; try assumption.
      * apply edgeUp_false; lia.
      * apply edgeUp_false; lia.
    + right. left. pose proof (visible_range a ty _ Hwf V2) as H2.
      repeat split; try assumption.
      * apply edgeUp_false; lia.
      * apply edgeDown_false; lia.
    + right. right.
      pose proof (visible_range a ty _ Hwf V1) as H1.
      pose proof (visible_range a ty _ Hwf V2) as H2.
      repeat split; try assumption.
      * apply edgeDown_false; lia.
      * apply edgeDown_false; lia.
Qed.

Lemma axis_of_three (l r : list GameTile) (t : GameTile) :
  lengthAtLeast 3
    (if (1 <=? length l)%nat || (1 <=? length r)%nat
     then Some (l ++ t :: r) else None) = true
  <-> (3 <= length l + 1 + length r)%nat.
Proof.
  destruct (Nat.leb_spec 1 (length l)); destruct (Nat.leb_spec 1 (length r));
    cbn [orb lengthAtLeast];
    try (rewrite Nat.leb_le, length_app; cbn [length]; lia).
  split; [discriminate | lia].
Qed.

(** Around a visible tile of a well-formed board a match is reported
    exactly when the tile belongs to a run of three. *)
Lemma detectMatchXY_iff_run (a : GameArena) (t : GameTile) :
  wellFormed rows cols a = true -> In t (elemTiles a) ->
  isHidden a t = false ->
  exists r, detectMatchXY rows cols typeOf a t = Ok r /\
    ((exists mi, r = Some mi) <-> inRunOf3 cols typeOf a t = true).
Proof.
  intros Hwf Hin Hv.
  destruct (wellFormed_elim rows cols a Hwf) as [_ [Hlen _]].
  assert (Hi : 0 <= indexOf t (elemTiles a) < rows * cols)
    by (rewrite <- Hlen; now apply indexOf_In).
  pose proof (visible_self a t Hin Hv) as Hvi.
  destruct (seekInDirection_length_1_2 rows cols typeOf a DLeft (typeOf t) _
              Hwf Hi) as [l [El [L1 L2]]].
  destruct (seekInDirection_length_1_2 rows cols typeOf a DUp (typeOf t) _
              Hwf Hi) as [u [Eu [U1 U2]]].
  destruct (seekInDirection_length_1_2 rows cols typeOf a DRight (typeOf t) _
              Hwf Hi) as [r [Er [R1 R2]]].
  destruct (seekInDirection_length_1_2 rows cols typeOf a DDown (typeOf t) _
              Hwf Hi) as [d [Ed [D1 D2]]].
  simpl in L1, L2, U1, U2, R1, R2, D1, D2.
  pose proof (row_of_three a _ _ _ _ Hwf Hvi L1 L2 R1 R2) as Hrow.
  pose proof (column_of_three a _ _ _ _ Hwf Hvi U1 U2 D1 D2) as Hcol.
  unfold detectMatchXY, obtainDirectionalMatchInfo.
  rewrite El, Eu, Er, Ed. cbn [rbind onLeft onRight onUp onDown].
  eexists. split; [reflexivity|].
  unfold inRunOf3. rewrite orb_true_iff, <- Hrow, <- Hcol.
  rewrite <- (axis_of_three l r t), <- (axis_of_three u d t).
  rewrite <- orb_true_iff.
  destruct (_ || _); split; intro H; try reflexivity; try discriminate.
  - eauto.
  - destruct H as [mi H]. discriminate.
Qed.

End RunsOfThree.

(** ** The combo of a swap *)

Section Combo.

Variables rows cols : Z.
Variable typeOf : GameTile -> Z.








End Combo.


(** The clicks that lead to [hiddenCentreBoard], and what the last of them
    hides. *)
Example hiddenCentreBoard_reached :
  fst (swapUserSelectedTiles
         (fst (manageAndValidateSelection 3 hiddenCentreTypes 2%nat
                 (fst (runEvents 3 3 hiddenCentreTypes
                         [Click 5%nat; Click 2%nat; Click 5%nat]
                         plainBoard)))))
  = hiddenCentreBoard /\
  isHidden hiddenCentreBoard 5%nat = true /\
  map (inRunOf3 3 hiddenCentreTypes hiddenCentreBoard) [4; 5; 6]%nat
  = [false; false; false] /\
  hiddenTiles
    (fst (runEvents 3 3 hiddenCentreTypes
            [Click 5%nat; Click 2%nat; Click 5%nat; Click 2%nat] plainBoard))
  = [6; 5; 4; 3; 5; 1]%nat.
Proof. repeat split; reflexivity. Qed.


(** On [crossBoard] the sequence [#detectMatchXY] builds for the row of
    tile 6 has the two tiles 4 and 6; the MatchInfo keeps the column only,
    and the combo is that column. *)
Example crossBoard_combo :
  matchX (mkDirectional [4%nat] [2%nat] [] [8%nat]) 6%nat
  = Some [4; 6]%nat /\
  detectMatchXY 3 3 crossTypes crossBoard 6%nat
  = Ok (Some (mkMatchInfo None (Some [2; 6; 8]%nat))) /\
  calculateMatchByUserSelection 3 3 crossTypes crossBoard
  = Ok (Some (mkCombo [2; 6; 8]%nat)).
Proof. repeat split; reflexivity. Qed.

(** X11: around a visible tile of a well-formed board [#detectMatchXY]
    returns, and it reports a match exactly when the tile belongs to a run
    of three: three consecutive slots of its row or of its column, the tile
    among them, all holding visible tiles of its type. *)
Theorem detectMatchXY_finds_runs_of_three (rows cols : Z)
    (typeOf : GameTile -> Z) (a : GameArena) (t : GameTile) :
  wellFormed rows cols a = true -> In t (elemTiles a) ->
  isHidden a t = false ->
  exists r, detectMatchXY rows cols typeOf a t = Ok r /\
    ((exists mi, r = Some mi) <-> inRunOf3 cols typeOf a t = true).
Proof.
  intros Hwf Hin Hv. destruct (wellFormed_elim rows cols a Hwf) as [Hc _].
  now apply detectMatchXY_iff_run.
Qed.

(** X11 on the board of the scenario, around index 24. *)
Lemma detectMatchXY_finds_runs_of_three_witness :
  exists r, detectMatchXY 7 7 scenarioTypes scenarioBoard 25%nat = Ok r /\
    ((exists mi, r = Some mi) <->
     inRunOf3 7 scenarioTypes scenarioBoard 25%nat = true).
Proof.
  apply (detectMatchXY_finds_runs_of_three 7 7 scenarioTypes scenarioBoard
           25%nat).
  - reflexivity.
  - simpl. auto 30.
  - reflexivity.
Defined.

(** X12: with two visible tiles of a well-formed board selected, the match
    calculation returns, and it returns a combo exactly when the picked or
    the target tile belongs to a run of three: a swap is kept exactly when
    it has made a run of three through one of the swapped tiles. *)
Theorem calculateMatchByUserSelection_iff_run (rows cols : Z)
    (typeOf : GameTile -> Z) (a : GameArena) (p t : GameTile) :
  wellFormed rows cols a = true ->
  elemPickedTile a = Some p -> elemTargetTile a = Some t ->
  In p (elemTiles a) -> In t (elemTiles a) ->
  isHidden a p = false -> isHidden a t = false ->
  exists r, calculateMatchByUserSelection rows cols typeOf a = Ok r /\
    ((exists combo, r = Some combo) <->
     inRunOf3 cols typeOf a p = true \/ inRunOf3 cols typeOf a t = true).
Proof.
  intros Hwf Ep Et Hp Ht Hvp Hvt.
  destruct (wellFormed_elim rows cols a Hwf) as [Hc _].
  destruct (detectMatchXY_iff_run rows cols typeOf Hc a p Hwf Hp Hvp)
    as [r1 [E1 H1]].
  destruct (detectMatchXY_iff_run rows cols typeOf Hc a t Hwf Ht Hvt)
    as [r2 [E2 H2]].
  unfold calculateMatchByUserSelection. rewrite Ep, Et. simpl.
  rewrite E1, E2. simpl. eexists. split; [reflexivity|].
  rewrite <- H1, <- H2.
  destruct r1 as [m1|], r2 as [m2|]; split; intro H; eauto.
  - destruct H as [combo H]. discriminate.
  - destruct H as [[mi H]|[mi H]]; discriminate.
Qed.

(** X12 on [crossBoard]. *)
Lemma calculateMatchByUserSelection_iff_run_witness :
  exists r, calculateMatchByUserSelection 3 3 crossTypes crossBoard = Ok r /\
    ((exists combo, r = Some combo) <->
     inRunOf3 3 crossTypes crossBoard 6%nat = true \/
     inRunOf3 3 crossTypes crossBoard 5%nat = true).
Proof.
  apply (calculateMatchByUserSelection_iff_run 3 3 crossTypes crossBoard
           6%nat 5%nat); try reflexivity; simpl; auto 10.
Defined.

(** ** The second click *)

Lemma isSecondTileOnSide_step (cols : Z) (a : GameArena) (c : GameTile)
    (d : direction) :
  isSecondTileOnSide cols a c = Some d ->
  indexOf c (elemTiles a)
  = indexOfSelected (elemPickedTile a) (elemTiles a) + delta cols d.
Proof.
  unfold isSecondTileOnSide.
  repeat match goal with
         | |- context [?x =? ?y] => destruct (Z.eqb_spec x y)
         end; intro H; try discriminate; injection H as <-; simpl; lia.
Qed.

(** X13: [#isSecondTileOnSide] answers with a direction exactly when the
    clicked tile is one step of that kind away from the picked tile in the
    index, and the direction it answers is such a step.  In particular every
    grid neighbour of the picked tile is answered with a direction. *)
Theorem isSecondTileOnSide_steps (rows cols : Z) (a : GameArena)
    (p c : GameTile) :
  0 < cols -> elemPickedTile a = Some p ->
  (forall d, isSecondTileOnSide cols a c = Some d ->
     indexOf c (elemTiles a) = indexOf p (elemTiles a) + delta cols d) /\
  (isSecondTileOnSide cols a c = None <->
   forall d, indexOf c (elemTiles a)
             <> indexOf p (elemTiles a) + delta cols d) /\
  (gridAdjacent rows cols (indexOf p (elemTiles a))
     (indexOf c (elemTiles a)) = true ->
   isSecondTileOnSide cols a c <> None).
Proof.
  intros Hc Ep.
  assert (Hstep : forall d, isSecondTileOnSide cols a c = Some d ->
            indexOf c (elemTiles a) = indexOf p (elemTiles a) + delta cols d).
  { intros d H. apply isSecondTileOnSide_step in H. now rewrite Ep in H. }
  assert (Hnone : isSecondTileOnSide cols a c = None <->
            forall d, indexOf c (elemTiles a)
                      <> indexOf p (elemTiles a) + delta cols d).
  { split.
    - unfold isSecondTileOnSide. rewrite Ep. simpl.
      repeat match goal with
             | |- context [?x =? ?y] => destruct (Z.eqb_spec x y)
             end; intro H; try discriminate.
      intros [] E; simpl in E; lia.
    - intro H. destruct (isSecondTileOnSide cols a c) as [d|] eqn:E;
        [|reflexivity].
      exfalso. exact (H d (Hstep d eq_refl)). }
  split; [assumption|]. split; [assumption|].
  intros Hadj Hn. rewrite Hnone in Hn.
  unfold gridAdjacent in Hadj. rewrite !andb_true_iff, orb_true_iff in Hadj.
  destruct Hadj as [[[[H1 H2] H3] H4] Hadj].
  apply Z.leb_le in H1, H3. apply Z.ltb_lt in H2, H4.
  set (i := indexOf p (elemTiles a)) in *.
  set (j := indexOf c (elemTiles a)) in *.
  pose proof (Z.div_mod i cols ltac:(lia)) as Di.
  pose proof (Z.div_mod j cols ltac:(lia)) as Dj.
  unfold rowOf, colOf in Hadj.
  destruct Hadj as [Hrow | Hcol].
  - apply andb_true_iff in Hrow. destruct Hrow as [Hr Hcd].
    apply Z.eqb_eq in Hr, Hcd.
    destruct (Z.abs_spec (i mod cols - j mod cols)) as [[_ Ha]|[_ Ha]].
    + apply (Hn DLeft). simpl. rewrite Hr in Di. lia.
    + apply (Hn DRight). simpl. rewrite Hr in Di. lia.
  - apply andb_true_iff in Hcol. destruct Hcol as [Hcc Hrd].
    apply Z.eqb_eq in Hcc, Hrd.
    destruct (Z.abs_spec (i / cols - j / cols)) as [[_ Ha]|[_ Ha]].
    + apply (Hn DUp). simpl. rewrite Hcc in Di. nia.
    + apply (Hn DDown). simpl. rewrite Hcc in Di. nia.
Qed.

(** X13 on [pickedBoard], for the tile 4 below the picked tile 1. *)
Lemma isSecondTileOnSide_steps_witness :
  (forall d, isSecondTileOnSide 3 pickedBoard 4%nat = Some d ->
     indexOf 4%nat (elemTiles pickedBoard)
     = indexOf 1%nat (elemTiles pickedBoard) + delta 3 d) /\
  (isSecondTileOnSide 3 pickedBoard 4%nat = None <->
   forall d, indexOf 4%nat (elemTiles pickedBoard)
             <> indexOf 1%nat (elemTiles pickedBoard) + delta 3 d) /\
  (gridAdjacent 3 3 (indexOf 1%nat (elemTiles pickedBoard))
     (indexOf 4%nat (elemTiles pickedBoard)) = true ->
   isSecondTileOnSide 3 pickedBoard 4%nat <> None).
Proof.
  apply (isSecondTileOnSide_steps 3 3 pickedBoard 1%nat 4%nat).
  - lia.
  - reflexivity.
Defined.

(** X14: [#manageAndValidateSelection] never raises and changes nothing but
    the selection.  It answers with a direction, and sets the clicked tile
    as target beside the picked tile, exactly when a tile is picked, no
    target is set, the clicked tile is another tile of another type, and
    [#isSecondTileOnSide] answers with that direction.  Otherwise it
    answers nothing: a click on the picked tile clears the selection, any
    other click with a tile picked makes the clicked tile the picked tile
    and clears the target, and with no tile picked the clicked tile is
    picked. *)
Theorem manageAndValidateSelection_lifecycle (cols : Z)
    (typeOf : GameTile -> Z) (c : GameTile) (a : GameArena) :
  exists a' x,
    manageAndValidateSelection cols typeOf c a = (a', Ok x) /\
    elemTiles a' = elemTiles a /\ hiddenTiles a' = hiddenTiles a /\
    badSwapTimers a' = badSwapTimers a /\
    (forall d, x = Some d <->
       exists p, elemPickedTile a = Some p /\ elemTargetTile a = None /\
                 p <> c /\ typeOf p <> typeOf c /\
                 isSecondTileOnSide cols a c = Some d) /\
    (forall d, x = Some d -> selection a' = (elemPickedTile a, Some c)) /\
    (x = None -> elemPickedTile a = Some c -> selection a' = (None, None)) /\
    (x = None -> forall p, elemPickedTile a = Some p -> p <> c ->
       selection a' = (Some c, None)) /\
    (elemPickedTile a = None ->
       x = None /\ selection a' = (Some c, elemTargetTile a)).
Proof.
  unfold manageAndValidateSelection, pickedIs, pickedHasTypeOf, selection.
  destruct (elemPickedTile a) as [p|] eqn:Ep.
  - destruct (sameTile_spec p c) as [->|Hpc].
    { eexists _, _. split; [reflexivity|]. repeat split; try discriminate;
        try congruence.
      intros [q [Eq [_ [Hq _]]]]. congruence. }
    destruct (Z.eqb_spec (typeOf p) (typeOf c)) as [Ety|Hty].
    { eexists _, _. split; [reflexivity|]. repeat split; try discriminate;
        try congruence.
      intros [q [Eq [_ [_ [Hq _]]]]]. congruence. }
    destruct (elemTargetTile a) as [t|] eqn:Et; simpl.
    { eexists _, _. split; [reflexivity|]. repeat split; try discriminate;
        try congruence.
      intros [q [_ [Hq _]]]. discriminate. }
    destruct (isSecondTileOnSide cols a c) as [d|] eqn:Ed; simpl.
    { eexists _, _. split; [reflexivity|]. repeat split; try discriminate;
        try congruence.
      - intro H. injection H as <-. exists p. repeat split; assumption.
      - intros [q [_ [_ [_ [_ Hq]]]]]. congruence. }
    eexists _, _. split; [reflexivity|]. repeat split; try discriminate;
      try congruence.
    intros [q [_ [_ [_ [_ Hq]]]]]. discriminate.
  - simpl. eexists _, _. split; [reflexivity|]. repeat split; try discriminate.
    intros [q [Hq _]]. discriminate.
Qed.

(** ** Bubbling settles the board *)

Lemma ordered_app {A : Type} (R : A -> A -> Prop) (l l' : list A) :
  ordered R (l ++ l') <->
  ordered R l /\ ordered R l' /\ forall x y, In x l -> In y l' -> R x y.
Proof.
  induction l as [|z l IH]; simpl.
  - intuition.
  - rewrite IH. split.
    + intros [Hz [H1 [H2 H3]]]. repeat split; try assumption.
      * intros y Hy. apply Hz. apply in_or_app. now left.
      * intros x y [<-|Hx] Hy; [apply Hz; apply in_or_app; now right|].
        now apply H3.
    + intros [[Hz H1] [H2 H3]]. repeat split; try assumption.
      * intros y Hy. apply in_app_or in Hy. destruct Hy; [now apply Hz|].
        apply H3; [now left | assumption].
      * intros x y Hx Hy. apply H3; [now right | assumption].
Qed.

Lemma ordered_impl {A : Type} (R R' : A -> A -> Prop) (l : list A) :
  (forall x y, In x l -> In y l -> R x y -> R' x y) ->
  ordered R l -> ordered R' l.
Proof.
  induction l as [|z l IH]; simpl; [tauto|]. intros H [Hz Hl]. split.
  - intros y Hy. apply H; [now left | now right | now apply Hz].
  - apply IH; [|assumption]. intros x y Hx Hy. apply H; now right.
Qed.

Lemma ascending_ordered (l : list Z) :
  ascending l = true -> ordered Z.lt l.
Proof.
  induction l as [|i l IH]; [reflexivity|].
  intro H. assert (Hl : ascending l = true).
  { simpl in H. destruct l; [reflexivity|].
    apply andb_true_iff in H. tauto. }
  specialize (IH Hl). split; [|assumption].
  destruct l as [|j l]; [intros y []|].
  simpl in H. apply andb_true_iff in H. destruct H as [Hij _].
  apply Z.ltb_lt in Hij. destruct IH as [Hj _].
  intros y [<-|Hy]; [assumption|]. specialize (Hj y Hy). lia.
Qed.

Lemma ordered_map {A B : Type} (f : A -> B) (R : B -> B -> Prop)
    (l : list A) :
  ordered R (map f l) <-> ordered (fun x y => R (f x) (f y)) l.
Proof.
  induction l as [|z l IH]; simpl; [tauto|]. rewrite IH. split.
  - intros [H1 H2]. split; [|assumption]. intros y Hy. apply H1.
    now apply in_map.
  - intros [H1 H2]. split; [|assumption]. intros y Hy.
    apply in_map_iff in Hy. destruct Hy as [x [<- Hx]]. now apply H1.
Qed.

Lemma ordered_NoDup (a : GameArena) (l : list GameTile) :
  ordered (fun x y => indexOf x (elemTiles a) < indexOf y (elemTiles a)) l ->
  NoDup l.
Proof.
  induction l as [|z l IH]; simpl; [constructor|]. intros [H1 H2].
  constructor; [|now apply IH]. intro Hin. specialize (H1 z Hin). lia.
Qed.

Lemma same_column_below (cols i j : Z) :
  0 < cols -> i mod cols = j mod cols -> i < j -> i <= j - cols.
Proof.
  intros Hc Hm Hlt.
  pose proof (Z.div_mod i cols ltac:(lia)) as Di.
  pose proof (Z.div_mod j cols ltac:(lia)) as Dj.
  rewrite Hm in Di.
  destruct (Z.lt_ge_cases (i / cols) (j / cols)) as [Hq|Hq].
  - pose proof (Z.mul_le_mono_nonneg_l (i / cols + 1) (j / cols) cols
                  ltac:(lia) ltac:(lia)). lia.
  - pose proof (Z.mul_le_mono_nonneg_l (j / cols) (i / cols) cols
                  ltac:(lia) ltac:(lia)). lia.
Qed.

Lemma indexOf_inj (l : list GameTile) (u v : GameTile) :
  In u l -> In v l -> indexOf u l = indexOf v l -> u = v.
Proof.
  intros Hu Hv E. pose proof (item_indexOf u l Hu) as H1.
  pose proof (item_indexOf v l Hv) as H2. rewrite E in H1. congruence.
Qed.

Section Settling.

Variables rows cols : Z.

Lemma colOf_up (i : Z) : 0 < cols -> colOf cols (i - cols) = colOf cols i.
Proof.
  intro Hc. unfold colOf. replace (i - cols) with (i + (-1) * cols) by lia.
  apply Z.mod_add. lia.
Qed.

Lemma settledApartFrom_nil (a : GameArena) :
  wellFormed rows cols a = true ->
  settledApartFrom cols a [] -> settled cols a.
Proof.
  intros Hwf HS i u v Hu Hv Hhid.
  destruct (wellFormed_elim rows cols a Hwf) as [Hc [Hlen Hnd]].
  pose proof (item_Some_range _ _ _ Hv) as Hr.
  destruct (HS u (item_In _ _ _ Hu) Hhid (fun H => H))
    as [v' [Hin [Hidx [Hh _]]]].
  { rewrite (indexOf_item _ _ _ Hnd Hu). lia. }
  rewrite (indexOf_item _ _ _ Hnd Hu) in Hidx.
  pose proof (item_indexOf v' _ Hin) as Hv'. rewrite Hidx in Hv'.
  congruence.
Qed.

(** The rest of a pass, from the middle of it. *)
Lemma forEachBubbling_settles :
  forall (rest kept : list GameTile) (a : GameArena),
    bubblingInvariant rows cols a kept rest ->
    exists a' fr',
      forEachBubbling cols rest (kept ++ rest) a = (a', Ok fr') /\
      bubblingInvariant rows cols a' [] fr'.
Proof.
  induction rest as [|t rest IH]; intros kept a Hinv.
  - exists a, kept. rewrite app_nil_r in *. split; [reflexivity|].
    destruct Hinv as [Hwf [Hnd [Hmem [HS [HO _]]]]].
    rewrite app_nil_r in *.
    repeat split; try assumption; try (now apply Hmem).
    intros v w [].
  - destruct Hinv as [Hwf [Hndf [Hmem [HS [HO HM]]]]].
    destruct (wellFormed_elim rows cols a Hwf) as [Hc [Hlen Hnd]].
    destruct (NoDup_mid _ _ _ Hndf) as [Htk [Htr Hndf']].
    assert (Htf : In t (kept ++ t :: rest))
      by (apply in_or_app; right; now left).
    destruct (Hmem t Htf) as [Htin Hthid].
    pose proof (indexOf_In t _ Htin) as Hti.
    apply ordered_app in HO. destruct HO as [HOk [HOr HOkr]].
    simpl in HOr. destruct HOr as [HOt HOr].
    change (forEachBubbling cols (t :: rest) (kept ++ t :: rest) a)
      with (bind (bubbleTile cols (kept ++ t :: rest) t)
                 (forEachBubbling cols rest) a).
    unfold bind.
    destruct (bubbleTile_cases rows cols a (kept ++ t :: rest) t Hwf Htin)
      as [[Eb Hwhy] | [f [l' [Ee [Hf [Hfv [Eb [Hnd' [Hlen' [Ht' [Hf' [Hoth Hin']]]]]]]]]]]];
      rewrite Eb.
    + (* the entry is taken out *)
      rewrite detach_mid by assumption.
      apply IH. split; [assumption|]. split; [assumption|].
      split; [|split; [|split]].
      * intros u Hu. apply Hmem. apply in_app_or in Hu.
        apply in_or_app. destruct Hu; [now left | right; now right].
      * intros u Hu Hh Hnot Hcol.
        destruct (Nat.eq_dec u t) as [->|Hut].
        -- destruct Hwhy as [Hedge | [h [Hh' Hhh]]].
           ++ exfalso.
              assert (BoardWalker.detectEdgeUp cols (indexOf t (elemTiles a))
                      = false)
                by (apply (edgeUp_false cols Hc); lia).
              congruence.
           ++ exists h. split; [eapply item_In; eassumption|].
              split; [now apply indexOf_item|]. split; [assumption|].
              intro Hin. apply in_app_or in Hin. destruct Hin as [Hk|Hr].
              ** apply (HM h t Hk (or_introl eq_refl)).
                 rewrite (indexOf_item _ _ _ Hnd Hh'). lia.
              ** specialize (HOt h Hr). unfold topFirst in HOt.
                 rewrite (indexOf_item _ _ _ Hnd Hh') in HOt.
                 rewrite colOf_up in HOt by assumption.
                 specialize (HOt eq_refl). lia.
        -- destruct (HS u Hu Hh) as [v [H1 [H2 [H3 H4]]]]; [|assumption|].
           { intro Hin. apply Hnot. apply in_app_or in Hin.
             apply in_or_app. destruct Hin as [|[->|]]; [now left| |now right].
             congruence. }
           exists v. repeat split; try assumption.
           intro Hin. apply H4. apply in_app_or in Hin. apply in_or_app.
           destruct Hin; [now left | right; now right].
      * apply ordered_app. repeat split; try assumption.
        intros x y Hx Hy. apply HOkr; [assumption | now right].
      * intros v w Hv Hw. apply HM; [assumption | now right].
    + (* the entry moves up *)
      assert (Hft : f <> t) by (intros ->; congruence).
      assert (Hfin : In f (elemTiles a)) by (eapply item_In; eassumption).
      pose proof (indexOf_item _ _ _ Hnd Hf) as Hfi.
      set (a1 := setElemTiles l' a).
      assert (Hidx : forall z, In z (kept ++ t :: rest) -> z <> t ->
                indexOf z (elemTiles a1) = indexOf z (elemTiles a)).
      { intros z Hz Hzt. simpl. apply Hoth; [assumption|].
        intros ->. destruct (Hmem f Hz). congruence. }
      replace (kept ++ t :: rest) with ((kept ++ [t]) ++ rest) in *
        by (now rewrite <- app_assoc).
      apply IH. split.
      { apply wellFormed_intro; simpl; [assumption | lia | assumption]. }
      split; [assumption|]. split; [|split; [|split]].
      * intros u Hu. destruct (Hmem u Hu). split; [now apply Hin'|assumption].
      * intros u Hu Hh Hnot Hcol.
        assert (Hh0 : isHidden a u = true) by exact Hh.
        assert (Hu0 : In u (elemTiles a)) by (now apply Hin').
        assert (Hut : u <> t) by (intros ->; contradiction).
        assert (Huf : u <> f) by (intros ->; congruence).
        simpl elemTiles in Hcol |- *. rewrite (Hoth u Hut Huf) in *.
        destruct (HS u Hu0 Hh0 Hnot Hcol) as [v [H1 [H2 [H3 H4]]]].
        assert (Hvt : v <> t) by (intros ->; contradiction).
        assert (Hvf : v <> f) by (intros ->; congruence).
        exists v. simpl. rewrite (Hoth v Hvt Hvf).
        repeat split; try assumption. now apply Hin'.
      * assert (HO : ordered (topFirst cols a) ((kept ++ [t]) ++ rest)).
        { rewrite <- app_assoc. simpl. apply ordered_app.
          repeat split; assumption. }
        revert HO. apply ordered_impl. intros x y Hx Hy HR.
        unfold topFirst in *.
        destruct (Nat.eq_dec x t) as [->|Hxt];
          destruct (Nat.eq_dec y t) as [->|Hyt].
        -- lia.
        -- rewrite (Hidx y Hy Hyt). simpl. rewrite Ht'.
           rewrite colOf_up by assumption. intro Hcol.
           specialize (HR Hcol). lia.
        -- rewrite (Hidx x Hx Hxt). simpl. rewrite Ht'.
           rewrite colOf_up by assumption. intro Hcol.
           specialize (HR Hcol).
           destruct (Hmem x Hx) as [Hxin Hxh].
           assert (Hxf : x <> f) by (intros ->; congruence).
           assert (indexOf x (elemTiles a) <> indexOf t (elemTiles a) - cols).
           { intro E. apply Hxf. apply (indexOf_inj (elemTiles a));
               [assumption | assumption | congruence]. }
           pose proof (same_column_below cols _ _ Hc Hcol HR). lia.
        -- now rewrite (Hidx x Hx Hxt), (Hidx y Hy Hyt).
      * intros v w Hv Hw.
        assert (Hwf' : In w ((kept ++ [t]) ++ rest))
          by (apply in_or_app; now right).
        assert (Hwt : w <> t) by (intros ->; contradiction).
        rewrite (Hidx w Hwf' Hwt).
        apply in_app_or in Hv. destruct Hv as [Hv|[<-|[]]].
        -- assert (Hvf' : In v ((kept ++ [t]) ++ rest))
             by (apply in_or_app; left; apply in_or_app; now left).
           assert (Hvt : v <> t) by (intros ->; contradiction).
           rewrite (Hidx v Hvf' Hvt). apply HM; [assumption | now right].
        -- simpl. rewrite Ht'. intro E. apply Hwt.
           apply (indexOf_inj (elemTiles a));
             [now destruct (Hmem w Hwf') | assumption | lia].
Qed.

(** When the loop returns, the board is settled. *)
Lemma bubbleLoop_settles :
  forall (fuel : nat) (a : GameArena) (fr : list GameTile),
    bubblingInvariant rows cols a [] fr ->
    forall a', bubbleLoop cols fuel fr a = (a', Ok tt) -> settled cols a'.
Proof.
  induction fuel as [|fuel IH]; intros a [|t fr] Hinv a' E.
  - injection E as <-. destruct Hinv as [Hwf [_ [_ [HS _]]]].
    now apply settledApartFrom_nil.
  - discriminate.
  - injection E as <-. destruct Hinv as [Hwf [_ [_ [HS _]]]].
    now apply settledApartFrom_nil.
  - rewrite bubbleLoop_pass in E. unfold bind in E.
    destruct (forEachBubbling_settles (t :: fr) [] a Hinv)
      as [a1 [fr1 [E1 Hinv1]]].
    simpl app in E1. rewrite E1 in E. eapply IH; eassumption.
Qed.

Lemma newSet_NoDup (l : list GameTile) : NoDup l -> newSet l = l.
Proof.
  induction l as [|x l IH]; intro H; [reflexivity|].
  inversion H; subst. simpl. rewrite IH by assumption.
  now rewrite detach_notIn.
Qed.

(** A combo of hidden tiles in document order starts a pass. *)
Lemma bubblingInvariant_start (a : GameArena) (ws : list GameTile) :
  wellFormed rows cols a = true ->
  (forall t, In t ws -> In t (elemTiles a) /\ isHidden a t = true) ->
  ascending (positions a ws) = true ->
  settledApartFrom cols a ws ->
  newSet ws = ws /\ bubblingInvariant rows cols a [] ws.
Proof.
  intros Hwf Hmem Hasc HS.
  pose proof (ascending_ordered _ Hasc) as Ho. unfold positions in Ho.
  apply (proj1 (ordered_map _ _ _)) in Ho.
  pose proof (ordered_NoDup a ws Ho) as Hnd.
  split; [now apply newSet_NoDup|].
  split; [assumption|]. split; [assumption|]. split; [assumption|].
  split; [assumption|]. split.
  - simpl. revert Ho. apply ordered_impl. intros x y _ _ H _. exact H.
  - intros v w [].
Qed.

End Settling.

Lemma bubbleMatchToTopEdge_settled (rows cols : Z) (a : GameArena)
    (matchFixture : ComboMatchInfo) :
  wellFormed rows cols a = true ->
  (forall t, In t (domSortedTiles matchFixture) ->
     In t (elemTiles a) /\ isHidden a t = true) ->
  ascending (positions a (domSortedTiles matchFixture)) = true ->
  settledApartFrom cols a (domSortedTiles matchFixture) ->
  exists a',
    bubbleMatchToTopEdge rows cols matchFixture a = (a', Ok tt) /\
    settled cols a'.
Proof.
  intros Hwf Hmem Hasc HS.
  destruct (bubbleMatchToTopEdge_ok rows cols a matchFixture Hwf Hmem)
    as [a' [E _]].
  exists a'. split; [assumption|].
  destruct (bubblingInvariant_start rows cols a _ Hwf Hmem Hasc HS)
    as [Eset Hinv].
  unfold bubbleMatchToTopEdge in E. rewrite Eset in E.
  eapply bubbleLoop_settles; eassumption.
Qed.

(** X15: bubbling settles the board.  For a well-formed board and a combo
    of hidden tiles of the board listed in document order (ascending
    positions), with every other hidden tile already settled under the top
    edge, [#bubbleMatchToTopEdge] returns a board on which no hidden tile
    has a visible tile above it: the hidden tiles are on top of their
    columns. *)
Theorem bubbleMatchToTopEdge_settles (rows cols : Z) (a : GameArena)
    (matchFixture : ComboMatchInfo) :
  wellFormed rows cols a = true ->
  (forall t, In t (domSortedTiles matchFixture) ->
     In t (elemTiles a) /\ isHidden a t = true) ->
  ascending (positions a (domSortedTiles matchFixture)) = true ->
  settledApartFrom cols a (domSortedTiles matchFixture) ->
  exists a',
    bubbleMatchToTopEdge rows cols matchFixture a = (a', Ok tt) /\
    settled cols a'.
Proof. apply bubbleMatchToTopEdge_settled. Qed.

(** X15 on [rowBoard]. *)
Lemma bubbleMatchToTopEdge_settles_witness :
  exists a',
    bubbleMatchToTopEdge 3 3 (mkCombo [7%nat; 8%nat; 9%nat]) rowBoard
      = (a', Ok tt) /\
    settled 3 a'.
Proof.
  apply (bubbleMatchToTopEdge_settles 3 3 rowBoard
           (mkCombo [7%nat; 8%nat; 9%nat])).
  - reflexivity.
  - simpl. intros t [<-|[<-|[<-|[]]]]; split; auto 10.
  - reflexivity.
  - intros u Hu Hh Hnot Hc. exfalso. apply Hnot.
    apply existsb_sameTile. exact Hh.
Defined.

(** The order of the combo matters: on [columnBoard] with only the tiles 4
    and 7 hidden, listed bottom first, tile 7 is taken out of the working
    set below the hidden tile 4, tile 4 then moves up, and the visible tile
    1 is left above the hidden tile 7. *)
Example bottom_first_leaves_a_gap :
  bubbleMatchToTopEdge 3 3 (mkCombo [7%nat; 4%nat])
    (setHiddenTiles [4%nat; 7%nat] plainBoard)
  = (setElemTiles [4; 2; 3; 1; 5; 6; 7; 8; 9]%nat
       (setHiddenTiles [4%nat; 7%nat] plainBoard), Ok tt).
Proof. reflexivity. Qed.

Section SettledHandler.

Variables rows cols : Z.

(** On a settled board nothing falls: the callback takes every hidden entry
    out of the working set and leaves the board as it is. *)
Lemma bubbleTile_settled (a : GameArena) (fr : list GameTile)
    (t : GameTile) :
  wellFormed rows cols a = true -> settled cols a ->
  In t (elemTiles a) -> isHidden a t = true ->
  bubbleTile cols fr t a = (a, Ok (detach t fr)).
Proof.
  intros Hwf Hset Hin Hhid.
  destruct (bubbleTile_cases rows cols a fr t Hwf Hin)
    as [[Eb _] | [f [l' [_ [Hf [Hfv _]]]]]]; [assumption|].
  pose proof (Hset _ _ _ (item_indexOf t _ Hin) Hf Hhid). congruence.
Qed.

Lemma forEachBubbling_settled (a : GameArena) :
  wellFormed rows cols a = true -> settled cols a ->
  forall entries fr,
    (forall t, In t entries -> In t (elemTiles a) /\ isHidden a t = true) ->
    exists fr',
      forEachBubbling cols entries fr a = (a, Ok fr') /\
      forall x, In x fr' -> In x fr /\ ~ In x entries.
Proof.
  intros Hwf Hset. induction entries as [|t rest IH]; intros fr Hmem.
  - exists fr. split; [reflexivity|]. intros x Hx. split; [assumption|].
    intros [].
  - destruct (Hmem t (or_introl eq_refl)) as [Hin Hhid].
    destruct (IH (detach t fr)) as [fr' [E Hfr]].
    { intros u Hu. apply Hmem. now right. }
    exists fr'. simpl forEachBubbling. unfold bind.
    rewrite (bubbleTile_settled a fr t Hwf Hset Hin Hhid). split; [exact E|].
    intros x Hx. destruct (Hfr x Hx) as [H1 H2]. apply In_detach in H1.
    destruct H1 as [H1 Hne]. split; [assumption|].
    intros [->|H]; [congruence | contradiction].
Qed.

Lemma bubbleLoop_settled (a : GameArena) (fr : list GameTile) (fuel : nat) :
  wellFormed rows cols a = true -> settled cols a ->
  (forall t, In t fr -> In t (elemTiles a) /\ isHidden a t = true) ->
  bubbleLoop cols (S fuel) fr a = (a, Ok tt).
Proof.
  intros Hwf Hset Hmem. destruct fr as [|t fr]; [reflexivity|].
  rewrite bubbleLoop_pass. unfold bind.
  destruct (forEachBubbling_settled a Hwf Hset (t :: fr) (t :: fr) Hmem)
    as [fr' [E Hfr]].
  rewrite E. destruct fr' as [|x fr']; [now destruct fuel|].
  exfalso. destruct (Hfr x (or_introl eq_refl)). contradiction.
Qed.

End SettledHandler.

(** X16: bubbling a second time changes nothing.  For a well-formed board
    and a combo of hidden tiles of the board listed in document order, with
    every other hidden tile already settled under the top edge, after
    [#bubbleMatchToTopEdge] has returned, calling it again with the same
    combo returns with the arena as the first call left it. *)
Theorem bubbleMatchToTopEdge_idempotent (rows cols : Z) (a : GameArena)
    (matchFixture : ComboMatchInfo) :
  wellFormed rows cols a = true ->
  (forall t, In t (domSortedTiles matchFixture) ->
     In t (elemTiles a) /\ isHidden a t = true) ->
  ascending (positions a (domSortedTiles matchFixture)) = true ->
  settledApartFrom cols a (domSortedTiles matchFixture) ->
  exists a',
    bubbleMatchToTopEdge rows cols matchFixture a = (a', Ok tt) /\
    bubbleMatchToTopEdge rows cols matchFixture a' = (a', Ok tt).
Proof.
  intros Hwf Hmem Hasc HS.
  destruct (bubbleMatchToTopEdge_settled rows cols a matchFixture
              Hwf Hmem Hasc HS) as [a' [E Hset]].
  destruct (bubbleMatchToTopEdge_ok rows cols a matchFixture Hwf Hmem)
    as [a2 [E2 [Hwf' [Hhid [_ [_ [Hin _]]]]]]].
  assert (a2 = a') by congruence. subst a2.
  exists a'. split; [assumption|].
  destruct (wellFormed_elim rows cols a Hwf) as [Hc [Hlen _]].
  assert (Hmem' : forall t, In t (newSet (domSortedTiles matchFixture)) ->
                    In t (elemTiles a') /\ isHidden a' t = true).
  { intros t Ht. apply (proj1 (In_newSet t _)) in Ht.
    destruct (Hmem t Ht) as [H1 H2]. split; [now apply Hin|].
    now rewrite (isHidden_same a a' t Hhid). }
  unfold bubbleMatchToTopEdge.
  destruct (newSet (domSortedTiles matchFixture)) as [|t ws] eqn:Ews.
  - now destruct (Z.to_nat rows).
  - destruct (Hmem' t (or_introl eq_refl)) as [Ht _].
    apply Hin in Ht. pose proof (indexOf_In t _ Ht) as Hr.
    assert (0 < rows) by nia.
    destruct (Z.to_nat rows) as [|fuel] eqn:Ef; [lia|].
    now apply (bubbleLoop_settled rows cols).
Qed.

(** X16 on [rowBoard]. *)
Lemma bubbleMatchToTopEdge_idempotent_witness :
  exists a',
    bubbleMatchToTopEdge 3 3 (mkCombo [7%nat; 8%nat; 9%nat]) rowBoard
      = (a', Ok tt) /\
    bubbleMatchToTopEdge 3 3 (mkCombo [7%nat; 8%nat; 9%nat]) a'
      = (a', Ok tt).
Proof.
  apply (bubbleMatchToTopEdge_idempotent 3 3 rowBoard
           (mkCombo [7%nat; 8%nat; 9%nat])).
  - reflexivity.
  - simpl. intros t [<-|[<-|[<-|[]]]]; split; auto 10.
  - reflexivity.
  - intros u Hu Hh Hnot Hc. exfalso. apply Hnot.
    apply existsb_sameTile. exact Hh.
Defined.

(** X17: a successful selection keeps a settled board settled.  On a
    well-formed board with no visible tile above a hidden one, when the
    combo lists visible tiles of the board in document order,
    [#handleUserSuccessSelection] returns, clears the selection, hides
    exactly the combo on top of what was hidden, and leaves again no
    visible tile above a hidden one. *)
Theorem handleUserSuccessSelection_keeps_settled (rows cols : Z)
    (a : GameArena) (matchInfo : ComboMatchInfo) :
  wellFormed rows cols a = true ->
  settled cols a ->
  (forall t, In t (domSortedTiles matchInfo) ->
     In t (elemTiles a) /\ isHidden a t = false) ->
  ascending (positions a (domSortedTiles matchInfo)) = true ->
  exists a',
    handleUserSuccessSelection rows cols matchInfo a = (a', Ok tt) /\
    settled cols a' /\
    selection a' = (None, None) /\
    forall u, isHidden a' u
              = isHidden a u
                || existsb (sameTile u) (domSortedTiles matchInfo).
Proof.
  intros Hwf Hset Hmem Hasc.
  destruct (handleUserSuccessSelection_ok rows cols a matchInfo Hwf)
    as [a' [E [_ [Hsel [_ [_ [Hhid _]]]]]]].
  { intros u Hu. now apply Hmem. }
  exists a'. split; [assumption|]. split; [|split; assumption].
  revert E.
  unfold handleUserSuccessSelection, bind, resetUserSelection, hideMatch,
    modify.
  rewrite fold_setHidden.
  set (a4 := setHiddenTiles _ _). intro E.
  assert (Hh4 : forall u, isHidden a4 u
                  = isHidden a u
                    || existsb (sameTile u) (domSortedTiles matchInfo)).
  { intro u. unfold a4. now rewrite isHidden_hideMatch_state. }
  destruct (wellFormed_elim rows cols a Hwf) as [Hc [Hlen Hnd]].
  destruct (bubbleMatchToTopEdge_settled rows cols a4 matchInfo)
    as [a2 [E2 Hset2]].
  - exact Hwf.
  - intros t Ht. split; [now apply Hmem|].
    rewrite Hh4. apply orb_true_iff. right. now apply existsb_sameTile.
  - exact Hasc.
  - intros u Hu Hh Hnot Hge.
    change (elemTiles a4) with (elemTiles a) in *.
    rewrite Hh4 in Hh. apply orb_true_iff in Hh.
    destruct Hh as [Hh|Hh];
      [|apply existsb_sameTile in Hh; contradiction].
    pose proof (indexOf_In u _ Hu) as Hr.
    destruct (item_range (indexOf u (elemTiles a) - cols) (elemTiles a))
      as [v Hv]; [lia|].
    pose proof (Hset _ _ _ (item_indexOf u _ Hu) Hv Hh) as Hvh.
    exists v. split; [now apply item_In in Hv|].
    split; [now apply indexOf_item|].
    split; [rewrite Hh4, Hvh; reflexivity|].
    intro Hin. destruct (Hmem v Hin) as [_ Hvis]. congruence.
  - assert (a2 = a') by congruence. now subst a2.
Qed.

(** X17 on the untouched 3 x 3 board, hiding its bottom row. *)
Lemma handleUserSuccessSelection_keeps_settled_witness :
  exists a',
    handleUserSuccessSelection 3 3 (mkCombo [7%nat; 8%nat; 9%nat]) plainBoard
      = (a', Ok tt) /\
    settled 3 a' /\
    selection a' = (None, None) /\
    forall u, isHidden a' u
              = isHidden plainBoard u
                || existsb (sameTile u) [7%nat; 8%nat; 9%nat].
Proof.
  apply (handleUserSuccessSelection_keeps_settled 3 3 plainBoard
           (mkCombo [7%nat; 8%nat; 9%nat])).
  - reflexivity.
  - intros i u v _ _ Hh. discriminate Hh.
  - simpl. intros t [<-|[<-|[<-|[]]]]; split; auto 10.
  - reflexivity.
Defined.
